(** * mark-port: a shallow embedding of the preview server's core

    The first part embeds the TypeScript sources:
    - [src/markdown.ts]    -> [Markdown]  (renderer callbacks, heading side channel)
    - [src/fileTree.ts]    -> [FileTree]  (recursive tree builder, [fileExists])
    - [src/routes/api.ts]  -> [Api]       (asset rewriting, the content handler)
    - [src/watcher.ts]     -> [Watcher]   (event filter of the change watcher)
    - [src/routes/sse.ts]  -> [Sse]       (the notification channel)
    - [src/routes/api.ts]  -> [TreeRoute] (the info route and the tree route)
    - [src/watcher.ts]     -> [WatchOptions] (the pattern given to the watch)
    - [src/cli.ts], [src/server.ts] -> [Cli] (the context of a run, the
      path that is watched)
    - [src/fileTree.ts]    -> [HostTree]  (the tree builder over the path
      functions of a host; [Win32] holds those of a Windows host)

    The second part states and proves the properties, one module of facts
    for each module of the first part.

    JavaScript strings are modelled by Rocq strings: sequences of code units
    in the range U+0000..U+00FF.  The library functions the sources call
    ([String.prototype] methods, [node:path], [Array.prototype.sort], the
    [EventEmitter]) are modelled in [JsString], [Path] and next to their use.
    What the sources take from their environment is a parameter: the lexer
    of [marked], [highlight.js], [localeCompare], the working directory and
    the disk.  Effects are explicit: the arrays of headings live in a store
    of references, the content handler returns the calls it made to the file
    system, the notification channel is a machine whose steps are the
    callbacks of the event loop. *)

From Stdlib Require Import ZArith List Ascii String Bool Lia DecimalString Sorted.
From stdpp Require Import base option list gmap strings.

#[local] Set Warnings "-register-all".
Local Open Scope bool_scope.

(* ===================================================================== *)
(** ** JavaScript string primitives                                       *)
(* ===================================================================== *)

Module JsString.

Definition code (c : ascii) : N := N_of_ascii c.

Definition inRange (lo hi : N) (c : ascii) : bool :=
  ((lo <=? code c)%N && (code c <=? hi)%N).

(** [LineTerminator] of the language, within the modelled range: LF, CR. *)
Definition isLineTerminator (c : ascii) : bool :=
  (code c =? 10)%N || (code c =? 13)%N.

(** The class [\s]: TAB, LF, VT, FF, CR, SPACE, NBSP. *)
Definition isWhiteSpace (c : ascii) : bool :=
  inRange 9 13 c || (code c =? 32)%N || (code c =? 160)%N.

(** The class [\w]: [A-Za-z0-9_]. *)
Definition isWordChar (c : ascii) : bool :=
  inRange 65 90 c || inRange 97 122 c || inRange 48 57 c || (code c =? 95)%N.

(** Upper-case letters of the range: A-Z, and U+00C0..U+00DE except U+00D7. *)
Definition isUpper (c : ascii) : bool :=
  inRange 65 90 c || inRange 192 214 c || inRange 216 222 c.

Definition toLowerChar (c : ascii) : ascii :=
  if isUpper c then ascii_of_N (code c + 32) else c.

Fixpoint toLowerCase (s : string) : string :=
  match s with
  | EmptyString => EmptyString
  | String c s' => String (toLowerChar c) (toLowerCase s')
  end.

(** [s.startsWith(p)] *)
Fixpoint startsWith (s p : string) {struct p} : bool :=
  match p, s with
  | EmptyString, _ => true
  | String _ _, EmptyString => false
  | String b p', String a s' => Ascii.eqb a b && startsWith s' p'
  end.

(** [s.includes(p)] *)
Fixpoint includes (s p : string) : bool :=
  startsWith s p ||
  match s with
  | EmptyString => false
  | String _ s' => includes s' p
  end.

Definition rev (s : string) : string := String.rev s.

(** [s.endsWith(p)] *)
Definition endsWith (s p : string) : bool := startsWith (rev s) (rev p).

Fixpoint trimStart (s : string) : string :=
  match s with
  | EmptyString => EmptyString
  | String c s' => if isWhiteSpace c then trimStart s' else s
  end.

(** [s.trim()]: white space and line terminators go, at both ends. *)
Definition trim (s : string) : string := rev (trimStart (rev (trimStart s))).

(** [s.replace(/[^\w\s-]/g, '')] *)
Fixpoint stripPunctuation (s : string) : string :=
  match s with
  | EmptyString => EmptyString
  | String c s' =>
      if isWordChar c || isWhiteSpace c || Ascii.eqb c "-"
      then String c (stripPunctuation s')
      else stripPunctuation s'
  end.

(** [s.replace(/\s+/g, '-')]: every maximal run of white space becomes one
    hyphen.  [inRun] tells that the previous character was white space, so
    that the run already has its hyphen. *)
Fixpoint hyphenateFrom (inRun : bool) (s : string) : string :=
  match s with
  | EmptyString => EmptyString
  | String c s' =>
      if isWhiteSpace c
      then (if inRun then hyphenateFrom true s'
            else String "-" (hyphenateFrom true s'))
      else String c (hyphenateFrom false s')
  end.

Definition hyphenateSpaces (s : string) : string := hyphenateFrom false s.

(** [s.split(sep)] for a set of separator characters: the pieces between
    separators, empty pieces included. *)
Fixpoint splitOn (isSep : ascii -> bool) (s : string) : list string :=
  match s with
  | EmptyString => [EmptyString]
  | String c s' =>
      if isSep c then EmptyString :: splitOn isSep s'
      else match splitOn isSep s' with
           | [] => [String c EmptyString]
           | w :: ws => String c w :: ws
           end
  end.

Definition head (s : string) : option ascii :=
  match s with EmptyString => None | String c _ => Some c end.

Definition last (s : string) : option ascii := head (rev s).

Definition isEmpty (s : string) : bool :=
  match s with EmptyString => true | _ => false end.

End JsString.

(* ===================================================================== *)
(** ** [node:path]                                                        *)
(* ===================================================================== *)

(** The sources import [join], [relative], [resolve], [normalize] and
    [dirname] from [node:path], whose behaviour follows the host, and
    [posix.join] and [posix.normalize], which do not.  This module holds
    the functions of a POSIX host.  They are written over a [Convention]:
    the separator that is written, the characters read as separators --
    the two arguments the library itself gives to [normalizeString] -- and
    whether [relative] compares names up to case.  [posix] is the
    convention of the library.  The functions of a Windows host, which
    read a device before the names, are in [Win32]. *)

Module Path.

Record Convention := {
  sep : ascii;
  isSep : ascii -> bool;
  foldCase : bool
}.

Definition posix : Convention :=
  {| sep := "/"; isSep := fun c => Ascii.eqb c "/"; foldCase := false |}.

Section WithConvention.
Variable conv : Convention.

Definition sepString : string := String (sep conv) EmptyString.

Definition isAbsolute (p : string) : bool :=
  match JsString.head p with Some c => isSep conv c | None => false end.

Definition hasTrailingSep (p : string) : bool :=
  match JsString.last p with Some c => isSep conv c | None => false end.

(** The names between separators. *)
Definition segments (p : string) : list string :=
  JsString.splitOn (isSep conv) p.

(** One step of [normalizeString]: empty names and [.] are dropped, [..]
    removes the name before it; above the start [..] is kept when
    [allowAboveRoot] and dropped otherwise.  [acc] holds the names kept so
    far, last name first. *)
Definition normalizeStep (allowAboveRoot : bool)
    (acc : list string) (s : string) : list string :=
  if String.eqb s "" || String.eqb s "." then acc
  else if String.eqb s ".." then
    match acc with
    | prev :: acc' =>
        if String.eqb prev ".."
        then (if allowAboveRoot then ".." :: acc else acc)
        else acc'
    | [] => if allowAboveRoot then [".."] else []
    end
  else s :: acc.

Definition normalizeSegments (allowAboveRoot : bool)
    (acc : list string) (segs : list string) : list string :=
  List.rev (List.fold_left (normalizeStep allowAboveRoot) segs acc).

Definition joinSegments (segs : list string) : string :=
  String.concat sepString segs.

Definition normalizeString (p : string) (allowAboveRoot : bool) : string :=
  joinSegments (normalizeSegments allowAboveRoot [] (segments p)).

(** [path.normalize(p)] *)
Definition normalize (p : string) : string :=
  if JsString.isEmpty p then "."
  else
    let isAbs := isAbsolute p in
    let trailing := hasTrailingSep p in
    let body := normalizeString p (negb isAbs) in
    if JsString.isEmpty body then
      (if isAbs then sepString
       else if trailing then "." +:+ sepString else ".")
    else
      (if isAbs then sepString else "") +:+ body
        +:+ (if trailing then sepString else "").

(** [path.join(...args)]: the non-empty arguments, separated, then
    normalized. *)
Definition join (args : list string) : string :=
  match List.filter (fun a => negb (JsString.isEmpty a)) args with
  | [] => "."
  | parts => normalize (joinSegments parts)
  end.

(** The loop of [path.resolve]: arguments are taken from the right until
    an absolute one is met; [rargs] is the argument list reversed, with
    the working directory after it. *)
Fixpoint resolveLoop (rargs : list string) (resolvedPath : string)
    : string * bool :=
  match rargs with
  | [] => (resolvedPath, false)
  | p :: rest =>
      if JsString.isEmpty p then resolveLoop rest resolvedPath
      else
        let resolvedPath' := p +:+ sepString +:+ resolvedPath in
        if isAbsolute p then (resolvedPath', true)
        else resolveLoop rest resolvedPath'
  end.

(** [path.resolve(...args)] in the working directory [cwd]. *)
Definition resolve (cwd : string) (args : list string) : string :=
  let '(resolvedPath, resolvedAbsolute) :=
    resolveLoop (List.rev args ++ [cwd]) "" in
  let body := normalizeString resolvedPath (negb resolvedAbsolute) in
  if resolvedAbsolute then sepString +:+ body
  else if JsString.isEmpty body then "." else body.

Definition sameName (a b : string) : bool :=
  if foldCase conv
  then String.eqb (JsString.toLowerCase a) (JsString.toLowerCase b)
  else String.eqb a b.

(** What is left of two name sequences after their common start. *)
Fixpoint dropCommon (fs ts : list string) : list string * list string :=
  match fs, ts with
  | f :: fs', t :: ts' =>
      if sameName f t then dropCommon fs' ts' else (fs, ts)
  | _, _ => (fs, ts)
  end.

Definition names (p : string) : list string :=
  List.filter (fun s => negb (JsString.isEmpty s)) (segments p).

(** [path.relative(from, to)]: both are resolved; one [..] for every name
    of [from] after the common start, then the names of [to] after it. *)
Definition relative (cwd : string) (from to : string) : string :=
  if String.eqb from to then ""
  else
    let from' := resolve cwd [from] in
    let to' := resolve cwd [to] in
    if sameName from' to' then ""
    else
      let '(fs, ts) := dropCommon (names from') (names to') in
      joinSegments (List.map (fun _ => "..") fs ++ ts).

(** The scan of [path.dirname], from the last character down to the
    second: [rs] is the path reversed without its first character.
    Trailing separators are skipped; the result is what precedes the
    separator found, or [None]. *)
Fixpoint dirnameScan (matchedSlash : bool) (rs : string) : option string :=
  match rs with
  | EmptyString => None
  | String c rs' =>
      if isSep conv c then
        (if matchedSlash then dirnameScan true rs' else Some rs')
      else dirnameScan false rs'
  end.

(** [path.dirname(p)] *)
Definition dirname (p : string) : string :=
  match p with
  | EmptyString => "."
  | String c0 tl =>
      let hasRoot := isSep conv c0 in
      match dirnameScan true (JsString.rev tl) with
      | None => if hasRoot then sepString else "."
      | Some before =>
          if hasRoot && JsString.isEmpty before
          then sepString +:+ sepString
          else String c0 (JsString.rev before)
      end
  end.

End WithConvention.

End Path.

(* ===================================================================== *)
(** ** [src/markdown.ts]                                                  *)
(* ===================================================================== *)

Module Markdown.

(** [interface Heading] of [src/types.ts]. *)
Record Heading := {
  level : nat;
  text : string;
  id : string
}.

(** The tokens of [marked] that matter to the two callbacks the module
    overrides.  [TCode] and [THeading] carry the fields the callbacks read.
    [TBlock] is a token that renders its children between fixed markup
    (block quote, list, list item); [THtml] is any other token, with the
    markup the default renderer gives it. *)
Inductive Token :=
| TCode (text : string) (lang : option string)
| THeading (text : string) (depth : nat)
| TBlock (opening closing : string) (tokens : list Token)
| THtml (html : string).

(** [highlight.js], as far as [renderer.code] calls it. *)
Record Highlighter := {
  getLanguage : string -> bool;
  highlight : string -> string -> string;   (* text, language *)
  highlightAuto : string -> string
}.

(** The arrays of headings that exist at run time, by reference.  The
    module-global [headings] is one of them; every call of [parseMarkdown]
    allocates another for its result. *)
Record Store := {
  arrays : gmap nat (list Heading);
  nextRef : nat
}.

(** [const headings: Heading[] = []] *)
Definition headingsRef : nat := 0.

Definition initialStore : Store :=
  {| arrays := {[ headingsRef := [] ]}; nextRef := 1 |}.

Definition readArray (st : Store) (r : nat) : list Heading :=
  default [] (arrays st !! r).

(** [a.length = 0] *)
Definition truncate (r : nat) (st : Store) : Store :=
  {| arrays := <[ r := [] ]> (arrays st); nextRef := nextRef st |}.

(** [a.push(h)] *)
Definition push (r : nat) (h : Heading) (st : Store) : Store :=
  {| arrays := <[ r := readArray st r ++ [h] ]> (arrays st);
     nextRef := nextRef st |}.

(** [[...a]]: a new array with the elements of [a]. *)
Definition spread (r : nat) (st : Store) : nat * Store :=
  (nextRef st,
   {| arrays := <[ nextRef st := readArray st r ]> (arrays st);
      nextRef := S (nextRef st) |}).

Definition quote : string := String "034"%char EmptyString.

Definition natToString (n : nat) : string :=
  NilZero.string_of_uint (Nat.to_uint n).

(** The id of a heading:
    [text.toLowerCase().replace(/[^\w\s-]/g, '').replace(/\s+/g, '-')]. *)
Definition slug (text : string) : string :=
  JsString.hyphenateSpaces
    (JsString.stripPunctuation (JsString.toLowerCase text)).

(** A string is truthy when it is not empty; [undefined] is falsy. *)
Definition truthy (lang : option string) : bool :=
  match lang with
  | Some l => negb (JsString.isEmpty l)
  | None => false
  end.

Section Renderer.
Variable hljs : Highlighter.

(** [renderer.code] *)
Definition renderer_code (text : string) (lang : option string) : string :=
  match lang with
  | Some "mermaid" =>
      "<div class=" +:+ quote +:+ "mermaid" +:+ quote +:+ ">"
        +:+ text +:+ "</div>"
  | _ =>
      let highlighted :=
        match lang with
        | Some l =>
            if negb (JsString.isEmpty l) && getLanguage hljs l
            then highlight hljs text l
            else highlightAuto hljs text
        | None => highlightAuto hljs text
        end in
      "<pre><code class=" +:+ quote +:+ "hljs"
        +:+ match lang with
            | Some l => if JsString.isEmpty l then "" else " language-" +:+ l
            | None => ""
            end
        +:+ quote +:+ ">" +:+ highlighted +:+ "</code></pre>"
  end.

(** [renderer.heading]: the heading is pushed on the module-global array,
    and the tag carries the same id. *)
Definition renderer_heading (text : string) (depth : nat) (st : Store)
    : string * Store :=
  let id := slug text in
  let st' := push headingsRef {| level := depth; text := text; id := id |} st in
  ("<h" +:+ natToString depth +:+ " id=" +:+ quote +:+ id +:+ quote +:+ ">"
     +:+ text +:+ "</h" +:+ natToString depth +:+ ">",
   st').

(** The parser of [marked]: the tokens are rendered in document order, the
    callbacks being called as their tokens are met. *)
Fixpoint renderToken (t : Token) (st : Store) {struct t} : string * Store :=
  match t with
  | TCode text lang => (renderer_code text lang, st)
  | THeading text depth => renderer_heading text depth st
  | TBlock opening closing tokens =>
      let '(body, st') :=
        (fix renderAll (ts : list Token) (st : Store) : string * Store :=
           match ts with
           | [] => (EmptyString, st)
           | t' :: ts' =>
               let '(h, st1) := renderToken t' st in
               let '(hs, st2) := renderAll ts' st1 in
               (h +:+ hs, st2)
           end) tokens st in
      (opening +:+ body +:+ closing, st')
  | THtml html => (html, st)
  end.

Fixpoint renderTokens (ts : list Token) (st : Store) : string * Store :=
  match ts with
  | [] => (EmptyString, st)
  | t :: ts' =>
      let '(h, st1) := renderToken t st in
      let '(hs, st2) := renderTokens ts' st1 in
      (h +:+ hs, st2)
  end.

(** [marked.lexer], with the options set by the module ([gfm], [breaks]). *)
Variable lexer : string -> list Token.

(** [marked.parse(content)] *)
Definition marked_parse (content : string) (st : Store) : string * Store :=
  renderTokens (lexer content) st.

(** [parseMarkdown]: the result holds the markup and the reference of the
    copy of [headings]. *)
Definition parseMarkdown (content : string) (st : Store)
    : (string * nat) * Store :=
  let st0 := truncate headingsRef st in
  let '(html, st1) := marked_parse content st0 in
  let '(copy, st2) := spread headingsRef st1 in
  ((html, copy), st2).

(** The headings a caller reads in the result of [parseMarkdown]. *)
Definition parsedHeadings (content : string) (st : Store) : list Heading :=
  let '((_, copy), st') := parseMarkdown content st in readArray st' copy.

End Renderer.

(** *** [extractHeadings] *)

Fixpoint countWhile (p : ascii -> bool) (s : string) : nat :=
  match s with
  | String c s' => if p c then S (countWhile p s') else 0
  | EmptyString => 0
  end.

Fixpoint takeWhile (p : ascii -> bool) (s : string) : string :=
  match s with
  | String c s' => if p c then String c (takeWhile p s') else EmptyString
  | EmptyString => EmptyString
  end.

Fixpoint drop (n : nat) (s : string) : string :=
  match n, s with
  | S n', String _ s' => drop n' s'
  | _, _ => s
  end.

Definition isHash (c : ascii) : bool := Ascii.eqb c "#".

Definition notLineTerminator (c : ascii) : bool :=
  negb (JsString.isLineTerminator c).

(** Backtracking of [\s+] before [(.+)]: the white space taken is the longest
    of at most [k] characters after which a character other than a line
    terminator follows. *)
Fixpoint spaceTaken (k : nat) (r : string) : option nat :=
  match k with
  | 0 => None
  | S k' =>
      match JsString.head (drop k r) with
      | Some c => if JsString.isLineTerminator c then spaceTaken k' r
                  else Some k
      | None => spaceTaken k' r
      end
  end.

(** A match of [/^(#{1,6})\s+(.+)$/m] at a position where [^] holds: the
    length of group 1, group 2, and the length of the whole match. *)
Definition matchHeadingAt (s : string) : option (nat * string * nat) :=
  let n := countWhile isHash s in
  if (1 <=? n) && (n <=? 6) then
    let r := drop n s in
    match spaceTaken (countWhile JsString.isWhiteSpace r) r with
    | Some k =>
        let line := takeWhile notLineTerminator (drop k r) in
        Some (n, line, n + k + String.length line)
    | None => None
    end
  else None.

Definition headingOfMatch (n : nat) (group2 : string) : Heading :=
  let text := JsString.trim group2 in
  {| level := n; text := text; id := slug text |}.

(** The loop [while ((match = headingRegex.exec(content)) !== null)] of a
    global regular expression: the search goes on where the last match
    ended.  [skip] counts the characters of the last match still to pass;
    [atLineStart] is the assertion [^] at the current position. *)
Fixpoint execLoop (skip : nat) (atLineStart : bool) (s : string)
    : list Heading :=
  match s with
  | EmptyString => []
  | String c s' =>
      let next := JsString.isLineTerminator c in
      match skip with
      | S k => execLoop k next s'
      | 0 =>
          if atLineStart then
            match matchHeadingAt s with
            | Some (n, group2, len) =>
                headingOfMatch n group2 :: execLoop (len - 1) next s'
            | None => execLoop 0 next s'
            end
          else execLoop 0 next s'
      end
  end.

Definition extractHeadings (content : string) : list Heading :=
  execLoop 0 true content.

End Markdown.

(* ===================================================================== *)
(** ** The file system                                                    *)
(* ===================================================================== *)

(** What the sources see of the disk through [readdir], [stat] and
    [readFile]: a tree of directory entries.  An entry that is neither a
    regular file nor a directory (a socket, a dangling link) is [Other];
    a directory that cannot be listed has [readable = false]. *)

Module Fs.

Inductive Entry :=
| File (name : string) (content : string)
| Dir (name : string) (readable : bool) (entries : list Entry)
| Other (name : string).

Definition entryName (e : Entry) : string :=
  match e with
  | File n _ => n
  | Dir n _ _ => n
  | Other n => n
  end.

(** [entry.isDirectory()], [entry.isFile()] *)
Definition isDirectory (e : Entry) : bool :=
  match e with Dir _ _ _ => true | _ => false end.

Definition isFile (e : Entry) : bool :=
  match e with File _ _ => true | _ => false end.

(** [readdir(dir, { withFileTypes: true })]; it rejects on what is not a
    directory or cannot be listed. *)
Definition readdir (dir : Entry) : option (list Entry) :=
  match dir with
  | Dir _ true entries => Some entries
  | _ => None
  end.

(** The entry reached from [e] by a sequence of names. *)
Fixpoint lookup (e : Entry) (names : list string) {struct e} : option Entry :=
  match names with
  | [] => Some e
  | n :: ns =>
      match e with
      | Dir _ _ entries =>
          (fix find (es : list Entry) : option Entry :=
             match es with
             | [] => None
             | e' :: es' =>
                 if String.eqb (entryName e') n then lookup e' ns
                 else find es'
             end) entries
      | _ => None
      end
  end.

Section OnDisk.
Variable conv : Path.Convention.
Variable cwd : string.
(** The root directory of the disk. *)
Variable root : Entry.

Definition entryAt (p : string) : option Entry :=
  lookup root (Path.names conv (Path.resolve conv cwd [p])).

(** [stat(p)]: it rejects when nothing is at [p]. *)
Definition stat (p : string) : option Entry := entryAt p.

(** [readFile(p, 'utf-8')]: it rejects unless a regular file is at [p]. *)
Definition readFile (p : string) : option string :=
  match entryAt p with
  | Some (File _ content) => Some content
  | _ => None
  end.

End OnDisk.

End Fs.

(* ===================================================================== *)
(** ** [src/fileTree.ts]                                                  *)
(* ===================================================================== *)

Module FileTree.
Import Fs.

Inductive NodeType := file | directory.

(** [interface TreeNode] of [src/types.ts]; [children] is optional. *)
Inductive TreeNode :=
| Node (name path : string) (type : NodeType)
       (children : option (list TreeNode)).

Definition name (n : TreeNode) : string :=
  match n with Node x _ _ _ => x end.
Definition path (n : TreeNode) : string :=
  match n with Node _ x _ _ => x end.
Definition type (n : TreeNode) : NodeType :=
  match n with Node _ _ x _ => x end.
Definition children (n : TreeNode) : option (list TreeNode) :=
  match n with Node _ _ _ x => x end.

Definition sameType (a b : NodeType) : bool :=
  match a, b with
  | file, file | directory, directory => true
  | _, _ => false
  end.

Definition IGNORE_PATTERNS : list string :=
  ["node_modules"; ".git"; ".DS_Store"; "dist"; ".next"; ".cache"].

(** [IGNORE_PATTERNS.includes(name)] *)
Definition ignored (name : string) : bool :=
  existsb (String.eqb name) IGNORE_PATTERNS.

Definition isMarkdownFile (filename : string) : bool :=
  let ext := JsString.toLowerCase filename in
  JsString.endsWith ext ".md" || JsString.endsWith ext ".markdown".

Fixpoint nodeHasMarkdown (node : TreeNode) : bool :=
  match node with
  | Node _ _ ty ch =>
      match ty with
      | file => true
      | directory =>
          match ch with
          | Some nodes => existsb nodeHasMarkdown nodes
          | None => false
          end
      end
  end.

Definition hasMarkdownFiles (nodes : list TreeNode) : bool :=
  existsb nodeHasMarkdown nodes.

(** [Array.prototype.sort] with a comparator: the sort is stable; with a
    consistent comparator the result is the ordered arrangement, which
    insertion from the right computes. *)
Section Sort.
Context {A : Type}.
Variable compare : A -> A -> Z.

Fixpoint insertSorted (x : A) (l : list A) : list A :=
  match l with
  | [] => [x]
  | y :: l' =>
      if (compare x y <=? 0)%Z then x :: l else y :: insertSorted x l'
  end.

Definition sort (l : list A) : list A := fold_right insertSorted [] l.

End Sort.

Section Builder.
Variable conv : Path.Convention.
Variable cwd : string.
(** [String.prototype.localeCompare], which follows the host's locale. *)
Variable localeCompare : string -> string -> Z.

(** The comparator given to [nodes.sort]. *)
Definition compareNodes (a b : TreeNode) : Z :=
  if sameType (type a) (type b) then localeCompare (name a) (name b)
  else match type a with directory => (-1)%Z | file => 1%Z end.

(** [buildFileTree(dirPath, basePath)], [dir] being the directory at
    [dirPath]: [readdir] lists it or rejects, the loop visits its entries,
    and the nodes are sorted. *)
Fixpoint buildFileTree (dirPath basePath : string) (dir : Entry) {struct dir}
    : option (list TreeNode) :=
  match dir with
  | Dir _ true entries =>
      nodes ←
        (fix loop (es : list Entry) : option (list TreeNode) :=
           match es with
           | [] => Some []
           | entry :: es' =>
               if ignored (entryName entry) then loop es'
               else
                 let fullPath := Path.join conv [dirPath; entryName entry] in
                 let relativePath := Path.relative conv cwd basePath fullPath in
                 if isDirectory entry then
                   children ← buildFileTree fullPath basePath entry;
                   rest ← loop es';
                   Some
                     (if (0 <? length children) || hasMarkdownFiles children
                      then Node (entryName entry) relativePath directory
                             (Some children) :: rest
                      else rest)
                 else if isFile entry && isMarkdownFile (entryName entry) then
                   rest ← loop es';
                   Some (Node (entryName entry) relativePath file None :: rest)
                 else loop es'
           end) entries;
      Some (sort compareNodes nodes)
  | _ => None
  end.

End Builder.

(** [fileExists]: whether [stat] succeeds. *)
Definition fileExists (conv : Path.Convention) (cwd : string) (root : Entry)
    (filePath : string) : bool :=
  match stat conv cwd root filePath with
  | Some _ => true
  | None => false
  end.

End FileTree.

(* ===================================================================== *)
(** ** [src/routes/api.ts]                                                *)
(* ===================================================================== *)

Module Api.
Import Markdown.

(** *** [rewriteAssetPaths] *)

Fixpoint take (n : nat) (s : string) : string :=
  match n, s with
  | S n', String c s' => String c (take n' s')
  | _, _ => EmptyString
  end.

Definition isQuote (c : ascii) : bool :=
  Ascii.eqb c "034" || Ascii.eqb c "'".

Definition notQuote (c : ascii) : bool := negb (isQuote c).

Definition notGt (c : ascii) : bool := negb (Ascii.eqb c ">").

(** A literal of the pattern under the flag [i]; [lit] is in lower case. *)
Fixpoint startsWithFold (s lit : string) {struct lit} : bool :=
  match lit, s with
  | EmptyString, _ => true
  | String _ _, EmptyString => false
  | String b lit', String a s' =>
      Ascii.eqb (JsString.toLowerChar a) b && startsWithFold s' lit'
  end.

(** The rest of the pattern once [[^>]*] has taken [j] characters of [t],
    the text after [<img]: [src=], a quote, group 2 (the longest run
    without a quote, not empty), and group 3 (a quote, the longest run
    without [>], and [>]).  The result is group 2, group 3 and the length
    of the match counted from [t]. *)
Definition matchSrcAt (t : string) (j : nat) : option (string * string * nat) :=
  let u := drop j t in
  if startsWithFold u "src=" then
    match drop 4 u with
    | String q after =>
        if isQuote q then
          let src := takeWhile notQuote after in
          if JsString.isEmpty src then None
          else
            match drop (String.length src) after with
            | String q2 rest =>
                let tail := takeWhile notGt rest in
                match drop (String.length tail) rest with
                | String g _ =>
                    Some (src, String q2 (tail +:+ String g EmptyString),
                          j + 5 + String.length src + 1
                            + String.length tail + 1)
                | EmptyString => None
                end
            | EmptyString => None
            end
        else None
    | EmptyString => None
    end
  else None.

(** Backtracking of the greedy [[^>]*]: the longest prefix first. *)
Fixpoint lastSrc (t : string) (j : nat) : option (nat * (string * string * nat)) :=
  match j with
  | 0 => None
  | S j' =>
      match matchSrcAt t j with
      | Some m => Some (j, m)
      | None => lastSrc t j'
      end
  end.

(** A match of the pattern of [rewriteAssetPaths] at the start of [s]: the
    three groups.  With Q for the class of the two quote characters, the
    pattern is [(<img\s+[^>]*src=Q)([^Q]+)(Q[^>]*>)], under the flag [i]. *)
Definition matchImgAt (s : string) : option (string * string * string) :=
  if startsWithFold s "<img" then
    let t := drop 4 s in
    match t with
    | String w _ =>
        if JsString.isWhiteSpace w then
          match lastSrc t (countWhile notGt t) with
          | Some (j, (src, suffix, _)) => Some (take (4 + j + 5) s, src, suffix)
          | None => None
          end
        else None
    | EmptyString => None
    end
  else None.

(** The replacement callback. *)
Definition rewriteMatch (fileDir : string) (prefix src suffix : string)
    : string :=
  if JsString.startsWith src "http://" || JsString.startsWith src "https://"
     || JsString.startsWith src "data:" || JsString.startsWith src "/"
  then prefix +:+ src +:+ suffix
  else
    let assetPath :=
      Path.normalize Path.posix
        (Path.join Path.posix ["/assets"; fileDir; src]) in
    prefix +:+ assetPath +:+ suffix.

(** [html.replace(pattern, callback)] with the flag [g]: matches are found
    from left to right, the search going on after each match.  [skip]
    counts the characters of the last match still to pass. *)
Fixpoint replaceAll (fileDir : string) (skip : nat) (s : string) : string :=
  match s with
  | EmptyString => EmptyString
  | String c s' =>
      match skip with
      | S k => replaceAll fileDir k s'
      | 0 =>
          match matchImgAt s with
          | Some (prefix, src, suffix) =>
              rewriteMatch fileDir prefix src suffix
                +:+ replaceAll fileDir
                      (String.length prefix + String.length src
                         + String.length suffix - 1) s'
          | None => String c (replaceAll fileDir 0 s')
          end
      end
  end.

Definition rewriteAssetPaths (html fileDir : string) : string :=
  replaceAll fileDir 0 html.

(** *** The content route *)

Inductive Mode := FileMode | DirectoryMode.

(** [interface AppContext], without the options the routes do not read. *)
Record AppContext := {
  mode : Mode;
  targetPath : string;
  basePath : string
}.

Record ContentResponse := {
  file : string;
  html : string;
  headings : list Heading;
  raw : string
}.

(** What a request ends in: a body sent with a status code, or the
    rejection of the handler's promise. *)
Inductive Reply :=
| Content (code : nat) (body : ContentResponse)
| Error (code : nat) (error : string)
| Rejected.

(** The calls made to the file system while a request is served. *)
Inductive FsCall :=
| CallStat (p : string)
| CallReadFile (p : string).

Record Outcome := {
  reply : Reply;
  calls : list FsCall;
  store : Store
}.

Definition statusOf (r : Reply) : option nat :=
  match r with
  | Content code _ => Some code
  | Error code _ => Some code
  | Rejected => None
  end.

Section Routes.
Variable conv : Path.Convention.
Variable cwd : string.
Variable root : Fs.Entry.
Variable hljs : Highlighter.
Variable lexer : string -> list Token.
Variable context : AppContext.

(** The path checked and read for a request whose [file] passed the first
    validation. *)
Definition resolvedPathOf (normalizedPath : string) : string :=
  let fullPath :=
    match mode context with
    | FileMode =>
        Path.resolve conv cwd [basePath context; targetPath context]
    | DirectoryMode =>
        Path.join conv [basePath context; normalizedPath]
    end in
  Path.resolve conv cwd [fullPath].

(** The handler of [GET /api/content]; [file] is [request.query.file]. *)
Definition contentHandler (file : option string) (st : Store) : Outcome :=
  match file with
  | None | Some EmptyString =>
      {| reply := Error 400 "File parameter is required";
         calls := []; store := st |}
  | Some file =>
      let normalizedPath := Path.normalize conv file in
      if JsString.includes normalizedPath ".."
         || JsString.startsWith normalizedPath "/"
      then {| reply := Error 403 "Invalid file path";
              calls := []; store := st |}
      else
        let resolvedPath := resolvedPathOf normalizedPath in
        if negb (JsString.startsWith resolvedPath
                   (Path.resolve conv cwd [basePath context]))
        then {| reply := Error 403 "Access denied";
                calls := []; store := st |}
        else if negb (FileTree.fileExists conv cwd root resolvedPath)
        then {| reply := Error 404 "File not found";
                calls := [CallStat resolvedPath]; store := st |}
        else
          let calls := [CallStat resolvedPath; CallReadFile resolvedPath] in
          match Fs.readFile conv cwd root resolvedPath with
          | None => {| reply := Rejected; calls := calls; store := st |}
          | Some raw =>
              let '((html, copy), st') := parseMarkdown hljs lexer raw st in
              let fileDir :=
                match mode context with
                | FileMode => EmptyString
                | DirectoryMode => Path.dirname conv normalizedPath
                end in
              let processedHtml := rewriteAssetPaths html fileDir in
              {| reply :=
                   Content 200
                     {| file := normalizedPath; html := processedHtml;
                        headings := readArray st' copy; raw := raw |};
                 calls := calls; store := st' |}
          end
  end.

End Routes.

End Api.

(* ===================================================================== *)
(** ** [src/watcher.ts] and [src/routes/sse.ts]                           *)
(* ===================================================================== *)

Module Watcher.

Inductive ChangeType := add | change | unlink.

(** [interface FileChangeEvent] *)
Record FileChangeEvent := {
  type : ChangeType;
  file : string
}.

Definition isMarkdownFile (filename : string) : bool :=
  let ext := JsString.toLowerCase filename in
  JsString.endsWith ext ".md" || JsString.endsWith ext ".markdown".

(** [handleEvent]: the event emitted on the topic [change], if any. *)
Definition handleEvent (conv : Path.Convention) (cwd basePath : string)
    (type : ChangeType) (filePath : string) : option FileChangeEvent :=
  if negb (isMarkdownFile filePath) then None
  else Some {| type := type;
               file := Path.relative conv cwd basePath filePath |}.

End Watcher.

Module Sse.
Import Watcher.

(** What [reply.raw.write] sends: [event: connected], [event: fileChange]
    with the event as data, and the comment [:heartbeat]. *)
Inductive Message :=
| Connected
| FileChange (event : FileChangeEvent)
| Heartbeat.

(** The state shared by the connections.  A connection is named by the
    number of its request; its listener [onFileChange] and its interval
    timer are named after it. *)
Record State := {
  listeners : list nat;            (* of the watcher's topic, oldest first *)
  heartbeats : list nat;           (* the interval timers that are set *)
  written : list (nat * Message);  (* every write, oldest first *)
  nextConnection : nat
}.

Definition initial : State :=
  {| listeners := []; heartbeats := []; written := []; nextConnection := 0 |}.

Definition write (c : nat) (m : Message) (st : State) : State :=
  {| listeners := listeners st; heartbeats := heartbeats st;
     written := written st ++ [(c, m)];
     nextConnection := nextConnection st |}.

(** [emitter.off(topic, f)]: the instance of [f] added last is removed. *)
Fixpoint removeLast (c : nat) (l : list nat) : list nat :=
  match l with
  | [] => []
  | x :: l' =>
      if (x =? c) && negb (existsb (Nat.eqb c) l') then l'
      else x :: removeLast c l'
  end.

(** [emitter.emit(topic, event)]: the listeners registered at that moment
    are called in the order of their registration. *)
Definition emit (event : FileChangeEvent) (st : State) : State :=
  fold_left (fun st c => write c (FileChange event) st) (listeners st) st.

Inductive Step :=
| Connect                                          (* GET /sse/changes *)
| FsEvent (type : ChangeType) (filePath : string)  (* the watch reports *)
| Tick (c : nat)                                   (* the interval fires *)
| Close (c : nat).                                 (* request.raw closes *)

Section Channel.
Variable conv : Path.Convention.
Variable cwd : string.
(** [watcher: FileWatcher | null], a watcher being given by its
    [basePath]. *)
Variable watcher : option string.

Definition step (st : State) (s : Step) : State :=
  match s with
  | Connect =>
      let c := nextConnection st in
      let st1 := write c Connected st in
      {| listeners :=
           match watcher with
           | Some _ => listeners st1 ++ [c]
           | None => listeners st1
           end;
         heartbeats := heartbeats st1 ++ [c];
         written := written st1;
         nextConnection := S c |}
  | FsEvent type filePath =>
      match watcher with
      | Some basePath =>
          match handleEvent conv cwd basePath type filePath with
          | Some event => emit event st
          | None => st
          end
      | None => st
      end
  | Tick c =>
      if existsb (Nat.eqb c) (heartbeats st) then write c Heartbeat st else st
  | Close c =>
      {| listeners :=
           match watcher with
           | Some _ => removeLast c (listeners st)
           | None => listeners st
           end;
         heartbeats := List.filter (fun x => negb (x =? c)) (heartbeats st);
         written := written st;
         nextConnection := nextConnection st |}
  end.

Definition run (steps : list Step) (st : State) : State :=
  fold_left step steps st.

(** The messages written to connection [c], oldest first. *)
Definition received (c : nat) (st : State) : list Message :=
  List.map snd (List.filter (fun w => fst w =? c) (written st)).

End Channel.

End Sse.

(* ===================================================================== *)
(** ** Sample collaborators                                               *)
(* ===================================================================== *)

(** The lexer of [marked], [highlight.js] and [localeCompare] are
    parameters of the development.  The samples below instantiate them
    where a statement is run on a concrete document. *)

Module Sample.
Import Markdown.

Definition newline : string := String "010"%char EmptyString.

Definition lines (s : string) : list string :=
  JsString.splitOn (fun c => Ascii.eqb c "010") s.

Definition fenceMark : string := "```".

Definition closeFence (lang : string) (body : list string) : Token :=
  TCode (String.concat newline (List.rev body))
        (if JsString.isEmpty lang then None else Some lang).

(** A lexer for documents made of ATX headings, fenced code and one-line
    paragraphs.  [fence] holds the language and the lines, last first, of
    the fenced block being read. *)
Fixpoint lexLines (fence : option (string * list string)) (ls : list string)
    : list Token :=
  match ls with
  | [] =>
      match fence with
      | Some (lang, body) => [closeFence lang body]
      | None => []
      end
  | l :: ls' =>
      match fence with
      | Some (lang, body) =>
          if String.eqb l fenceMark
          then closeFence lang body :: lexLines None ls'
          else lexLines (Some (lang, l :: body)) ls'
      | None =>
          if JsString.startsWith l fenceMark
          then lexLines (Some (JsString.trim (drop 3 l), [])) ls'
          else
            let n := countWhile isHash l in
            if (1 <=? n) && (n <=? 6)
               && JsString.startsWith (drop n l) " "
            then THeading (JsString.trim (drop n l)) n :: lexLines None ls'
            else if JsString.isEmpty l then lexLines None ls'
            else THtml ("<p>" +:+ l +:+ "</p>" +:+ newline)
                   :: lexLines None ls'
      end
  end.

Definition lexer (content : string) : list Token :=
  lexLines None (lines content).

(** A highlighter that knows no language and marks nothing up. *)
Definition hljs : Highlighter :=
  {| getLanguage := fun _ => false;
     highlight := fun text _ => text;
     highlightAuto := fun text => text |}.

(** Comparison of names by code units. *)
Definition localeCompare (a b : string) : Z :=
  match String.compare a b with
  | Lt => (-1)%Z
  | Eq => 0%Z
  | Gt => 1%Z
  end.

End Sample.

(* ===================================================================== *)
(** ** [src/routes/api.ts]: the info route and the tree route             *)
(* ===================================================================== *)

Module TreeRoute.
Import FileTree Api.

(** [interface InfoResponse] of [src/types.ts]. *)
Record InfoResponse := {
  infoMode : Mode;
  infoTargetPath : string;
  version : string
}.

(** [targetPath.split('/').pop() || targetPath]: the piece after the last
    slash, or the whole when that piece is empty. *)
Definition filenameOf (targetPath : string) : string :=
  let filename :=
    List.last (JsString.splitOn (fun c => Ascii.eqb c "/") targetPath)
      EmptyString in
  if JsString.isEmpty filename then targetPath else filename.

Section Routes.
Variable conv : Path.Convention.
Variable cwd : string.
Variable root : Fs.Entry.
Variable localeCompare : string -> string -> Z.
Variable context : AppContext.

(** The handler of [GET /api/info]. *)
Definition infoHandler : InfoResponse :=
  {| infoMode := mode context;
     infoTargetPath := targetPath context;
     version := "1.0.0" |}.

(** The handler of [GET /api/tree]: the tree sent, or [None] when the
    promise of the handler is rejected.  In directory mode the directory
    read first is the one at [basePath]. *)
Definition treeHandler : option (list TreeNode) :=
  match mode context with
  | FileMode =>
      let filename := filenameOf (targetPath context) in
      Some [Node filename filename FileTree.file None]
  | DirectoryMode =>
      dir ← Fs.entryAt conv cwd root (basePath context);
      buildFileTree conv cwd localeCompare
        (basePath context) (basePath context) dir
  end.

End Routes.

End TreeRoute.

(* ===================================================================== *)
(** ** [src/watcher.ts]: the paths the watch leaves out                   *)
(* ===================================================================== *)

Module WatchOptions.

(** The first branch of the pattern given to the watch as [ignored]: a dot
    at the start of the path or after a slash or a backslash.
    [atBoundary] tells that the position is such a place. *)
Fixpoint dotAtBoundary (atBoundary : bool) (p : string) : bool :=
  match p with
  | EmptyString => false
  | String c p' =>
      (atBoundary && Ascii.eqb c ".")
      || dotAtBoundary (Ascii.eqb c "/" || Ascii.eqb c "\") p'
  end.

(** The pattern of [start], as a test on a path: a dot at a boundary, or
    [node_modules] anywhere, or [dist] anywhere. *)
Definition ignored (p : string) : bool :=
  dotAtBoundary true p
  || JsString.includes p "node_modules"
  || JsString.includes p "dist".

End WatchOptions.

(* ===================================================================== *)
(** ** [src/cli.ts] and [src/server.ts]                                   *)
(* ===================================================================== *)

Module Cli.
Import Api.

Section WithConvention.
Variable conv : Path.Convention.

(** The scan of [path.basename], from the last character down: [rs] is
    the path reversed.  Trailing separators are skipped; the result is the
    name met, reversed, up to the separator before it. *)
Fixpoint basenameScan (matchedSlash : bool) (rs : string) : string :=
  match rs with
  | EmptyString => EmptyString
  | String c rs' =>
      if Path.isSep conv c then
        (if matchedSlash then basenameScan true rs' else EmptyString)
      else String c (basenameScan false rs')
  end.

(** [path.basename(p)] *)
Definition basename (p : string) : string :=
  JsString.rev (basenameScan true (JsString.rev p)).

Variable cwd : string.
Variable root : Fs.Entry.

(** The context the command makes of its argument; [None] when [stat]
    rejects, which ends the process with an error. *)
Definition contextOf (inputPath : string) : option AppContext :=
  let fullPath := Path.resolve conv cwd [inputPath] in
  stats ← Fs.stat conv cwd root fullPath;
  let isFile := Fs.isFile stats in
  Some {| mode := if isFile then FileMode else DirectoryMode;
          targetPath := if isFile then basename fullPath else ".";
          basePath := if isFile then Path.dirname conv fullPath
                      else fullPath |}.

(** [createServer]: the path given to [watcher.start]. *)
Definition watchPathOf (context : AppContext) : string :=
  match mode context with
  | FileMode => Path.join conv [basePath context; targetPath context]
  | DirectoryMode => basePath context
  end.

(** [createServer]: the watcher given to the notification route, a
    watcher being given by its [basePath]. *)
Definition watcherOf (watch : bool) (context : AppContext) : option string :=
  if watch then Some (basePath context) else None.

End WithConvention.

End Cli.

(* ===================================================================== *)
(** ** [node:path] on a Windows host                                      *)
(* ===================================================================== *)

(** On a Windows host [join], [relative], [resolve] and [normalize] of
    [node:path] are those of [path.win32]: they read a device first (a
    drive letter with its colon, or the server and the share of a UNC
    path), then normalize what follows with the backslash as the separator
    that is written and both slashes as the separators that are read.
    They are modelled as the library has them, character by character; the
    part they share with [posix] is [normalizeString], taken from [Path]
    with the separator and the test for a separator that [win32] gives it.
    The working directory of the process and its environment, where the
    host keeps the working directory of each drive, are parameters. *)

Module Win32.

Definition isPathSeparator (c : ascii) : bool :=
  Ascii.eqb c "/" || Ascii.eqb c "\".

Definition isWindowsDeviceRoot (c : ascii) : bool :=
  JsString.inRange 65 90 c || JsString.inRange 97 122 c.

(** The two arguments [win32] gives to [normalizeString]. *)
Definition separators : Path.Convention :=
  {| Path.sep := "\"; Path.isSep := isPathSeparator; Path.foldCase := true |}.

Definition normalizeString (path : string) (allowAboveRoot : bool) : string :=
  Path.normalizeString separators path allowAboveRoot.

(** [p(s.charCodeAt(i))], false beyond the end. *)
Definition testAt (p : ascii -> bool) (s : string) (i : nat) : bool :=
  match String.get i s with
  | Some c => p c
  | None => false
  end.

Definition isBackslash (c : ascii) : bool := Ascii.eqb c "\".

Definition isColon (c : ascii) : bool := Ascii.eqb c ":".

(** [s.slice(i, j)] for [i <= j], and [s.slice(i)]. *)
Definition slice (s : string) (i j : nat) : string :=
  String.substring i (j - i) s.

Definition sliceFrom (s : string) (i : nat) : string := Markdown.drop i s.

(** The index at which [while (j < len && p(path[j])) j++] stops. *)
Definition scan (p : ascii -> bool) (path : string) (j : nat) : nat :=
  j + Markdown.countWhile p (sliceFrom path j).

Definition notSeparator (c : ascii) : bool := negb (isPathSeparator c).

(** What the functions read at the start of a path. *)
Record Root := {
  rootEnd : nat;
  device : string;
  isAbsolute : bool
}.

(** In a path that begins with two separators: a name, separators and a
    second name.  The result is the first name, the index of the second
    and the index after it. *)
Definition uncParts (path : string) : option (string * nat * nat) :=
  let len := String.length path in
  let j1 := scan notSeparator path 2 in
  if (j1 <? len) && negb (j1 =? 2) then
    let j2 := scan isPathSeparator path j1 in
    if (j2 <? len) && negb (j2 =? j1) then
      Some (slice path 2 j1, j2, scan notSeparator path j2)
    else None
  else None.

Definition uncDevice (path firstPart : string) (last j : nat) : string :=
  "\\" +:+ firstPart +:+ "\" +:+ slice path last j.

(** The drive of a path that does not begin with a separator. *)
Definition driveRoot (path : string) : Root :=
  if testAt isWindowsDeviceRoot path 0 && testAt isColon path 1 then
    if (2 <? String.length path) && testAt isPathSeparator path 2
    then {| rootEnd := 3; device := slice path 0 2; isAbsolute := true |}
    else {| rootEnd := 2; device := slice path 0 2; isAbsolute := false |}
  else {| rootEnd := 0; device := ""; isAbsolute := false |}.

(** The root as [resolve] reads it. *)
Definition rootOf (path : string) : Root :=
  let len := String.length path in
  if len =? 1 then
    if testAt isPathSeparator path 0
    then {| rootEnd := 1; device := ""; isAbsolute := true |}
    else {| rootEnd := 0; device := ""; isAbsolute := false |}
  else if testAt isPathSeparator path 0 then
    if testAt isPathSeparator path 1 then
      match uncParts path with
      | Some (firstPart, last, j) =>
          if (j =? len) || negb (j =? last)
          then {| rootEnd := j; device := uncDevice path firstPart last j;
                  isAbsolute := true |}
          else {| rootEnd := 0; device := ""; isAbsolute := true |}
      | None => {| rootEnd := 0; device := ""; isAbsolute := true |}
      end
    else {| rootEnd := 1; device := ""; isAbsolute := true |}
  else driveRoot path.

Section OnHost.
(** [process.cwd()] and [process.env]. *)
Variable cwd : string.
Variable env : string -> option string.

Record Resolved := {
  resolvedDevice : string;
  resolvedTail : string;
  resolvedAbsolute : bool
}.

Definition sameDevice (a b : string) : bool :=
  String.eqb (JsString.toLowerCase a) (JsString.toLowerCase b).

(** One turn of the loop of [resolve] for the path [p]; the boolean tells
    whether the loop ends there.  A path on another device than the one
    resolved is passed over. *)
Definition resolveStep (p : string) (st : Resolved) : Resolved * bool :=
  let r := rootOf p in
  if negb (JsString.isEmpty (device r))
     && negb (JsString.isEmpty (resolvedDevice st))
     && negb (sameDevice (device r) (resolvedDevice st))
  then (st, false)
  else
    let dev :=
      if JsString.isEmpty (resolvedDevice st) then device r
      else resolvedDevice st in
    if resolvedAbsolute st then
      ({| resolvedDevice := dev; resolvedTail := resolvedTail st;
          resolvedAbsolute := true |},
       negb (JsString.isEmpty dev))
    else
      ({| resolvedDevice := dev;
          resolvedTail := sliceFrom p (rootEnd r) +:+ "\" +:+ resolvedTail st;
          resolvedAbsolute := isAbsolute r |},
       isAbsolute r && negb (JsString.isEmpty dev)).

(** The path of the last turn: the working directory of the process, or,
    once a drive is resolved, the working directory of that drive. *)
Definition workingDirectory (st : Resolved) : string :=
  if JsString.isEmpty (resolvedDevice st) then cwd
  else
    let path :=
      match env ("=" +:+ resolvedDevice st) with
      | Some v => if JsString.isEmpty v then cwd else v
      | None => cwd
      end in
    if negb (sameDevice (slice path 0 2) (resolvedDevice st))
       && testAt isBackslash path 2
    then resolvedDevice st +:+ "\"
    else path.

(** The loop of [resolve], from the last argument to the first and then
    the working directory; empty arguments are passed over. *)
Fixpoint resolveLoop (rargs : list string) (st : Resolved) : Resolved :=
  match rargs with
  | [] => fst (resolveStep (workingDirectory st) st)
  | p :: rest =>
      if JsString.isEmpty p then resolveLoop rest st
      else
        let '(st', stop) := resolveStep p st in
        if stop then st' else resolveLoop rest st'
  end.

(** [path.win32.resolve(...args)] *)
Definition resolve (args : list string) : string :=
  let st :=
    resolveLoop (List.rev args)
      {| resolvedDevice := ""; resolvedTail := "";
         resolvedAbsolute := false |} in
  let tail := normalizeString (resolvedTail st) (negb (resolvedAbsolute st)) in
  if resolvedAbsolute st then resolvedDevice st +:+ "\" +:+ tail
  else
    let whole := resolvedDevice st +:+ tail in
    if JsString.isEmpty whole then "." else whole.

End OnHost.

(** The root as [normalize] reads it, or the result when the path is a
    UNC root and nothing more. *)
Definition normalizeRoot (path : string) : string + Root :=
  let len := String.length path in
  if testAt isPathSeparator path 0 then
    if testAt isPathSeparator path 1 then
      match uncParts path with
      | Some (firstPart, last, j) =>
          if j =? len
          then inl ("\\" +:+ firstPart +:+ "\" +:+ sliceFrom path last +:+ "\")
          else if negb (j =? last)
          then inr {| rootEnd := j; device := uncDevice path firstPart last j;
                      isAbsolute := true |}
          else inr {| rootEnd := 0; device := ""; isAbsolute := true |}
      | None => inr {| rootEnd := 0; device := ""; isAbsolute := true |}
      end
    else inr {| rootEnd := 1; device := ""; isAbsolute := true |}
  else inr (driveRoot path).

(** [path.win32.normalize(path)] *)
Definition normalize (path : string) : string :=
  let len := String.length path in
  if len =? 0 then "."
  else if len =? 1 then
    (if testAt (fun c => Ascii.eqb c "/") path 0 then "\" else path)
  else
    match normalizeRoot path with
    | inl result => result
    | inr r =>
        let tail :=
          if rootEnd r <? len
          then normalizeString (sliceFrom path (rootEnd r))
                 (negb (isAbsolute r))
          else "" in
        let tail :=
          if JsString.isEmpty tail && negb (isAbsolute r) then "." else tail in
        let tail :=
          if negb (JsString.isEmpty tail)
             && testAt isPathSeparator path (len - 1)
          then tail +:+ "\" else tail in
        if isAbsolute r then device r +:+ "\" +:+ tail
        else device r +:+ tail
    end.

(** [path.win32.join(...args)]: the non-empty arguments with backslashes
    between them, normalized.  Separators at the start are made one,
    unless the first argument begins with exactly two and a name, which
    is the start of a UNC path. *)
Definition join (args : list string) : string :=
  match List.filter (fun a => negb (JsString.isEmpty a)) args with
  | [] => "."
  | (firstPart :: _) as parts =>
      let joined := String.concat "\" parts in
      let firstLen := String.length firstPart in
      let '(slashCount, needsReplace) :=
        if testAt isPathSeparator firstPart 0 then
          if (1 <? firstLen) && testAt isPathSeparator firstPart 1 then
            if 2 <? firstLen then
              (if testAt isPathSeparator firstPart 2 then (3, true)
               else (2, false))
            else (2, true)
          else (1, true)
        else (0, true) in
      let joined :=
        if needsReplace then
          let slashCount := scan isPathSeparator joined slashCount in
          if 2 <=? slashCount then "\" +:+ sliceFrom joined slashCount
          else joined
        else joined in
      normalize joined
  end.

(** [while (end - 1 > start && s[end - 1] is a backslash) end--] *)
Fixpoint trimEnd (s : string) (start e : nat) : nat :=
  match e with
  | S e' =>
      if (start <? e') && testAt isBackslash s e' then trimEnd s start e'
      else e
  | 0 => 0
  end.

(** The loop that compares [from] and [to] from their starts, [n] turns
    being left: the index at which it stops and the last index at which
    both hold a backslash. *)
Fixpoint compareLoop (from to : string) (fromStart toStart : nat)
    (n i : nat) (lastCommonSep : option nat) : nat * option nat :=
  match n with
  | 0 => (i, lastCommonSep)
  | S n' =>
      match String.get (fromStart + i) from, String.get (toStart + i) to with
      | Some a, Some b =>
          if Ascii.eqb a b then
            compareLoop from to fromStart toStart n' (S i)
              (if isBackslash a then Some i else lastCommonSep)
          else (i, lastCommonSep)
      | _, _ => (i, lastCommonSep)
      end
  end.

(** One [..] for every name of [from] from the index [i] to [fromEnd]. *)
Fixpoint upLoop (from : string) (fromEnd : nat) (n i : nat) (out : string)
    : string :=
  match n with
  | 0 => out
  | S n' =>
      upLoop from fromEnd n' (S i)
        (if (i =? fromEnd) || testAt isBackslash from i
         then (if JsString.isEmpty out then ".." else out +:+ "\..")
         else out)
  end.

Section Relative.
Variable cwd : string.
Variable env : string -> option string.

(** The end of [relative], once the last common separator is known. *)
Definition relativeFrom (from toOrig : string)
    (fromStart fromEnd toStart toEnd lastCommonSep : nat) : string :=
  let first := fromStart + lastCommonSep + 1 in
  let out := upLoop from fromEnd (S fromEnd - first) first "" in
  let toStart := toStart + lastCommonSep in
  if negb (JsString.isEmpty out) then out +:+ slice toOrig toStart toEnd
  else
    let toStart :=
      if testAt isBackslash toOrig toStart then S toStart else toStart in
    slice toOrig toStart toEnd.

(** [path.win32.relative(from, to)] *)
Definition relative (from to : string) : string :=
  if String.eqb from to then ""
  else
    let fromOrig := resolve cwd env [from] in
    let toOrig := resolve cwd env [to] in
    if String.eqb fromOrig toOrig then ""
    else
      let from := JsString.toLowerCase fromOrig in
      let to := JsString.toLowerCase toOrig in
      if String.eqb from to then ""
      else
        let fromStart := scan isBackslash from 0 in
        let fromEnd := trimEnd from fromStart (String.length from) in
        let fromLen := fromEnd - fromStart in
        let toStart := scan isBackslash to 0 in
        let toEnd := trimEnd to toStart (String.length to) in
        let toLen := toEnd - toStart in
        let length := Nat.min fromLen toLen in
        let '(i, lastCommonSep) :=
          compareLoop from to fromStart toStart length 0 None in
        if negb (i =? length) then
          match lastCommonSep with
          | None => toOrig
          | Some l =>
              relativeFrom from toOrig fromStart fromEnd toStart toEnd l
          end
        else if (length <? toLen) && testAt isBackslash to (toStart + i) then
          sliceFrom toOrig (toStart + i + 1)
        else if (length <? toLen) && (i =? 2) then
          sliceFrom toOrig (toStart + i)
        else
          let lastCommonSep :=
            if length <? fromLen then
              if testAt isBackslash from (fromStart + i) then Some i
              else if i =? 2 then Some 3
              else lastCommonSep
            else lastCommonSep in
          relativeFrom from toOrig fromStart fromEnd toStart toEnd
            (default 0 lastCommonSep).

End Relative.

End Win32.

(* ===================================================================== *)
(** ** [src/fileTree.ts] on a host given by its path functions            *)
(* ===================================================================== *)

(** [buildFileTree] calls [join] and [relative] of [node:path] and nothing
    else of it.  Here the two functions are parameters, so that the
    builder runs on any host; [FileTree.buildFileTree] is the builder with
    the functions of [Path]. *)

Module HostTree.
Import Fs FileTree.

Section OnHost.
Variable join : list string -> string.
Variable relative : string -> string -> string.
Variable localeCompare : string -> string -> Z.

Fixpoint buildFileTree (dirPath basePath : string) (dir : Entry) {struct dir}
    : option (list TreeNode) :=
  match dir with
  | Dir _ true entries =>
      nodes ←
        (fix loop (es : list Entry) : option (list TreeNode) :=
           match es with
           | [] => Some []
           | entry :: es' =>
               if ignored (entryName entry) then loop es'
               else
                 let fullPath := join [dirPath; entryName entry] in
                 let relativePath := relative basePath fullPath in
                 if isDirectory entry then
                   children ← buildFileTree fullPath basePath entry;
                   rest ← loop es';
                   Some
                     (if (0 <? length children) || hasMarkdownFiles children
                      then Node (entryName entry) relativePath directory
                             (Some children) :: rest
                      else rest)
                 else if isFile entry && isMarkdownFile (entryName entry) then
                   rest ← loop es';
                   Some (Node (entryName entry) relativePath file None :: rest)
                 else loop es'
           end) entries;
      Some (sort (compareNodes localeCompare) nodes)
  | _ => None
  end.

End OnHost.

End HostTree.

(* ===================================================================== *)
(** * Properties                                                          *)
(* ===================================================================== *)

(** ** Strings *)

Module StringFacts.

Lemma append_cons (c : ascii) (s t : string) :
  String c s +:+ t = String c (s +:+ t).
Proof. reflexivity. Qed.

Lemma append_nil_l (s : string) : EmptyString +:+ s = s.
Proof. reflexivity. Qed.

Lemma append_nil_r (s : string) : s +:+ EmptyString = s.
Proof.
  induction s as [|c s IH]; [reflexivity|].
  now rewrite append_cons, IH.
Qed.

Lemma append_assoc (a b c : string) : (a +:+ b) +:+ c = a +:+ (b +:+ c).
Proof.
  induction a as [|x a IH]; [reflexivity|].
  now rewrite !append_cons, IH.
Qed.

Lemma length_append (a b : string) :
  String.length (a +:+ b) = String.length a + String.length b.
Proof.
  induction a as [|x a IH]; [reflexivity|].
  rewrite append_cons. simpl. now rewrite IH.
Qed.

(** [piece] occurs in [s]. *)
Definition occursIn (piece s : string) : Prop :=
  exists before after, s = before +:+ piece +:+ after.

Lemma occursIn_refl (s : string) : occursIn s s.
Proof. exists EmptyString, EmptyString. now rewrite append_nil_l, append_nil_r. Qed.

Lemma occursIn_app_l (piece a b : string) :
  occursIn piece a -> occursIn piece (a +:+ b).
Proof.
  intros (x & y & ->). exists x, (y +:+ b).
  now rewrite !append_assoc.
Qed.

Lemma occursIn_app_r (piece a b : string) :
  occursIn piece b -> occursIn piece (a +:+ b).
Proof.
  intros (x & y & ->). exists (a +:+ x), y.
  now rewrite !append_assoc.
Qed.

(** *** Prefixes, suffixes and reversal *)

Lemma startsWith_spec (s p : string) :
  JsString.startsWith s p = true <-> exists t, s = p +:+ t.
Proof.
  revert s. induction p as [|b p IH]; intros s; simpl.
  - split; [intros _; now exists s|reflexivity].
  - destruct s as [|a s].
    + split; [discriminate|]. intros [t Ht]. discriminate Ht.
    + rewrite andb_true_iff, IH. split.
      * intros [Hab [t ->]]. apply Ascii.eqb_eq in Hab. subst b.
        now exists t.
      * intros [t Ht]. rewrite append_cons in Ht. injection Ht as -> ->.
        split; [apply Ascii.eqb_refl|now exists t].
Qed.

Lemma rev_app_append (s acc : string) :
  String.rev_app s acc = String.rev_app s EmptyString +:+ acc.
Proof.
  revert acc. induction s as [|c s IH]; intros acc; simpl; [reflexivity|].
  rewrite IH, (IH (String c EmptyString)), append_assoc. reflexivity.
Qed.

Lemma rev_cons (c : ascii) (s : string) :
  JsString.rev (String c s) = JsString.rev s +:+ String c EmptyString.
Proof. unfold JsString.rev, String.rev. simpl. apply rev_app_append. Qed.

Lemma rev_append (a b : string) :
  JsString.rev (a +:+ b) = JsString.rev b +:+ JsString.rev a.
Proof.
  induction a as [|c a IH].
  - rewrite append_nil_l. symmetry. apply append_nil_r.
  - rewrite append_cons, !rev_cons, IH, append_assoc. reflexivity.
Qed.

Lemma rev_involutive (s : string) : JsString.rev (JsString.rev s) = s.
Proof.
  induction s as [|c s IH]; [reflexivity|].
  rewrite rev_cons, rev_append, IH. reflexivity.
Qed.

Lemma endsWith_spec (s p : string) :
  JsString.endsWith s p = true <-> exists t, s = t +:+ p.
Proof.
  unfold JsString.endsWith. rewrite startsWith_spec. split.
  - intros [t Ht]. exists (JsString.rev t).
    rewrite <- (rev_involutive s), Ht, rev_append, rev_involutive.
    reflexivity.
  - intros [t ->]. exists (JsString.rev t). apply rev_append.
Qed.

Lemma toLowerCase_append (a b : string) :
  JsString.toLowerCase (a +:+ b) =
  JsString.toLowerCase a +:+ JsString.toLowerCase b.
Proof.
  induction a as [|c a IH]; [reflexivity|].
  rewrite append_cons. simpl. rewrite IH. reflexivity.
Qed.

Lemma toLowerCase_split (s a b : string) :
  JsString.toLowerCase s = a +:+ b ->
  exists s1 s2,
    s = s1 +:+ s2 /\ JsString.toLowerCase s1 = a /\
    JsString.toLowerCase s2 = b.
Proof.
  revert s. induction a as [|x a IH]; intros s H.
  - exists EmptyString, s. repeat split. exact H.
  - destruct s as [|c s]; [discriminate H|].
    rewrite append_cons in H. simpl in H. injection H as Hx Hs.
    destruct (IH s Hs) as (s1 & s2 & -> & H1 & H2).
    exists (String c s1), s2. repeat split; [|exact H2].
    simpl. now rewrite Hx, H1.
Qed.

End StringFacts.

(** ** The renderer ([src/markdown.ts]) *)

Module MarkdownFacts.
Import Markdown StringFacts.

(** Induction on tokens, with the hypothesis for the children of a block. *)
Section TokenInduction.
Variable P : Token -> Prop.
Hypothesis Hcode : forall text lang, P (TCode text lang).
Hypothesis Hheading : forall text depth, P (THeading text depth).
Hypothesis Hblock : forall o c ts, Forall P ts -> P (TBlock o c ts).
Hypothesis Hhtml : forall html, P (THtml html).

Fixpoint Token_ind' (t : Token) : P t :=
  match t with
  | TCode text lang => Hcode text lang
  | THeading text depth => Hheading text depth
  | TBlock o c ts =>
      Hblock o c ts
        ((fix all (ts : list Token) : Forall P ts :=
            match ts with
            | [] => @List.Forall_nil _ P
            | t0 :: ts0 => @List.Forall_cons _ P t0 ts0 (Token_ind' t0) (all ts0)
            end) ts)
  | THtml html => Hhtml html
  end.

End TokenInduction.

(** The headings of a document, in document order: what the spec calls the
    headings of the input. *)
Fixpoint tokenHeadings (t : Token) : list Heading :=
  match t with
  | THeading text depth =>
      [{| level := depth; text := text; id := slug text |}]
  | TBlock _ _ ts => flat_map tokenHeadings ts
  | _ => []
  end.

Definition documentHeadings (ts : list Token) : list Heading :=
  flat_map tokenHeadings ts.

(** The tokens of a document, at any depth. *)
Fixpoint subtokens (t : Token) : list Token :=
  t :: match t with
       | TBlock _ _ ts => flat_map subtokens ts
       | _ => []
       end.

Definition documentTokens (ts : list Token) : list Token :=
  flat_map subtokens ts.

(** A store in which the module has been loaded: the global array has been
    allocated, so that a new reference is another one. *)
Definition wellFormed (st : Store) : Prop := headingsRef < nextRef st.

Lemma readArray_truncate r st : readArray (truncate r st) r = [].
Proof. unfold readArray, truncate. simpl. now rewrite lookup_insert_eq. Qed.

Lemma readArray_push r h st :
  readArray (push r h st) r = readArray st r ++ [h].
Proof. unfold readArray at 1, push. simpl. now rewrite lookup_insert_eq. Qed.

(** The block branch of [renderToken] is [renderTokens]. *)
Lemma renderToken_block hljs o c ts st :
  renderToken hljs (TBlock o c ts) st =
  let '(body, st') := renderTokens hljs ts st in (o +:+ body +:+ c, st').
Proof.
  simpl. f_equal.
Qed.

Lemma renderTokens_cons hljs t ts st :
  renderTokens hljs (t :: ts) st =
  let '(h, st1) := renderToken hljs t st in
  let '(hs, st2) := renderTokens hljs ts st1 in
  (h +:+ hs, st2).
Proof. reflexivity. Qed.

(** What rendering does to the store: the headings of the tokens are
    appended to the global array, and nothing else changes. *)
Definition appends (hs : list Heading) (st st' : Store) : Prop :=
  readArray st' headingsRef = readArray st headingsRef ++ hs /\
  (forall r, r <> headingsRef -> arrays st' !! r = arrays st !! r) /\
  nextRef st' = nextRef st.

Lemma appends_nil st : appends [] st st.
Proof. unfold appends. now rewrite app_nil_r. Qed.

Lemma appends_trans hs1 hs2 st1 st2 st3 :
  appends hs1 st1 st2 -> appends hs2 st2 st3 -> appends (hs1 ++ hs2) st1 st3.
Proof.
  intros (H1 & H2 & H3) (K1 & K2 & K3). repeat split.
  - now rewrite K1, H1, <- List.app_assoc.
  - intros r Hr. now rewrite K2, H2.
  - congruence.
Qed.

Lemma appends_push h st : appends [h] st (push headingsRef h st).
Proof.
  repeat split.
  - apply readArray_push.
  - intros r Hr. unfold push. simpl. now rewrite lookup_insert_ne.
Qed.

Lemma renderToken_appends hljs t :
  forall st, appends (tokenHeadings t) st (snd (renderToken hljs t st)).
Proof.
  induction t as [text lang|text depth|o c ts IH|html] using Token_ind';
    intros st.
  - apply appends_nil.
  - apply appends_push.
  - rewrite renderToken_block. simpl tokenHeadings.
    assert (H : appends (flat_map tokenHeadings ts) st
                  (snd (renderTokens hljs ts st))).
    { revert st. induction IH as [|t ts Ht _ IHts]; intros st.
      - apply appends_nil.
      - rewrite renderTokens_cons. simpl flat_map.
        specialize (Ht st). destruct (renderToken hljs t st) as [h st1].
        specialize (IHts st1).
        destruct (renderTokens hljs ts st1) as [hs st2].
        eapply appends_trans; eassumption. }
    destruct (renderTokens hljs ts st) as [body st']. exact H.
  - apply appends_nil.
Qed.

Lemma renderTokens_appends hljs ts :
  forall st, appends (documentHeadings ts) st (snd (renderTokens hljs ts st)).
Proof.
  induction ts as [|t ts IH]; intros st.
  - apply appends_nil.
  - rewrite renderTokens_cons. unfold documentHeadings. simpl flat_map.
    pose proof (renderToken_appends hljs t st) as Ht.
    destruct (renderToken hljs t st) as [h st1].
    specialize (IH st1). destruct (renderTokens hljs ts st1) as [hs st2].
    eapply appends_trans; eassumption.
Qed.

(** The result of a call: the array returned holds the headings of the
    document, whatever the global array held before. *)
Lemma parseMarkdown_result hljs lexer content st :
  let '((_, copy), st') := parseMarkdown hljs lexer content st in
  copy = nextRef st /\
  nextRef st' = S (nextRef st) /\
  readArray st' copy = documentHeadings (lexer content) /\
  (forall r, r <> headingsRef -> r <> copy ->
     arrays st' !! r = arrays st !! r).
Proof.
  unfold parseMarkdown, marked_parse.
  pose proof (renderTokens_appends hljs (lexer content)
                (truncate headingsRef st)) as (H1 & H2 & H3).
  destruct (renderTokens hljs (lexer content) (truncate headingsRef st))
    as [html st1].
  simpl in H1, H2, H3. rewrite readArray_truncate in H1. simpl in H1.
  unfold spread. rewrite H3. simpl. repeat split.
  - unfold readArray at 1. simpl. rewrite lookup_insert_eq. exact H1.
  - intros r Hr Hc. simpl. rewrite lookup_insert_ne by congruence.
    rewrite H2 by exact Hr. unfold truncate. simpl.
    now rewrite lookup_insert_ne by congruence.
Qed.

(** Every heading recorded by either path has the id computed from its
    text. *)
Lemma tokenHeadings_slug t :
  Forall (fun h => id h = slug (text h)) (tokenHeadings t).
Proof.
  induction t as [text lang|text depth|o c ts IH|html] using Token_ind';
    simpl; try constructor; try reflexivity; try constructor.
  induction IH as [|t ts Ht _ IHts]; simpl.
  - constructor.
  - apply Forall_app. split; assumption.
Qed.

Lemma documentHeadings_slug ts :
  Forall (fun h => id h = slug (text h)) (documentHeadings ts).
Proof.
  induction ts as [|t ts IH]; unfold documentHeadings; simpl.
  - constructor.
  - apply Forall_app. split; [apply tokenHeadings_slug | exact IH].
Qed.

Lemma execLoop_slug s :
  forall skip atLineStart,
    Forall (fun h => id h = slug (text h)) (execLoop skip atLineStart s).
Proof.
  induction s as [|c s IH]; intros skip atLineStart; simpl.
  - constructor.
  - destruct skip as [|k]; [|apply IH].
    destruct atLineStart; [|apply IH].
    destruct (matchHeadingAt (String c s)) as [[[n group2] len]|];
      [|apply IH].
    constructor; [reflexivity | apply IH].
Qed.

Lemma parsedHeadings_spec hljs lexer content st :
  parsedHeadings hljs lexer content st = documentHeadings (lexer content).
Proof.
  unfold parsedHeadings.
  pose proof (parseMarkdown_result hljs lexer content st) as H.
  destruct (parseMarkdown hljs lexer content st) as [[html copy] st'].
  tauto.
Qed.

(** The container of a diagram: the body between the tags, as it is. *)
Definition mermaidContainer (body : string) : string :=
  "<div class=" +:+ quote +:+ "mermaid" +:+ quote +:+ ">"
    +:+ body +:+ "</div>".

Lemma renderToken_occurs hljs body t :
  forall st,
    In (TCode body (Some "mermaid")) (subtokens t) ->
    occursIn (mermaidContainer body) (fst (renderToken hljs t st)).
Proof.
  induction t as [text lang|text depth|o c ts IH|html] using Token_ind';
    intros st Hin.
  - destruct Hin as [Heq|[]]. injection Heq as -> ->.
    exact (occursIn_refl (mermaidContainer body)).
  - destruct Hin as [Heq|[]]. discriminate.
  - destruct Hin as [Heq|Hin]; [discriminate|].
    rewrite renderToken_block.
    assert (H : occursIn (mermaidContainer body)
                  (fst (renderTokens hljs ts st))).
    { revert st Hin. induction IH as [|t ts Ht _ IHts]; intros st Hin.
      - destruct Hin.
      - rewrite renderTokens_cons. simpl in Hin.
        apply in_app_or in Hin. specialize (Ht st).
        destruct (renderToken hljs t st) as [h st1].
        specialize (IHts st1).
        destruct (renderTokens hljs ts st1) as [hs st2]. simpl in *.
        destruct Hin as [Hin|Hin].
        + apply occursIn_app_l. auto.
        + apply occursIn_app_r. auto. }
    destruct (renderTokens hljs ts st) as [bodyHtml st']. simpl in *.
    apply occursIn_app_r, occursIn_app_l. exact H.
  - destruct Hin as [Heq|[]]. discriminate.
Qed.

Lemma renderTokens_occurs hljs body ts :
  forall st,
    In (TCode body (Some "mermaid")) (documentTokens ts) ->
    occursIn (mermaidContainer body) (fst (renderTokens hljs ts st)).
Proof.
  induction ts as [|t ts IH]; intros st Hin.
  - destruct Hin.
  - rewrite renderTokens_cons. unfold documentTokens in Hin. simpl in Hin.
    apply in_app_or in Hin.
    pose proof (renderToken_occurs hljs body t st) as Ht.
    destruct (renderToken hljs t st) as [h st1].
    specialize (IH st1).
    destruct (renderTokens hljs ts st1) as [hs st2]. simpl in *.
    destruct Hin as [Hin|Hin].
    + apply occursIn_app_l. auto.
    + apply occursIn_app_r. auto.
Qed.

(** A document with a diagram, and two documents with one heading each. *)
Definition diagramBody : string := "graph TD" +:+ Sample.newline +:+ "A-->B".

Definition diagramDocument : string :=
  "```mermaid" +:+ Sample.newline +:+ diagramBody +:+ Sample.newline
    +:+ "```".

Definition firstDocument : string := "# First".
Definition secondDocument : string := "# Second".

(** C3.  Whatever the two inputs, a heading returned by [parseMarkdown] and
    a heading returned by [extractHeadings] that have the same text have the
    same id: both paths compute the id from the text in the same way. *)
Theorem heading_paths_agree_on_ids hljs lexer content1 content2 st h1 h2 :
  In h1 (parsedHeadings hljs lexer content1 st) ->
  In h2 (extractHeadings content2) ->
  text h1 = text h2 ->
  id h1 = id h2.
Proof.
  intros H1 H2 Htext.
  rewrite parsedHeadings_spec in H1.
  pose proof (documentHeadings_slug (lexer content1)) as F1.
  pose proof (execLoop_slug content2 0 true) as F2.
  rewrite List.Forall_forall in F1, F2.
  rewrite (F1 h1 H1), (F2 h2 H2). now rewrite Htext.
Qed.

Lemma heading_paths_agree_on_ids_witness :
  let h := {| level := 1; text := "Second"; id := "second" |} in
  In h (parsedHeadings Sample.hljs Sample.lexer secondDocument initialStore)
  /\ In h (extractHeadings secondDocument)
  /\ id h = id h.
Proof.
  intros h.
  assert (H1 : In h (parsedHeadings Sample.hljs Sample.lexer secondDocument
                       initialStore)) by (vm_compute; left; reflexivity).
  assert (H2 : In h (extractHeadings secondDocument))
    by (vm_compute; left; reflexivity).
  split; [exact H1|]. split; [exact H2|].
  exact (heading_paths_agree_on_ids Sample.hljs Sample.lexer secondDocument
           secondDocument initialStore h h H1 H2 eq_refl).
Defined.

(** C6.  After two consecutive calls of [parseMarkdown], the array returned
    by the second call holds exactly the headings of the second input, in
    document order; and the array returned by the first call is another
    array, which still holds the headings of the first input. *)
Theorem second_call_returns_only_its_headings hljs lexer content1 content2 st :
  wellFormed st ->
  let '((_, copy1), st1) := parseMarkdown hljs lexer content1 st in
  let '((_, copy2), st2) := parseMarkdown hljs lexer content2 st1 in
  readArray st2 copy2 = documentHeadings (lexer content2) /\
  copy1 <> copy2 /\ copy1 <> headingsRef /\ copy2 <> headingsRef /\
  readArray st2 copy1 = documentHeadings (lexer content1).
Proof.
  unfold wellFormed. intros Hwf.
  pose proof (parseMarkdown_result hljs lexer content1 st) as H1.
  destruct (parseMarkdown hljs lexer content1 st) as [[html1 copy1] st1].
  destruct H1 as (Hc1 & Hn1 & Hr1 & _).
  pose proof (parseMarkdown_result hljs lexer content2 st1) as H2.
  destruct (parseMarkdown hljs lexer content2 st1) as [[html2 copy2] st2].
  destruct H2 as (Hc2 & Hn2 & Hr2 & Hk2).
  assert (Hne : copy1 <> copy2) by lia.
  assert (Hg1 : copy1 <> headingsRef) by lia.
  assert (Hg2 : copy2 <> headingsRef) by lia.
  repeat split; try assumption.
  unfold readArray in *. now rewrite Hk2.
Qed.

Lemma second_call_returns_only_its_headings_witness :
  wellFormed initialStore /\
  let '((_, copy1), st1) :=
    parseMarkdown Sample.hljs Sample.lexer firstDocument initialStore in
  let '((_, copy2), st2) :=
    parseMarkdown Sample.hljs Sample.lexer secondDocument st1 in
  readArray st2 copy2 = documentHeadings (Sample.lexer secondDocument) /\
  copy1 <> copy2 /\ copy1 <> headingsRef /\ copy2 <> headingsRef /\
  readArray st2 copy1 = documentHeadings (Sample.lexer firstDocument).
Proof.
  assert (Hwf : wellFormed initialStore) by (unfold wellFormed, headingsRef; simpl; lia).
  split; [exact Hwf|].
  exact (second_call_returns_only_its_headings Sample.hljs Sample.lexer
           firstDocument secondDocument initialStore Hwf).
Defined.

(** C8.  When the document holds a fenced block tagged [mermaid], at any
    depth, the markup returned by [parseMarkdown] holds the container with
    the body of the block as it is, whatever the highlighter: no
    highlighting is applied to it. *)
Theorem mermaid_block_is_emitted_verbatim hljs lexer content body st :
  In (TCode body (Some "mermaid")) (documentTokens (lexer content)) ->
  occursIn (mermaidContainer body)
           (fst (fst (parseMarkdown hljs lexer content st))).
Proof.
  intros Hin. unfold parseMarkdown, marked_parse.
  pose proof (renderTokens_occurs hljs body (lexer content)
                (truncate headingsRef st) Hin) as H.
  destruct (renderTokens hljs (lexer content) (truncate headingsRef st))
    as [html st1].
  exact H.
Qed.

Lemma mermaid_block_is_emitted_verbatim_witness :
  In (TCode diagramBody (Some "mermaid"))
     (documentTokens (Sample.lexer diagramDocument)) /\
  occursIn (mermaidContainer diagramBody)
           (fst (fst (parseMarkdown Sample.hljs Sample.lexer diagramDocument
                        initialStore))).
Proof.
  assert (Hin : In (TCode diagramBody (Some "mermaid"))
                   (documentTokens (Sample.lexer diagramDocument)))
    by (vm_compute; left; reflexivity).
  split; [exact Hin|].
  exact (mermaid_block_is_emitted_verbatim Sample.hljs Sample.lexer
           diagramDocument diagramBody initialStore Hin).
Defined.

End MarkdownFacts.

(** ** The notification channel ([src/routes/sse.ts]) *)

Module SseFacts.
Import Watcher Sse.

(** The change events written to connection [c], oldest first: one for
    every call of its listener. *)
Definition eventOf (m : Message) : list FileChangeEvent :=
  match m with
  | FileChange event => [event]
  | _ => []
  end.

Definition deliveries (c : nat) (st : State) : list FileChangeEvent :=
  flat_map eventOf (received c st).

(** The acknowledgement comes first, and once. *)
Definition acknowledgedFirst (ms : list Message) : Prop :=
  exists rest, ms = Connected :: rest /\ ~ In Connected rest.

Section Channel.
Variable conv : Path.Convention.
Variable cwd : string.
Variable watcher : option string.

(** What the watcher emits for a report of the watch: nothing without a
    watcher, nothing for a file that is not Markdown. *)
Definition emitted (type : ChangeType) (filePath : string)
    : list FileChangeEvent :=
  match watcher with
  | Some basePath =>
      match handleEvent conv cwd basePath type filePath with
      | Some event => [event]
      | None => []
      end
  | None => []
  end.

(** The events the watcher emits while connection [c] is open, read off the
    sequence of steps: [next] is the number the next connection gets,
    [isOpen] tells that [c] is connected and not yet closed. *)
Fixpoint emittedWhileOpen (c next : nat) (isOpen : bool) (steps : list Step)
    : list FileChangeEvent :=
  match steps with
  | [] => []
  | Connect :: rest =>
      emittedWhileOpen c (S next) (isOpen || (next =? c)) rest
  | FsEvent type filePath :: rest =>
      (if isOpen then emitted type filePath else [])
        ++ emittedWhileOpen c next isOpen rest
  | Tick _ :: rest => emittedWhileOpen c next isOpen rest
  | Close c' :: rest =>
      emittedWhileOpen c next (isOpen && negb (c' =? c)) rest
  end.

(** The listeners and timers belong to connections that exist, and no
    listener is registered twice. *)
Definition consistent (st : State) : Prop :=
  NoDup (listeners st) /\
  Forall (fun x => x < nextConnection st) (listeners st) /\
  Forall (fun x => x < nextConnection st) (heartbeats st).

Lemma received_write c c' m st :
  received c (write c' m st) =
  received c st ++ (if c' =? c then [m] else []).
Proof.
  unfold received, write. simpl.
  rewrite List.filter_app, List.map_app. simpl.
  destruct (c' =? c); reflexivity.
Qed.

Lemma deliveries_app_received c st st' ms :
  received c st' = received c st ++ ms ->
  deliveries c st' = deliveries c st ++ flat_map eventOf ms.
Proof. unfold deliveries. intros ->. apply List.flat_map_app. Qed.

(** A broadcast to the listeners [l]. *)
Definition broadcast (event : FileChangeEvent) (l : list nat) (st : State)
    : State :=
  fold_left (fun st c => write c (FileChange event) st) l st.

Lemma broadcast_frame event l :
  forall st,
    listeners (broadcast event l st) = listeners st /\
    heartbeats (broadcast event l st) = heartbeats st /\
    nextConnection (broadcast event l st) = nextConnection st.
Proof.
  induction l as [|x l IH]; intros st; simpl; [tauto|].
  destruct (IH (write x (FileChange event) st)) as (H1 & H2 & H3).
  unfold broadcast in *. rewrite H1, H2, H3. tauto.
Qed.

Lemma broadcast_received event c l :
  forall st,
    received c (broadcast event l st) =
    received c st
      ++ List.map (fun _ => FileChange event)
           (List.filter (fun x => x =? c) l).
Proof.
  induction l as [|x l IH]; intros st; simpl.
  - now rewrite List.app_nil_r.
  - unfold broadcast in *. simpl. rewrite IH, received_write.
    rewrite <- List.app_assoc. destruct (x =? c); reflexivity.
Qed.

Lemma filter_eq_NoDup c (l : list nat) :
  NoDup l ->
  List.filter (fun x => x =? c) l = if existsb (Nat.eqb c) l then [c] else [].
Proof.
  induction 1 as [|x l Hx Hl IH]; simpl; [reflexivity|].
  rewrite IH. rewrite (Nat.eqb_sym c x).
  destruct (x =? c) eqn:E.
  - apply Nat.eqb_eq in E. subst x.
    destruct (existsb (Nat.eqb c) l) eqn:E'; [|reflexivity].
    exfalso. apply Hx. apply existsb_exists in E' as (y & Hy & Hc).
    apply Nat.eqb_eq in Hc. subst y. apply list_elem_of_In. exact Hy.
  - reflexivity.
Qed.

Lemma removeLast_NoDup c (l : list nat) :
  NoDup l -> removeLast c l = List.filter (fun x => negb (x =? c)) l.
Proof.
  induction 1 as [|x l Hx Hl IH]; simpl; [reflexivity|].
  destruct (x =? c) eqn:E; simpl.
  - apply Nat.eqb_eq in E. subst x.
    assert (Hn : existsb (Nat.eqb c) l = false).
    { destruct (existsb (Nat.eqb c) l) eqn:E'; [|reflexivity].
      exfalso. apply Hx. apply existsb_exists in E' as (y & Hy & Hc).
      apply Nat.eqb_eq in Hc. subst y. apply list_elem_of_In. exact Hy. }
    rewrite Hn. simpl. symmetry. apply forallb_filter_id.
    apply forallb_forall. intros y Hy. apply negb_true_iff, Nat.eqb_neq.
    intros ->. apply Hx, list_elem_of_In, Hy.
  - now rewrite IH.
Qed.

Lemma existsb_filter_ne c c' (l : list nat) :
  existsb (Nat.eqb c) (List.filter (fun x => negb (x =? c')) l) =
  existsb (Nat.eqb c) l && negb (c' =? c).
Proof.
  induction l as [|x l IH]; simpl; [reflexivity|].
  destruct (Nat.eqb_spec x c') as [->|Hx]; simpl; rewrite IH.
  - destruct (Nat.eqb_spec c c') as [->|Hc]; simpl.
    + rewrite Nat.eqb_refl. simpl. now rewrite andb_false_r.
    + reflexivity.
  - destruct (Nat.eqb_spec c x) as [->|Hc]; simpl; [|reflexivity].
    destruct (Nat.eqb_spec c' x) as [->|Hc']; [congruence|reflexivity].
Qed.

Lemma NoDup_List_filter (f : nat -> bool) (l : list nat) :
  NoDup l -> NoDup (List.filter f l).
Proof.
  induction 1 as [|x l Hx Hl IH]; simpl; [constructor|].
  destruct (f x); [|exact IH].
  constructor; [|exact IH].
  intros Hin. apply Hx. apply list_elem_of_In.
  apply list_elem_of_In in Hin. apply List.filter_In in Hin. tauto.
Qed.

Lemma consistent_step st s :
  consistent st -> consistent (step conv cwd watcher st s).
Proof.
  intros (Hnd & Hl & Hh). destruct s as [|type filePath|c|c]; simpl.
  - unfold consistent. simpl. repeat split.
    + destruct watcher; [|exact Hnd].
      apply NoDup_app. repeat split; [exact Hnd| |apply NoDup_singleton].
      intros x Hx Hx'. apply list_elem_of_singleton in Hx'. subst x.
      rewrite List.Forall_forall in Hl.
      apply list_elem_of_In, Hl in Hx. lia.
    + assert (Hl' : Forall (fun x => x < S (nextConnection st))
                      (listeners st)).
      { eapply List.Forall_impl; [|exact Hl]. simpl. lia. }
      destruct watcher; [|exact Hl'].
      apply Forall_app. split; [exact Hl'|]. repeat constructor.
    + apply Forall_app. split; [|repeat constructor].
      eapply List.Forall_impl; [|exact Hh]. simpl. lia.
  - destruct watcher as [basePath|]; [|repeat split; assumption].
    destruct (handleEvent conv cwd basePath type filePath) as [event|];
      [|repeat split; assumption].
    unfold consistent, emit.
    destruct (broadcast_frame event (listeners st) st) as (H1 & H2 & H3).
    unfold broadcast in *. rewrite H1, H2, H3. repeat split; assumption.
  - destruct (existsb (Nat.eqb c) (heartbeats st));
      repeat split; assumption.
  - unfold consistent. simpl. repeat split.
    + destruct watcher; [|exact Hnd].
      rewrite removeLast_NoDup by exact Hnd.
      apply NoDup_List_filter. exact Hnd.
    + destruct watcher; [|exact Hl].
      rewrite removeLast_NoDup by exact Hnd.
      apply List.Forall_forall. intros x Hx.
      apply List.filter_In in Hx as [Hx _].
      rewrite List.Forall_forall in Hl. auto.
    + apply List.Forall_forall. intros x Hx.
      apply List.filter_In in Hx as [Hx _].
      rewrite List.Forall_forall in Hh. auto.
Qed.

Lemma consistent_initial : consistent initial.
Proof. repeat split; constructor. Qed.

Lemma consistent_run steps :
  forall st, consistent st -> consistent (run conv cwd watcher steps st).
Proof.
  induction steps as [|s steps IH]; intros st H; [exact H|].
  apply IH, consistent_step, H.
Qed.

Lemma run_cons s steps st :
  run conv cwd watcher (s :: steps) st =
  run conv cwd watcher steps (step conv cwd watcher st s).
Proof. reflexivity. Qed.

Lemma emit_received event c st :
  NoDup (listeners st) ->
  received c (emit event st) =
  received c st
    ++ (if existsb (Nat.eqb c) (listeners st) then [FileChange event] else []).
Proof.
  intros Hnd. unfold emit.
  pose proof (broadcast_received event c (listeners st) st) as H.
  unfold broadcast in H. rewrite H, filter_eq_NoDup by exact Hnd.
  destruct (existsb (Nat.eqb c) (listeners st)); reflexivity.
Qed.

Lemma emit_frame event st :
  listeners (emit event st) = listeners st /\
  heartbeats (emit event st) = heartbeats st /\
  nextConnection (emit event st) = nextConnection st.
Proof. apply (broadcast_frame event (listeners st) st). Qed.

(** What one step writes to connection [c]. *)
Definition writtenBy (c : nat) (st : State) (s : Step) : list Message :=
  match s with
  | Connect => if nextConnection st =? c then [Connected] else []
  | FsEvent type filePath =>
      if existsb (Nat.eqb c) (listeners st)
      then List.map FileChange (emitted type filePath)
      else []
  | Tick c' =>
      if existsb (Nat.eqb c') (heartbeats st) && (c' =? c)
      then [Heartbeat] else []
  | Close _ => []
  end.

Lemma step_received c st s :
  consistent st ->
  received c (step conv cwd watcher st s) =
  received c st ++ writtenBy c st s.
Proof.
  intros (Hnd & Hl & Hh). destruct s as [|type filePath|c'|c']; simpl.
  - change (received c (write (nextConnection st) Connected st) =
            received c st
              ++ (if nextConnection st =? c then [Connected] else [])).
    apply received_write.
  - unfold emitted. destruct watcher as [basePath|].
    + destruct (handleEvent conv cwd basePath type filePath) as [event|].
      * rewrite emit_received by exact Hnd.
        destruct (existsb (Nat.eqb c) (listeners st)); reflexivity.
      * destruct (existsb (Nat.eqb c) (listeners st));
          now rewrite List.app_nil_r.
    + destruct (existsb (Nat.eqb c) (listeners st));
        now rewrite List.app_nil_r.
  - destruct (existsb (Nat.eqb c') (heartbeats st)); simpl.
    + apply received_write.
    + now rewrite List.app_nil_r.
  - unfold received. simpl. now rewrite List.app_nil_r.
Qed.

(** A connection that exists and has neither listener nor timer is written
    to no more. *)
Lemma closed_stays_silent c steps :
  forall st,
    consistent st ->
    c < nextConnection st ->
    existsb (Nat.eqb c) (listeners st) = false ->
    existsb (Nat.eqb c) (heartbeats st) = false ->
    received c (run conv cwd watcher steps st) = received c st.
Proof.
  induction steps as [|s steps IH]; intros st Hc Hlt Hl Hh; [reflexivity|].
  rewrite run_cons.
  assert (Hw : writtenBy c st s = []).
  { destruct s as [|type filePath|c'|c']; simpl.
    - destruct (Nat.eqb_spec (nextConnection st) c); [lia|reflexivity].
    - now rewrite Hl.
    - destruct (Nat.eqb_spec c' c) as [->|Hne].
      + rewrite Hh. reflexivity.
      + now rewrite andb_false_r.
    - reflexivity. }
  rewrite IH.
  - rewrite step_received by exact Hc. rewrite Hw. apply List.app_nil_r.
  - apply consistent_step, Hc.
  - destruct s as [|type filePath|c'|c']; simpl; try lia.
    + destruct watcher as [basePath|]; [|exact Hlt].
      destruct (handleEvent conv cwd basePath type filePath) as [event|];
        [|exact Hlt].
      destruct (emit_frame event st) as (_ & _ & ->). exact Hlt.
    + destruct (existsb (Nat.eqb c') (heartbeats st)); exact Hlt.
  - destruct s as [|type filePath|c'|c']; simpl.
    + destruct watcher; [|exact Hl].
      rewrite existsb_app, Hl. simpl.
      destruct (Nat.eqb_spec c (nextConnection st)); [lia|reflexivity].
    + destruct watcher as [basePath|]; [|exact Hl].
      destruct (handleEvent conv cwd basePath type filePath) as [event|];
        [|exact Hl].
      destruct (emit_frame event st) as (-> & _ & _). exact Hl.
    + destruct (existsb (Nat.eqb c') (heartbeats st)); exact Hl.
    + destruct watcher; [|exact Hl].
      destruct Hc as (Hnd & _ & _).
      rewrite removeLast_NoDup by exact Hnd.
      rewrite existsb_filter_ne, Hl. reflexivity.
  - destruct s as [|type filePath|c'|c']; simpl.
    + rewrite existsb_app, Hh. simpl.
      destruct (Nat.eqb_spec c (nextConnection st)); [lia|reflexivity].
    + destruct watcher as [basePath|]; [|exact Hh].
      destruct (handleEvent conv cwd basePath type filePath) as [event|];
        [|exact Hh].
      destruct (emit_frame event st) as (_ & -> & _). exact Hh.
    + destruct (existsb (Nat.eqb c') (heartbeats st)); exact Hh.
    + rewrite existsb_filter_ne, Hh. reflexivity.
Qed.

Lemma existsb_below c (l : list nat) n :
  Forall (fun x => x < n) l -> n <= c -> existsb (Nat.eqb c) l = false.
Proof.
  intros Hl Hc. destruct (existsb (Nat.eqb c) l) eqn:E; [|reflexivity].
  apply existsb_exists in E as (y & Hy & He). apply Nat.eqb_eq in He.
  subst y. rewrite List.Forall_forall in Hl. apply Hl in Hy. lia.
Qed.

Lemma nextConnection_step st s :
  nextConnection (step conv cwd watcher st s) =
  match s with Connect => S (nextConnection st) | _ => nextConnection st end.
Proof.
  destruct s as [|type filePath|c'|c']; simpl; try reflexivity.
  - destruct watcher as [basePath|]; [|reflexivity].
    destruct (handleEvent conv cwd basePath type filePath) as [event|];
      [|reflexivity].
    now destruct (emit_frame event st) as (_ & _ & ->).
  - now destruct (existsb (Nat.eqb c') (heartbeats st)).
Qed.

(** Every connection that exists was acknowledged first; nothing is written
    to a connection before it exists. *)
Definition acknowledged (st : State) : Prop :=
  forall c,
    (c < nextConnection st -> acknowledgedFirst (received c st)) /\
    (nextConnection st <= c -> received c st = []).

Lemma acknowledged_step st s :
  consistent st -> acknowledged st ->
  acknowledged (step conv cwd watcher st s).
Proof.
  intros Hc Hack c. destruct (Hack c) as [Hold Hnew].
  rewrite step_received by exact Hc. rewrite nextConnection_step.
  destruct Hc as (Hnd & Hl & Hh).
  destruct s as [|type filePath|c'|c']; simpl.
  - destruct (Nat.eqb_spec (nextConnection st) c) as [<-|Hne].
    + split; [|lia]. intros _. rewrite Hnew by lia.
      exists []. split; [reflexivity|]. intros [].
    + rewrite List.app_nil_r. split; intros H; [apply Hold|apply Hnew]; lia.
  - split.
    + intros Hlt. destruct (Hold Hlt) as (rest & -> & Hrest).
      eexists. split; [reflexivity|]. intros Hin.
      apply List.in_app_or in Hin as [Hin|Hin]; [tauto|].
      destruct (existsb (Nat.eqb c) (listeners st)); [|destruct Hin].
      apply List.in_map_iff in Hin as (e & He & _). discriminate.
    + intros Hge. rewrite (existsb_below c _ _ Hl Hge), Hnew by exact Hge.
      reflexivity.
  - split.
    + intros Hlt. destruct (Hold Hlt) as (rest & -> & Hrest).
      eexists. split; [reflexivity|]. intros Hin.
      apply List.in_app_or in Hin as [Hin|Hin]; [tauto|].
      destruct (existsb (Nat.eqb c') (heartbeats st) && (c' =? c));
        [|destruct Hin].
      destruct Hin as [Hin|[]]. discriminate.
    + intros Hge. rewrite Hnew by exact Hge.
      destruct (Nat.eqb_spec c' c) as [->|Hne].
      * now rewrite (existsb_below c _ _ Hh Hge).
      * now rewrite andb_false_r.
  - rewrite List.app_nil_r. split; assumption.
Qed.

Lemma acknowledged_run steps :
  forall st,
    consistent st -> acknowledged st ->
    acknowledged (run conv cwd watcher steps st).
Proof.
  induction steps as [|s steps IH]; intros st Hc Hack; [exact Hack|].
  rewrite run_cons. apply IH.
  - apply consistent_step, Hc.
  - apply acknowledged_step; assumption.
Qed.

Lemma acknowledged_initial : acknowledged initial.
Proof. intros c. split; [simpl; lia | reflexivity]. Qed.

(** The listener of [c] is called for the events emitted while [c] is
    open, in their order: [isOpen] tells that [c] is among the listeners. *)
Lemma run_deliveries c steps :
  forall st isOpen,
    consistent st ->
    (is_Some watcher -> isOpen = existsb (Nat.eqb c) (listeners st)) ->
    deliveries c (run conv cwd watcher steps st) =
    deliveries c st
      ++ emittedWhileOpen c (nextConnection st) isOpen steps.
Proof.
  induction steps as [|s steps IH]; intros st isOpen Hc Hopen.
  - simpl. now rewrite List.app_nil_r.
  - rewrite run_cons.
    assert (Hc' := consistent_step st s Hc).
    pose proof (step_received c st s Hc) as Hr.
    apply deliveries_app_received in Hr.
    pose proof (nextConnection_step st s) as Hn.
    destruct Hc as (Hnd & Hl & Hh).
    destruct s as [|type filePath|c'|c']; simpl emittedWhileOpen.
    + rewrite (IH _ (isOpen || (nextConnection st =? c)) Hc').
      * rewrite Hr, Hn. simpl writtenBy.
        destruct (nextConnection st =? c); simpl;
          now rewrite List.app_nil_r.
      * intros Hw. simpl. destruct watcher; [|destruct Hw as [? [=]]].
        rewrite existsb_app, <- Hopen by exact Hw. simpl.
        now rewrite orb_false_r, Nat.eqb_sym.
    + rewrite (IH _ isOpen Hc').
      * rewrite Hr, Hn, <- List.app_assoc. f_equal. f_equal.
        simpl writtenBy. unfold emitted.
        destruct watcher as [basePath|].
        -- rewrite <- Hopen by (eexists; reflexivity).
           destruct isOpen; [|reflexivity].
           destruct (handleEvent conv cwd basePath type filePath);
             reflexivity.
        -- destruct isOpen, (existsb (Nat.eqb c) (listeners st));
             reflexivity.
      * intros Hw. rewrite (Hopen Hw). simpl.
        destruct watcher as [basePath|]; [|reflexivity].
        destruct (handleEvent conv cwd basePath type filePath) as [event|];
          [|reflexivity].
        now destruct (emit_frame event st) as (-> & _ & _).
    + rewrite (IH _ isOpen Hc').
      * rewrite Hr, Hn. simpl writtenBy.
        destruct (existsb (Nat.eqb c') (heartbeats st) && (c' =? c));
          simpl; now rewrite List.app_nil_r.
      * intros Hw. rewrite (Hopen Hw). simpl.
        now destruct (existsb (Nat.eqb c') (heartbeats st)).
    + rewrite (IH _ (isOpen && negb (c' =? c)) Hc').
      * rewrite Hr, Hn. simpl. now rewrite List.app_nil_r.
      * intros Hw. simpl. destruct watcher; [|destruct Hw as [? [=]]].
        rewrite removeLast_NoDup by exact Hnd.
        rewrite existsb_filter_ne, <- Hopen by exact Hw. reflexivity.
Qed.

End Channel.

(** A run with two connections and three reports of the watch. *)
Definition sampleSteps : list Step :=
  [Connect; FsEvent change "/srv/docs/a.md"; Connect;
   FsEvent add "/srv/docs/notes.txt"; FsEvent add "/srv/docs/b.md"].

Definition sampleLater : list Step :=
  [FsEvent unlink "/srv/docs/a.md"; Tick 0; Connect].

(** C2.  In every run of the channel, for every connection [c]: once the
    connection exists, the first message written to it is the
    acknowledgement, so that it precedes every change event; the change
    events written to it are those the watcher emitted while it was open,
    in the order of their emission; and after its transport closes nothing
    more is written to it, whatever happens later. *)
Theorem channel_delivers_in_order conv cwd watcher steps c :
  let st := run conv cwd watcher steps initial in
  (c < nextConnection st -> acknowledgedFirst (received c st)) /\
  deliveries c st = emittedWhileOpen conv cwd watcher c 0 false steps /\
  (c < nextConnection st ->
   forall later,
     received c (run conv cwd watcher (Close c :: later) st) =
     received c st).
Proof.
  intros st.
  assert (Hc : consistent st)
    by (apply consistent_run, consistent_initial).
  split; [|split].
  - apply (acknowledged_run conv cwd watcher steps initial
             consistent_initial acknowledged_initial c).
  - unfold st.
    rewrite (run_deliveries conv cwd watcher c steps initial false
               consistent_initial); [reflexivity|].
    intros _. reflexivity.
  - intros Hlt later. rewrite run_cons.
    rewrite closed_stays_silent.
    + unfold received. reflexivity.
    + apply consistent_step, Hc.
    + exact Hlt.
    + simpl. destruct Hc as (Hnd & _ & _). destruct watcher.
      * rewrite removeLast_NoDup by exact Hnd.
        rewrite existsb_filter_ne, Nat.eqb_refl. simpl.
        apply andb_false_r.
      * assert (Hnone : forall steps' st',
                  listeners st' = [] ->
                  listeners (run conv cwd None steps' st') = []).
        { induction steps' as [|s steps' IH]; intros st' H; [exact H|].
          rewrite run_cons. apply IH.
          destruct s as [| | c1|c1]; simpl; try exact H.
          now destruct (existsb (Nat.eqb c1) (heartbeats st')). }
        unfold st. rewrite Hnone; reflexivity.
    + simpl. rewrite existsb_filter_ne, Nat.eqb_refl. simpl.
      apply andb_false_r.
Qed.

Lemma channel_delivers_in_order_witness :
  let st := run Path.posix "/home" (Some "/srv/docs") sampleSteps initial in
  0 < nextConnection st /\
  acknowledgedFirst (received 0 st) /\
  deliveries 0 st =
    [ {| type := change; file := "a.md" |};
      {| type := add; file := "b.md" |} ] /\
  received 0 (run Path.posix "/home" (Some "/srv/docs")
                (Close 0 :: sampleLater) st) = received 0 st.
Proof.
  intros st. subst st.
  assert (Hlt : 0 < nextConnection
                      (run Path.posix "/home" (Some "/srv/docs") sampleSteps
                         initial)) by (vm_compute; lia).
  destruct (channel_delivers_in_order Path.posix "/home" (Some "/srv/docs")
              sampleSteps 0) as (Hack & Hdel & Hclosed).
  split; [exact Hlt|]. split; [exact (Hack Hlt)|].
  split; [rewrite Hdel; vm_compute; reflexivity|].
  exact (Hclosed Hlt sampleLater).
Defined.

End SseFacts.

(** ** The content route ([src/routes/api.ts]) *)

Module ApiFacts.
Import Markdown Api MarkdownFacts.

(** The words of the spec about the route: a path has an up-traversal
    segment when one of its names is [..]; it starts from a root of the
    file system when it is absolute. *)
Definition hasUpSegment (conv : Path.Convention) (p : string) : bool :=
  existsb (String.eqb "..") (Path.segments conv p).


(** A disk with a served directory [/srv/docs] and a file outside of it. *)
Definition sampleDisk : Fs.Entry :=
  Fs.Dir "" true
    [ Fs.Dir "etc" true [ Fs.File "passwd" "root:x:0:0" ];
      Fs.Dir "srv" true
        [ Fs.Dir "docs" true
            [ Fs.File "readme.md" "# Hello World";
              Fs.File "notes..md" "# Notes";
              Fs.Dir "guide" true [ Fs.File "intro.md" "# Intro" ] ] ] ].

Definition sampleContext : AppContext :=
  {| mode := DirectoryMode; targetPath := "."; basePath := "/srv/docs" |}.

Definition sampleHandler (file : option string) : Outcome :=
  contentHandler Path.posix "/home" sampleDisk Sample.hljs Sample.lexer
    sampleContext file initialStore.

Section Routes.
Variable conv : Path.Convention.
Variable cwd : string.
Variable root : Fs.Entry.
Variable hljs : Highlighter.
Variable lexer : string -> list Token.
Variable context : AppContext.


Definition handler (file : option string) (st : Store) : Outcome :=
  contentHandler conv cwd root hljs lexer context file st.

Definition fileDirOf (normalizedPath : string) : string :=
  match mode context with
  | FileMode => EmptyString
  | DirectoryMode => Path.dirname conv normalizedPath
  end.

Definition underRoot (normalizedPath : string) : bool :=
  JsString.startsWith (resolvedPathOf conv cwd context normalizedPath)
    (Path.resolve conv cwd [basePath context]).

Definition rejectedByValidation (normalizedPath : string) : bool :=
  JsString.includes normalizedPath ".."
  || JsString.startsWith normalizedPath "/".

Lemma handler_invalid f st :
  f <> EmptyString ->
  rejectedByValidation (Path.normalize conv f) = true ->
  handler (Some f) st =
  {| reply := Error 403 "Invalid file path"; calls := []; store := st |}.
Proof.
  intros Hf H. unfold handler, contentHandler.
  destruct f as [|c f]; [congruence|].
  unfold rejectedByValidation in H. now rewrite H.
Qed.

Lemma handler_valid f st :
  f <> EmptyString ->
  rejectedByValidation (Path.normalize conv f) = false ->
  handler (Some f) st =
  let normalizedPath := Path.normalize conv f in
  let resolvedPath := resolvedPathOf conv cwd context normalizedPath in
  if negb (underRoot normalizedPath)
  then {| reply := Error 403 "Access denied"; calls := []; store := st |}
  else if negb (FileTree.fileExists conv cwd root resolvedPath)
  then {| reply := Error 404 "File not found";
          calls := [CallStat resolvedPath]; store := st |}
  else
    match Fs.readFile conv cwd root resolvedPath with
    | None =>
        {| reply := Rejected;
           calls := [CallStat resolvedPath; CallReadFile resolvedPath];
           store := st |}
    | Some raw =>
        let '((html, copy), st') := parseMarkdown hljs lexer raw st in
        {| reply :=
             Content 200
               {| file := normalizedPath;
                  html := rewriteAssetPaths html (fileDirOf normalizedPath);
                  headings := readArray st' copy; raw := raw |};
           calls := [CallStat resolvedPath; CallReadFile resolvedPath];
           store := st' |}
    end.
Proof.
  intros Hf H. unfold handler, contentHandler.
  destruct f as [|c f]; [congruence|].
  unfold rejectedByValidation in H. rewrite H. reflexivity.
Qed.

Lemma fileExists_stat p :
  FileTree.fileExists conv cwd root p = true <->
  exists e, Fs.stat conv cwd root p = Some e.
Proof.
  unfold FileTree.fileExists.
  destruct (Fs.stat conv cwd root p) as [e|]; split.
  - intros _. now exists e.
  - reflexivity.
  - discriminate.
  - intros [e [=]].
Qed.

Lemma readFile_exists p raw :
  Fs.readFile conv cwd root p = Some raw ->
  FileTree.fileExists conv cwd root p = true.
Proof.
  unfold Fs.readFile, FileTree.fileExists, Fs.stat.
  destruct (Fs.entryAt conv cwd root p) as [e|]; [reflexivity|discriminate].
Qed.

Lemma readFile_directory p name readable entries :
  Fs.stat conv cwd root p = Some (Fs.Dir name readable entries) ->
  Fs.readFile conv cwd root p = None.
Proof. unfold Fs.readFile, Fs.stat. now intros ->. Qed.

End Routes.





(** C9.  The route rejects every request whose normalized path holds two
    dots in a row anywhere: the answer is 403 with the error [Invalid file
    path], and no call to the file system is made.  The rejection is
    broader than that of up-traversal segments: the normalized form of
    [notes..md] has no such segment and holds two dots in a row. *)
Theorem two_dots_anywhere_are_rejected conv cwd root hljs lexer context f st :
  JsString.includes (Path.normalize conv f) ".." = true ->
  (let out := handler conv cwd root hljs lexer context (Some f) st in
   reply out = Error 403 "Invalid file path" /\ calls out = []) /\
  hasUpSegment Path.posix (Path.normalize Path.posix "notes..md") = false /\
  JsString.includes (Path.normalize Path.posix "notes..md") ".." = true.
Proof.
  intros H. split; [|split; reflexivity].
  destruct f as [|c f]; [discriminate H|].
  rewrite handler_invalid.
  - split; reflexivity.
  - discriminate.
  - unfold rejectedByValidation. now rewrite H.
Qed.

Lemma two_dots_anywhere_are_rejected_witness :
  JsString.includes (Path.normalize Path.posix "notes..md") ".." = true /\
  reply (sampleHandler (Some "notes..md")) = Error 403 "Invalid file path" /\
  calls (sampleHandler (Some "notes..md")) = [].
Proof.
  assert (H : JsString.includes (Path.normalize Path.posix "notes..md") ".."
              = true) by reflexivity.
  split; [exact H|].
  exact (proj1 (two_dots_anywhere_are_rejected Path.posix "/home" sampleDisk
                  Sample.hljs Sample.lexer sampleContext "notes..md"
                  initialStore H)).
Defined.

(** C10.  [fileExists] is true for every path at which [stat] finds an
    entry, directories included.  So a request that passes the two
    validations and whose resolved path is a directory is not answered 404:
    after [stat], the route calls [readFile] on the directory. *)
Theorem existing_directory_reaches_the_read
    conv cwd root hljs lexer context f st name readable entries :
  f <> EmptyString ->
  let normalizedPath := Path.normalize conv f in
  let resolvedPath := resolvedPathOf conv cwd context normalizedPath in
  rejectedByValidation normalizedPath = false ->
  underRoot conv cwd context normalizedPath = true ->
  Fs.stat conv cwd root resolvedPath = Some (Fs.Dir name readable entries) ->
  (forall p e, Fs.stat conv cwd root p = Some e ->
     FileTree.fileExists conv cwd root p = true) /\
  FileTree.fileExists conv cwd root resolvedPath = true /\
  let out := handler conv cwd root hljs lexer context (Some f) st in
  statusOf (reply out) <> Some 404 /\
  calls out = [CallStat resolvedPath; CallReadFile resolvedPath].
Proof.
  intros Hf normalizedPath resolvedPath Hrej Hunder Hstat.
  assert (Hall : forall p e, Fs.stat conv cwd root p = Some e ->
                   FileTree.fileExists conv cwd root p = true).
  { intros p e He. apply fileExists_stat. now exists e. }
  split; [exact Hall|]. split; [eapply Hall; exact Hstat|].
  rewrite handler_valid by assumption.
  fold normalizedPath. simpl. rewrite Hunder. simpl. fold resolvedPath.
  rewrite (Hall _ _ Hstat). simpl.
  rewrite (readFile_directory _ _ _ _ _ _ _ Hstat). simpl.
  split; [discriminate|reflexivity].
Qed.

Lemma existing_directory_reaches_the_read_witness :
  Fs.stat Path.posix "/home" sampleDisk "/srv/docs/guide" =
    Some (Fs.Dir "guide" true [ Fs.File "intro.md" "# Intro" ]) /\
  FileTree.fileExists Path.posix "/home" sampleDisk "/srv/docs/guide" = true /\
  statusOf (reply (sampleHandler (Some "guide"))) <> Some 404 /\
  calls (sampleHandler (Some "guide")) =
    [CallStat "/srv/docs/guide"; CallReadFile "/srv/docs/guide"].
Proof.
  assert (Hstat : Fs.stat Path.posix "/home" sampleDisk "/srv/docs/guide" =
                  Some (Fs.Dir "guide" true [ Fs.File "intro.md" "# Intro" ]))
    by reflexivity.
  split; [exact Hstat|].
  destruct (existing_directory_reaches_the_read Path.posix "/home" sampleDisk
              Sample.hljs Sample.lexer sampleContext "guide" initialStore
              "guide" true [ Fs.File "intro.md" "# Intro" ]
              ltac:(discriminate) eq_refl eq_refl Hstat) as (_ & Hex & Hout).
  split; [exact Hex|exact Hout].
Defined.

(** *** Asset references *)

Definition imgTag (attributes : string) : string :=
  "<img " +:+ attributes +:+ ">".

Definition attribute (name value : string) : string :=
  name +:+ "=" +:+ quote +:+ value +:+ quote.

(** The images of the test document [docs/guide.md], as [marked] renders
    them. *)
Definition guideImages : string :=
  imgTag (attribute "src" "../assets/photo.jpg" +:+ " "
            +:+ attribute "alt" "photo")
  +:+ imgTag (attribute "src" "https://example.com/img.png" +:+ " "
                +:+ attribute "alt" "external").

Example guide_images_rewritten :
  rewriteAssetPaths guideImages "docs" =
  imgTag (attribute "src" "/assets/assets/photo.jpg" +:+ " "
            +:+ attribute "alt" "photo")
  +:+ imgTag (attribute "src" "https://example.com/img.png" +:+ " "
                +:+ attribute "alt" "external").
Proof. vm_compute. reflexivity. Qed.

(** An image written in HTML in the document, with a second attribute whose
    name ends in [src]; and an image whose alternative text ends in [src=],
    followed by a link. *)
Definition lazyImage : string :=
  imgTag (attribute "src" "a.png" +:+ " " +:+ attribute "data-src" "b.png").

Definition captionedImage : string :=
  imgTag (attribute "src" "pic.png" +:+ " " +:+ attribute "alt" "src=")
  +:+ " <a " +:+ attribute "href" "u" +:+ ">l</a>".

(** C7, on failing inputs.  The relative [src] of [lazyImage] is left as it
    is: the pattern takes the last [src=] before the end of the tag, which
    belongs to [data-src].  In [captionedImage] the pattern takes the end of
    the alternative text for the attribute: the [src] is left as it is and
    the text between the tag and the link is replaced by a path. *)
Theorem asset_rewriting_misses_the_src :
  rewriteAssetPaths lazyImage "docs" =
    imgTag (attribute "src" "a.png" +:+ " "
              +:+ attribute "data-src" "/assets/docs/b.png") /\
  rewriteAssetPaths captionedImage "docs" =
    "<img " +:+ attribute "src" "pic.png" +:+ " alt=" +:+ quote +:+ "src="
      +:+ quote +:+ "/assets/docs/> <a href=" +:+ quote +:+ "u" +:+ quote
      +:+ ">l</a>".
Proof. split; vm_compute; reflexivity. Qed.

End ApiFacts.

(** ** The tree builder ([src/fileTree.ts]) *)

Module FileTreeFacts.
Import Fs FileTree.

(** Induction on entries, with the hypothesis for the entries of a
    directory. *)
Section EntryInduction.
Variable P : Entry -> Prop.
Hypothesis Hfile : forall name content, P (File name content).
Hypothesis Hdir :
  forall name readable entries, Forall P entries -> P (Dir name readable entries).
Hypothesis Hother : forall name, P (Other name).

Fixpoint Entry_ind' (e : Entry) : P e :=
  match e with
  | File name content => Hfile name content
  | Dir name readable entries =>
      Hdir name readable entries
        ((fix all (es : list Entry) : Forall P es :=
            match es with
            | [] => @List.Forall_nil _ P
            | e0 :: es0 => @List.Forall_cons _ P e0 es0 (Entry_ind' e0) (all es0)
            end) entries)
  | Other name => Hother name
  end.

End EntryInduction.

(** *** Sorting *)

Section SortFacts.
Context {A : Type}.
Variable compare : A -> A -> Z.

Definition precedes (x y : A) : Prop := (compare x y <= 0)%Z.

(** A consistent comparator orders any two elements, transitively. *)
Hypothesis total : forall x y, precedes x y \/ precedes y x.
Hypothesis transitive :
  forall x y z, precedes x y -> precedes y z -> precedes x z.

Lemma insertSorted_In x y l :
  In y (insertSorted compare x l) <-> y = x \/ In y l.
Proof.
  induction l as [|z l IH]; simpl.
  - intuition.
  - destruct (compare x z <=? 0)%Z; simpl; [intuition|].
    rewrite IH. intuition.
Qed.

Lemma sort_In y l : In y (sort compare l) <-> In y l.
Proof.
  induction l as [|x l IH]; simpl; [reflexivity|].
  rewrite insertSorted_In, IH. intuition.
Qed.

Lemma insertSorted_sorted x l :
  StronglySorted precedes l ->
  StronglySorted precedes (insertSorted compare x l).
Proof.
  induction 1 as [|z l Hl IH Hz]; simpl.
  - repeat constructor.
  - destruct (Z.leb_spec (compare x z) 0) as [Hle|Hgt].
    + constructor; [constructor; assumption|].
      constructor; [exact Hle|].
      rewrite List.Forall_forall in Hz |- *. intros y Hy.
      eapply transitive; [exact Hle|auto].
    + constructor; [exact IH|].
      apply List.Forall_forall. intros y Hy.
      apply insertSorted_In in Hy as [->|Hy].
      * destruct (total x z) as [H|H]; [unfold precedes in H; lia|exact H].
      * rewrite List.Forall_forall in Hz. auto.
Qed.

Lemma sort_sorted l : StronglySorted precedes (sort compare l).
Proof.
  induction l as [|x l IH]; simpl; [constructor|].
  apply insertSorted_sorted, IH.
Qed.

End SortFacts.

(** *** Well-formed trees *)

(** The words of the spec.  A directory holds an eligible file when a
    regular file with a Markdown name is in it or below it. *)
Fixpoint holdsEligible (e : Entry) : bool :=
  match e with
  | File name _ => isMarkdownFile name
  | Dir _ _ entries => existsb holdsEligible entries
  | Other _ => false
  end.

Section WellFormed.
Variable localeCompare : string -> string -> Z.

(** [a] may stand before [b] among siblings: no file before a directory,
    and names in order within a kind. *)
Definition before (a b : TreeNode) : Prop :=
  (type a = directory \/ type b = file) /\
  (type a = type b -> (localeCompare (name a) (name b) <= 0)%Z).

Definition ordered (nodes : list TreeNode) : Prop :=
  StronglySorted before nodes.

(** A node of the tree of a directory with the entries [entries]: its name
    is not ignored; a file node stands for a regular file with a Markdown
    name; a directory node stands for a directory that holds an eligible
    file, and its children are ordered and well formed in their turn. *)
Fixpoint wellFormedNode (entries : list Entry) (n : TreeNode) {struct n}
    : Prop :=
  match n with
  | Node nm _ ty ch =>
      ignored nm = false /\
      match ty, ch with
      | file, None =>
          isMarkdownFile nm = true /\
          exists content, In (File nm content) entries
      | directory, Some kids =>
          exists readable sub,
            In (Dir nm readable sub) entries /\
            existsb holdsEligible sub = true /\
            ordered kids /\
            fold_right (fun k rest => wellFormedNode sub k /\ rest) True kids
      | _, _ => False
      end
  end.

Definition wellFormed (entries : list Entry) (nodes : list TreeNode) : Prop :=
  ordered nodes /\ Forall (wellFormedNode entries) nodes.

(** [localeCompare] is a consistent comparator. *)
Definition consistentComparator : Prop :=
  (forall a b, (localeCompare a b <= 0)%Z \/ (localeCompare b a <= 0)%Z) /\
  (forall a b c,
     (localeCompare a b <= 0)%Z -> (localeCompare b c <= 0)%Z ->
     (localeCompare a c <= 0)%Z).

Lemma fold_right_Forall (Q : TreeNode -> Prop) kids :
  fold_right (fun k rest => Q k /\ rest) True kids <-> Forall Q kids.
Proof.
  induction kids as [|k kids IH]; simpl.
  - split; [constructor|trivial].
  - rewrite IH. split.
    + intros [H1 H2]. now constructor.
    + intros H. apply Forall_cons_1 in H. exact H.
Qed.

Lemma wellFormedNode_weaken entries entries' n :
  (forall e, In e entries -> In e entries') ->
  wellFormedNode entries n -> wellFormedNode entries' n.
Proof.
  intros Hsub. destruct n as [nm pth [|] [kids|]]; simpl; try tauto.
  - intros (Hi & Hm & content & Hin). eauto.
  - intros (Hi & readable & sub & Hin & Hrest). split; [exact Hi|].
    exists readable, sub. split; [auto|exact Hrest].
Qed.

Lemma wellFormedNode_eligible entries n :
  wellFormedNode entries n -> existsb holdsEligible entries = true.
Proof.
  destruct n as [nm pth [|] [kids|]]; simpl; try tauto.
  - intros (_ & Hm & content & Hin).
    apply existsb_exists. exists (File nm content). split; assumption.
  - intros (_ & readable & sub & Hin & He & _).
    apply existsb_exists. exists (Dir nm readable sub). split; assumption.
Qed.

Section Consistent.
Hypothesis consistent : consistentComparator.

Lemma compareNodes_total a b :
  precedes (compareNodes localeCompare) a b \/
  precedes (compareNodes localeCompare) b a.
Proof.
  destruct consistent as [Htotal _]. unfold precedes, compareNodes.
  destruct (type a), (type b); simpl; try apply Htotal; lia.
Qed.

Lemma compareNodes_transitive a b c :
  precedes (compareNodes localeCompare) a b ->
  precedes (compareNodes localeCompare) b c ->
  precedes (compareNodes localeCompare) a c.
Proof.
  destruct consistent as [_ Htrans]. unfold precedes, compareNodes.
  destruct (type a), (type b), (type c); simpl; try lia; apply Htrans.
Qed.

Lemma precedes_before a b :
  precedes (compareNodes localeCompare) a b -> before a b.
Proof.
  unfold precedes, compareNodes, before.
  destruct (type a), (type b); simpl; intros H; split;
    try tauto; try discriminate; try lia; auto.
Qed.

Lemma sort_ordered nodes : ordered (sort (compareNodes localeCompare) nodes).
Proof.
  pose proof (sort_sorted (compareNodes localeCompare)
                compareNodes_total compareNodes_transitive nodes) as H.
  unfold ordered. induction H as [|x l Hl IH Hx]; constructor.
  - exact IH.
  - eapply List.Forall_impl; [|exact Hx]. apply precedes_before.
Qed.

End Consistent.

End WellFormed.

(** *** The builder *)

Section BuilderFacts.
Variable conv : Path.Convention.
Variable cwd : string.
Variable localeCompare : string -> string -> Z.

(** The loop of [buildFileTree] over the entries of a directory. *)
Definition scanEntries (dirPath basePath : string)
    : list Entry -> option (list TreeNode) :=
  fix loop (es : list Entry) : option (list TreeNode) :=
    match es with
    | [] => Some []
    | entry :: es' =>
        if ignored (entryName entry) then loop es'
        else
          let fullPath := Path.join conv [dirPath; entryName entry] in
          let relativePath := Path.relative conv cwd basePath fullPath in
          if isDirectory entry then
            children ← buildFileTree conv cwd localeCompare
                         fullPath basePath entry;
            rest ← loop es';
            Some
              (if (0 <? length children) || hasMarkdownFiles children
               then Node (entryName entry) relativePath directory
                      (Some children) :: rest
               else rest)
          else if isFile entry && isMarkdownFile (entryName entry) then
            rest ← loop es';
            Some (Node (entryName entry) relativePath file None :: rest)
          else loop es'
    end.

Lemma buildFileTree_unfold dirPath basePath dir :
  buildFileTree conv cwd localeCompare dirPath basePath dir =
  entries ← readdir dir;
  nodes ← scanEntries dirPath basePath entries;
  Some (sort (compareNodes localeCompare) nodes).
Proof. destruct dir as [| n [|] es|]; reflexivity. Qed.

Lemma scanEntries_cons dirPath basePath entry es :
  scanEntries dirPath basePath (entry :: es) =
  if ignored (entryName entry) then scanEntries dirPath basePath es
  else
    let fullPath := Path.join conv [dirPath; entryName entry] in
    let relativePath := Path.relative conv cwd basePath fullPath in
    if isDirectory entry then
      children ← buildFileTree conv cwd localeCompare fullPath basePath entry;
      rest ← scanEntries dirPath basePath es;
      Some
        (if (0 <? length children) || hasMarkdownFiles children
         then Node (entryName entry) relativePath directory
                (Some children) :: rest
         else rest)
    else if isFile entry && isMarkdownFile (entryName entry) then
      rest ← scanEntries dirPath basePath es;
      Some (Node (entryName entry) relativePath file None :: rest)
    else scanEntries dirPath basePath es.
Proof. reflexivity. Qed.

Hypothesis consistent : consistentComparator localeCompare.

(** What [buildFileTree] returns for a directory is well formed. *)
Definition buildsWellFormed (basePath : string) (dir : Entry) : Prop :=
  forall dirPath nodes,
    buildFileTree conv cwd localeCompare dirPath basePath dir = Some nodes ->
    exists entries,
      readdir dir = Some entries /\ wellFormed localeCompare entries nodes.

Lemma scanEntries_wellFormed basePath es :
  Forall (buildsWellFormed basePath) es ->
  forall dirPath nodes,
    scanEntries dirPath basePath es = Some nodes ->
    Forall (wellFormedNode localeCompare es) nodes.
Proof.
  induction 1 as [|entry es Hentry _ IH]; intros dirPath nodes Hscan.
  - simpl in Hscan. injection Hscan as <-. constructor.
  - assert (Hweak : forall nodes',
              Forall (wellFormedNode localeCompare es) nodes' ->
              Forall (wellFormedNode localeCompare (entry :: es)) nodes').
    { intros nodes'. apply List.Forall_impl. intros n.
      apply wellFormedNode_weaken. intros e He. now right. }
    rewrite scanEntries_cons in Hscan.
    destruct (ignored (entryName entry)) eqn:Hign; [eauto|].
    cbv zeta in Hscan.
    destruct entry as [nm content|nm readable sub|nm];
      simpl isDirectory in Hscan; simpl isFile in Hscan; cbv iota in Hscan;
      [| |simpl in Hscan; eauto].
    + simpl in Hscan, Hign.
      destruct (isMarkdownFile nm) eqn:Hmd; [|eauto].
      destruct (scanEntries dirPath basePath es) as [rest|] eqn:Hrest;
        [|discriminate].
      simpl in Hscan. injection Hscan as <-.
      constructor; [|eauto].
      simpl. split; [exact Hign|]. split; [exact Hmd|].
      exists content. now left.
    + destruct (buildFileTree conv cwd localeCompare
                  (Path.join conv [dirPath; entryName (Dir nm readable sub)])
                  basePath (Dir nm readable sub)) as [children|] eqn:Hbuild;
        [|discriminate].
      destruct (scanEntries dirPath basePath es) as [rest|] eqn:Hrest;
        [|discriminate].
      simpl in Hscan, Hign. injection Hscan as <-.
      destruct (Hentry _ _ Hbuild) as (entries & Hread & Hord & Hkids).
      destruct readable; [|discriminate]. injection Hread as <-.
      destruct ((0 <? length children) || hasMarkdownFiles children)
        eqn:Hkeep; [|eauto].
      constructor; [|eauto].
      simpl. split; [exact Hign|]. exists true, sub.
      split; [now left|]. split; [|split; [exact Hord|]].
      * destruct children as [|k children]; [discriminate Hkeep|].
        apply Forall_cons_1 in Hkids as [Hk _].
        eapply wellFormedNode_eligible, Hk.
      * apply fold_right_Forall, Hkids.
Qed.

Lemma buildFileTree_wellFormed basePath dir : buildsWellFormed basePath dir.
Proof.
  induction dir as [nm content|nm readable es IH|nm] using Entry_ind';
    intros dirPath nodes Hbuild; rewrite buildFileTree_unfold in Hbuild;
    try discriminate.
  destruct readable; [|discriminate]. simpl in Hbuild.
  destruct (scanEntries dirPath basePath es) as [nodes0|] eqn:Hscan;
    [|discriminate].
  simpl in Hbuild. injection Hbuild as <-.
  exists es. split; [reflexivity|]. split.
  - apply sort_ordered, consistent.
  - apply List.Forall_forall. intros n Hn. apply sort_In in Hn.
    pose proof (scanEntries_wellFormed basePath es IH dirPath nodes0 Hscan)
      as Hall.
    rewrite List.Forall_forall in Hall. auto.
Qed.

End BuilderFacts.

(** *** Names *)

(** A name is eligible when it ends in [.md] or [.markdown], whatever the
    case of the letters. *)
Definition eligibleName (name : string) : Prop :=
  exists stem ext,
    name = stem +:+ ext /\
    (JsString.toLowerCase ext = ".md" \/
     JsString.toLowerCase ext = ".markdown").

Lemma isMarkdownFile_spec name :
  isMarkdownFile name = true <-> eligibleName name.
Proof.
  unfold isMarkdownFile, eligibleName.
  rewrite orb_true_iff, !StringFacts.endsWith_spec. split.
  - intros [[t Ht]|[t Ht]];
      apply StringFacts.toLowerCase_split in Ht
        as (stem & ext & -> & _ & Hext);
      exists stem, ext; tauto.
  - intros (stem & ext & -> & [Hext|Hext]);
      rewrite StringFacts.toLowerCase_append, Hext; [left|right]; eauto.
Qed.

Lemma ignored_spec name : ignored name = true <-> In name IGNORE_PATTERNS.
Proof.
  unfold ignored. rewrite existsb_exists. split.
  - intros (x & Hx & He). apply String.eqb_eq in He. now subst x.
  - intros H. exists name. split; [exact H|apply String.eqb_refl].
Qed.

Lemma sample_localeCompare_le a b :
  (Sample.localeCompare a b <= 0)%Z <-> String.leb a b = true.
Proof.
  unfold Sample.localeCompare, String.leb.
  destruct (String.compare a b); split; intros H; try lia; try reflexivity;
    discriminate.
Qed.

Lemma sample_localeCompare_consistent :
  consistentComparator Sample.localeCompare.
Proof.
  split.
  - intros a b. rewrite !sample_localeCompare_le. apply String.leb_total.
  - intros a b c. rewrite !sample_localeCompare_le. intros H1 H2.
    apply Is_true_true. apply Is_true_true in H1, H2.
    exact (PreOrder_Transitive (R := String.le) a b c H1 H2).
Qed.

(** A served directory: files that are not Markdown, an empty directory,
    an ignored one, a directory without Markdown below it, and Markdown
    files at two depths. *)
Definition sampleDocs : Entry :=
  Dir "docs" true
    [ File "zebra.md" "# Z";
      File "notes.txt" "plain";
      Dir "empty" true [];
      Dir "node_modules" true [ File "a.md" "# A" ];
      Dir "guide" true
        [ Dir "nested" true [ File "deep.MD" "# Deep" ];
          File "a.markdown" "# A" ];
      File "alpha.md" "# Alpha";
      Other "socket.md";
      Dir "assets" true [ File "photo.jpg" "jpeg" ] ].

Definition sampleTree : list TreeNode :=
  [ Node "guide" "guide" directory
      (Some
         [ Node "nested" "guide/nested" directory
             (Some [ Node "deep.MD" "guide/nested/deep.MD" file None ]);
           Node "a.markdown" "guide/a.markdown" file None ]);
    Node "alpha.md" "alpha.md" file None;
    Node "zebra.md" "zebra.md" file None ].

Example sample_tree_built :
  buildFileTree Path.posix "/home" Sample.localeCompare
    "/srv/docs" "/srv/docs" sampleDocs = Some sampleTree.
Proof. vm_compute. reflexivity. Qed.

(** C4.  With a consistent [localeCompare], every tree returned by
    [buildFileTree] is well formed at every level: a node never has an
    ignored name; a file node stands for a regular file whose name is
    eligible; a directory node stands for a directory that holds an
    eligible file in it or below it; siblings are ordered, directories
    before files and by name within each kind.  A name is eligible exactly
    when it ends in [.md] or [.markdown] up to case, and ignored exactly
    when it is one of the six names. *)
Theorem built_tree_is_well_formed
    conv cwd localeCompare dirPath basePath dir nodes :
  consistentComparator localeCompare ->
  buildFileTree conv cwd localeCompare dirPath basePath dir = Some nodes ->
  (exists entries,
     readdir dir = Some entries /\ wellFormed localeCompare entries nodes) /\
  (forall name, isMarkdownFile name = true <-> eligibleName name) /\
  (forall name,
     ignored name = true <->
     In name ["node_modules"; ".git"; ".DS_Store"; "dist"; ".next"; ".cache"]).
Proof.
  intros Hcons Hbuild. split; [|split].
  - exact (buildFileTree_wellFormed conv cwd localeCompare Hcons basePath dir
             dirPath nodes Hbuild).
  - apply isMarkdownFile_spec.
  - apply ignored_spec.
Qed.

Lemma built_tree_is_well_formed_witness :
  consistentComparator Sample.localeCompare /\
  buildFileTree Path.posix "/home" Sample.localeCompare
    "/srv/docs" "/srv/docs" sampleDocs = Some sampleTree /\
  exists entries,
    readdir sampleDocs = Some entries /\
    wellFormed Sample.localeCompare entries sampleTree.
Proof.
  split; [exact sample_localeCompare_consistent|].
  split; [exact sample_tree_built|].
  exact (proj1 (built_tree_is_well_formed Path.posix "/home"
                  Sample.localeCompare "/srv/docs" "/srv/docs" sampleDocs
                  sampleTree sample_localeCompare_consistent
                  sample_tree_built)).
Defined.

End FileTreeFacts.

(** ** Paths ([node:path]) *)

Module PathFacts.
Import Path StringFacts.

(** A name without a separator. *)
Fixpoint sepFree (conv : Convention) (s : string) : bool :=
  match s with
  | EmptyString => true
  | String c s' => negb (isSep conv c) && sepFree conv s'
  end.

(** A name that [normalizeString] keeps as it is. *)
Definition regular (s : string) : bool :=
  negb (String.eqb s "") && negb (String.eqb s ".")
  && negb (String.eqb s "..").

(** A name an entry of a directory can have. *)
Definition validName (conv : Convention) (s : string) : bool :=
  regular s && sepFree conv s.

(** What the development asks of a convention: the separator it writes is
    one it reads, and the dot is not a separator. *)
Definition conventionOk (conv : Convention) : Prop :=
  isSep conv (sep conv) = true /\ isSep conv "." = false.

Lemma posix_ok : conventionOk posix.
Proof. split; reflexivity. Qed.

Section WithConvention.
Variable conv : Convention.
Hypothesis convOk : conventionOk conv.

Lemma splitOn_nonempty s : JsString.splitOn (isSep conv) s <> [].
Proof.
  destruct s as [|c s]; simpl; [discriminate|].
  destruct (isSep conv c); [discriminate|].
  destruct (JsString.splitOn (isSep conv) s); discriminate.
Qed.

Lemma segments_sepFree p : Forall (fun s => sepFree conv s = true) (segments conv p).
Proof.
  unfold segments. induction p as [|c p IH]; simpl.
  - repeat constructor.
  - destruct (isSep conv c) eqn:Hc.
    + constructor; [reflexivity|exact IH].
    + destruct (JsString.splitOn (isSep conv) p) as [|w ws].
      * repeat constructor. simpl. now rewrite Hc.
      * apply Forall_cons_1 in IH as [Hw Hws].
        constructor; [|exact Hws]. simpl. now rewrite Hc.
Qed.

Lemma segments_sep c a b :
  isSep conv c = true ->
  segments conv (a +:+ String c b) = segments conv a ++ segments conv b.
Proof.
  intros Hc. unfold segments. induction a as [|x a IH].
  - rewrite append_nil_l. simpl. now rewrite Hc.
  - rewrite append_cons. simpl. rewrite IH.
    destruct (isSep conv x); [reflexivity|].
    pose proof (splitOn_nonempty a) as Hne.
    destruct (JsString.splitOn (isSep conv) a) as [|w ws];
      [congruence|reflexivity].
Qed.

Lemma segments_append_sep a b :
  segments conv (a +:+ sepString conv +:+ b) =
  segments conv a ++ segments conv b.
Proof.
  unfold sepString. rewrite append_cons, append_nil_l.
  apply segments_sep, convOk.
Qed.

Lemma segments_name s : sepFree conv s = true -> segments conv s = [s].
Proof.
  unfold segments. induction s as [|c s IH]; simpl; [reflexivity|].
  intros H. apply andb_true_iff in H as [Hc Hs].
  apply negb_true_iff in Hc. rewrite Hc, (IH Hs). reflexivity.
Qed.

Lemma joinSegments_cons x y l :
  joinSegments conv (x :: y :: l) =
  x +:+ sepString conv +:+ joinSegments conv (y :: l).
Proof. reflexivity. Qed.

Lemma segments_joinSegments l :
  l <> [] ->
  Forall (fun s => sepFree conv s = true) l ->
  segments conv (joinSegments conv l) = l.
Proof.
  intros Hne H. induction H as [|x l Hx Hl IH]; [congruence|].
  destruct l as [|y l].
  - simpl. apply segments_name, Hx.
  - rewrite joinSegments_cons, segments_append_sep, IH by discriminate.
    rewrite (segments_name x Hx). reflexivity.
Qed.

(** *** Normalization as a fold *)

(** The names kept after [segs], last first, from the names [acc]. *)
Definition state (allow : bool) (acc segs : list string) : list string :=
  fold_left (normalizeStep allow) segs acc.

Lemma normalizeSegments_state allow acc segs :
  normalizeSegments allow acc segs = List.rev (state allow acc segs).
Proof. reflexivity. Qed.

Lemma state_app allow acc xs ys :
  state allow acc (xs ++ ys) = state allow (state allow acc xs) ys.
Proof. apply fold_left_app. Qed.

Lemma state_snoc allow acc xs s :
  state allow acc (xs ++ [s]) = normalizeStep allow (state allow acc xs) s.
Proof. now rewrite state_app. Qed.

Lemma step_regular allow acc s :
  regular s = true -> normalizeStep allow acc s = s :: acc.
Proof.
  unfold regular, normalizeStep. intros H.
  apply andb_true_iff in H as [H H3]. apply andb_true_iff in H as [H1 H2].
  apply negb_true_iff in H1, H2, H3. now rewrite H1, H2, H3.
Qed.

Lemma state_regular allow acc l :
  Forall (fun s => regular s = true) l ->
  state allow acc l = List.rev l ++ acc.
Proof.
  intros H. revert acc. induction H as [|s l Hs _ IH]; intros acc.
  - reflexivity.
  - change (state allow acc (s :: l))
      with (state allow (normalizeStep allow acc s) l).
    rewrite step_regular by exact Hs.
    rewrite IH. simpl. rewrite <- List.app_assoc. reflexivity.
Qed.

(** The names kept are neither empty nor [.]. *)
Definition kept (s : string) : bool :=
  negb (String.eqb s "") && negb (String.eqb s ".").

Lemma kept_regular s :
  kept s = true -> String.eqb s ".." = false -> regular s = true.
Proof. unfold kept, regular. intros -> ->. reflexivity. Qed.

Lemma regular_kept s : regular s = true -> kept s = true.
Proof.
  unfold kept, regular. intros H. now apply andb_true_iff in H as [H _].
Qed.

Lemma step_kept allow acc s :
  Forall (fun x => kept x = true) acc ->
  Forall (fun x => kept x = true) (normalizeStep allow acc s).
Proof.
  intros H. unfold normalizeStep.
  destruct (String.eqb s "") eqn:E1; simpl; [exact H|].
  destruct (String.eqb s ".") eqn:E2; simpl; [exact H|].
  destruct (String.eqb s "..") eqn:E3.
  - destruct acc as [|prev acc]; [destruct allow; repeat constructor|].
    destruct (String.eqb prev "..").
    + destruct allow; [|exact H]. constructor; [reflexivity|exact H].
    + now apply Forall_cons_1 in H as [_ H].
  - constructor; [|exact H]. unfold kept. now rewrite E1, E2.
Qed.

Lemma state_kept allow segs :
  forall acc,
    Forall (fun x => kept x = true) acc ->
    Forall (fun x => kept x = true) (state allow acc segs).
Proof.
  induction segs as [|s segs IH]; intros acc H; [exact H|].
  change (state allow acc (s :: segs))
    with (state allow (normalizeStep allow acc s) segs).
  apply IH, step_kept, H.
Qed.

Lemma step_regular_state acc s :
  Forall (fun x => regular x = true) acc ->
  Forall (fun x => regular x = true) (normalizeStep false acc s).
Proof.
  intros H. unfold normalizeStep.
  destruct (String.eqb s "") eqn:E1; simpl; [exact H|].
  destruct (String.eqb s ".") eqn:E2; simpl; [exact H|].
  destruct (String.eqb s "..") eqn:E3.
  - destruct acc as [|prev acc]; [constructor|].
    destruct (String.eqb prev ".."); [exact H|].
    now apply Forall_cons_1 in H as [_ H].
  - constructor; [|exact H]. unfold regular. now rewrite E1, E2, E3.
Qed.

Lemma state_regular_state segs :
  forall acc,
    Forall (fun x => regular x = true) acc ->
    Forall (fun x => regular x = true) (state false acc segs).
Proof.
  induction segs as [|s segs IH]; intros acc H; [exact H|].
  change (state false acc (s :: segs))
    with (state false (normalizeStep false acc s) segs).
  apply IH, step_regular_state, H.
Qed.

Lemma sepFree_dots : sepFree conv ".." = true.
Proof. simpl. destruct convOk as [_ ->]. reflexivity. Qed.

Lemma step_sepFree allow acc s :
  sepFree conv s = true ->
  Forall (fun x => sepFree conv x = true) acc ->
  Forall (fun x => sepFree conv x = true) (normalizeStep allow acc s).
Proof.
  intros Hs H. unfold normalizeStep.
  destruct (String.eqb s "" || String.eqb s "."); [exact H|].
  destruct (String.eqb s "..").
  - destruct acc as [|prev acc].
    + destruct allow; repeat constructor. apply sepFree_dots.
    + destruct (String.eqb prev "..").
      * destruct allow; [|exact H]. constructor; [apply sepFree_dots|exact H].
      * now apply Forall_cons_1 in H as [_ H].
  - constructor; assumption.
Qed.

Lemma state_sepFree allow segs :
  Forall (fun x => sepFree conv x = true) segs ->
  forall acc,
    Forall (fun x => sepFree conv x = true) acc ->
    Forall (fun x => sepFree conv x = true) (state allow acc segs).
Proof.
  induction 1 as [|s segs Hs _ IH]; intros acc H; [exact H|].
  change (state allow acc (s :: segs))
    with (state allow (normalizeStep allow acc s) segs).
  apply IH, step_sepFree; assumption.
Qed.

(** Normalizing what has been normalized changes nothing: the names kept
    after [xs] are those kept after the normal form of [xs]. *)
Lemma state_renormalize allow acc xs :
  state allow acc (List.rev (state true [] xs)) = state allow acc xs.
Proof.
  induction xs as [|s xs IH] using rev_ind; [reflexivity|].
  rewrite !state_snoc.
  pose proof (state_kept true xs [] ltac:(constructor)) as Hkept.
  set (T := state true [] xs) in *. rewrite <- IH. clear IH.
  unfold normalizeStep at 1.
  destruct (String.eqb s "" || String.eqb s ".") eqn:E1.
  - unfold normalizeStep. now rewrite E1.
  - destruct (String.eqb s "..") eqn:E2.
    + apply String.eqb_eq in E2. subst s.
      destruct T as [|top T'].
      * reflexivity.
      * destruct (String.eqb top "..") eqn:E3.
        -- simpl List.rev. rewrite state_snoc. reflexivity.
        -- apply Forall_cons_1 in Hkept as [Htop _].
           simpl List.rev. rewrite state_snoc.
           rewrite (step_regular allow _ top (kept_regular top Htop E3)).
           unfold normalizeStep. simpl. now rewrite E3.
    + simpl List.rev. rewrite state_snoc. reflexivity.
Qed.

Lemma state_empty_l allow acc xs :
  state allow acc (EmptyString :: xs) = state allow acc xs.
Proof. reflexivity. Qed.

Lemma state_empty_r allow acc xs :
  state allow acc (xs ++ [EmptyString]) = state allow acc xs.
Proof. now rewrite state_snoc. Qed.

(** *** Heads and lengths *)

Lemma isAbsolute_append a b :
  a <> EmptyString -> isAbsolute conv (a +:+ b) = isAbsolute conv a.
Proof. destruct a as [|c a]; [congruence|reflexivity]. Qed.

Lemma isAbsolute_sepString b : isAbsolute conv (sepString conv +:+ b) = true.
Proof. unfold isAbsolute, sepString. simpl. apply convOk. Qed.

Lemma isAbsolute_name s :
  kept s = true -> sepFree conv s = true -> isAbsolute conv s = false.
Proof.
  destruct s as [|c s]; [reflexivity|]. simpl. intros _ H.
  apply andb_true_iff in H as [H _]. now apply negb_true_iff in H.
Qed.

Lemma joinSegments_head x l :
  exists rest, joinSegments conv (x :: l) = x +:+ rest.
Proof.
  destruct l as [|y l].
  - exists EmptyString. simpl. now rewrite append_nil_r.
  - eexists. apply joinSegments_cons.
Qed.

Lemma kept_nonempty s : kept s = true -> s <> EmptyString.
Proof. intros H ->. discriminate H. Qed.

Lemma joinSegments_empty l :
  Forall (fun s => kept s = true) l ->
  JsString.isEmpty (joinSegments conv l) = true -> l = [].
Proof.
  intros H He. destruct l as [|x l]; [reflexivity|].
  apply Forall_cons_1 in H as [Hx _].
  destruct (joinSegments_head x l) as [rest Hr]. rewrite Hr in He.
  destruct x as [|c x]; [discriminate Hx|discriminate He].
Qed.

Lemma isAbsolute_joinSegments l tail :
  Forall (fun s => kept s = true) l ->
  Forall (fun s => sepFree conv s = true) l ->
  l <> [] ->
  isAbsolute conv (joinSegments conv l +:+ tail) = false.
Proof.
  intros Hk Hs Hne. destruct l as [|x l]; [congruence|].
  apply Forall_cons_1 in Hk as [Hx _]. apply Forall_cons_1 in Hs as [Hsx _].
  destruct (joinSegments_head x l) as [rest ->].
  rewrite append_assoc, isAbsolute_append by (apply kept_nonempty, Hx).
  apply isAbsolute_name; assumption.
Qed.

Lemma length_toLowerCase s :
  String.length (JsString.toLowerCase s) = String.length s.
Proof. induction s as [|c s IH]; simpl; [reflexivity|now rewrite IH]. Qed.

Lemma sameName_length a b :
  sameName conv a b = true -> String.length a = String.length b.
Proof.
  unfold sameName. destruct (foldCase conv); intros H;
    apply String.eqb_eq in H.
  - rewrite <- (length_toLowerCase a), <- (length_toLowerCase b).
    now rewrite H.
  - now subst.
Qed.

Lemma sameName_refl a : sameName conv a a = true.
Proof. unfold sameName. destruct (foldCase conv); apply String.eqb_refl. Qed.

Lemma joinSegments_longer xs ys :
  Forall (fun s => kept s = true) ys -> ys <> [] ->
  String.length (joinSegments conv xs)
  < String.length (joinSegments conv (xs ++ ys)).
Proof.
  intros Hk Hne. induction xs as [|x xs IH].
  - destruct ys as [|y ys]; [congruence|].
    apply Forall_cons_1 in Hk as [Hy _]. simpl List.app.
    destruct (joinSegments_head y ys) as [rest ->].
    rewrite length_append. destruct y as [|c y]; [discriminate Hy|].
    simpl. lia.
  - destruct xs as [|x' xs].
    + destruct ys as [|y ys]; [congruence|].
      simpl List.app. rewrite joinSegments_cons, !length_append.
      change (joinSegments conv [x]) with x.
      change (String.length (sepString conv)) with 1. lia.
    + simpl List.app in *. rewrite !joinSegments_cons, !length_append.
      lia.
Qed.

(** *** Resolved paths *)

Section Resolved.
Variable cwd : string.
Hypothesis cwdAbsolute : isAbsolute conv cwd = true.

(** The names of the working directory, last first. *)
Definition cwdState : list string := state false [] (segments conv cwd).

(** The names of the resolved form of [p], last first. *)
Definition absState (p : string) : list string :=
  state false (if isAbsolute conv p then [] else cwdState) (segments conv p).

Lemma cwdState_regular : Forall (fun x => regular x = true) cwdState.
Proof. apply state_regular_state. constructor. Qed.

Lemma cwdState_sepFree : Forall (fun x => sepFree conv x = true) cwdState.
Proof. apply state_sepFree; [apply segments_sepFree|constructor]. Qed.

Lemma absState_regular p : Forall (fun x => regular x = true) (absState p).
Proof.
  apply state_regular_state.
  destruct (isAbsolute conv p); [constructor|apply cwdState_regular].
Qed.

Lemma absState_sepFree p : Forall (fun x => sepFree conv x = true) (absState p).
Proof.
  apply state_sepFree; [apply segments_sepFree|].
  destruct (isAbsolute conv p); [constructor|apply cwdState_sepFree].
Qed.

Lemma cwd_nonempty : JsString.isEmpty cwd = false.
Proof. destruct cwd; [discriminate cwdAbsolute|reflexivity]. Qed.

Lemma resolveLoop_cwd acc :
  resolveLoop conv [cwd] acc = (cwd +:+ sepString conv +:+ acc, true).
Proof. simpl. now rewrite cwd_nonempty, cwdAbsolute. Qed.

Lemma resolve_single p :
  resolve conv cwd [p] =
  sepString conv +:+ joinSegments conv (List.rev (absState p)).
Proof.
  unfold resolve, absState. simpl List.app.
  destruct p as [|c p].
  - change (resolveLoop conv [EmptyString; cwd] EmptyString)
      with (resolveLoop conv [cwd] EmptyString).
    rewrite resolveLoop_cwd. unfold normalizeString.
    rewrite normalizeSegments_state, segments_append_sep, state_app.
    reflexivity.
  - destruct (isAbsolute conv (String c p)) eqn:Habs.
    + assert (Hloop : resolveLoop conv [String c p; cwd] EmptyString =
                      (String c p +:+ sepString conv +:+ EmptyString, true)).
      { simpl. simpl in Habs. now rewrite Habs. }
      rewrite Hloop. unfold normalizeString.
      rewrite normalizeSegments_state, segments_append_sep, state_app.
      reflexivity.
    + assert (Hloop : resolveLoop conv [String c p; cwd] EmptyString =
                      (cwd +:+ sepString conv
                         +:+ (String c p +:+ sepString conv +:+ EmptyString),
                       true)).
      { transitivity (resolveLoop conv [cwd]
                        (String c p +:+ sepString conv +:+ EmptyString)).
        - simpl. simpl in Habs. now rewrite Habs.
        - apply resolveLoop_cwd. }
      rewrite Hloop. unfold normalizeString.
      rewrite normalizeSegments_state, !segments_append_sep, !state_app.
      reflexivity.
Qed.

Lemma names_resolved l :
  Forall (fun x => regular x = true) l ->
  Forall (fun x => sepFree conv x = true) l ->
  names conv (sepString conv +:+ joinSegments conv l) = l.
Proof.
  intros Hr Hs. unfold names.
  rewrite <- (append_nil_l (sepString conv +:+ joinSegments conv l)).
  rewrite segments_append_sep.
  destruct l as [|x l]; [reflexivity|].
  remember (x :: l) as L eqn:EL.
  rewrite segments_joinSegments by (subst L; discriminate || assumption).
  simpl. apply forallb_filter_id, forallb_forall. intros y Hy.
  rewrite List.Forall_forall in Hr. specialize (Hr y Hy).
  destruct y; [discriminate Hr|reflexivity].
Qed.

Lemma segments_tail body (trailing : bool) :
  segments conv (body +:+ (if trailing then sepString conv else EmptyString)) =
  segments conv body ++ (if trailing then [EmptyString] else []).
Proof.
  destruct trailing.
  - rewrite <- (append_nil_r (sepString conv)) at 1.
    apply segments_append_sep.
  - now rewrite append_nil_r, List.app_nil_r.
Qed.

Lemma state_tail allow acc xs (trailing : bool) :
  state allow acc (xs ++ (if trailing then [EmptyString] else [])) =
  state allow acc xs.
Proof.
  destruct trailing; [apply state_empty_r|now rewrite List.app_nil_r].
Qed.

Lemma absState_sepString : absState (sepString conv) = [].
Proof.
  unfold absState, isAbsolute, segments, sepString. simpl.
  destruct convOk as [-> _]. reflexivity.
Qed.

(** Resolving a normalized path gives what resolving the path gives. *)
Lemma absState_normalize p :
  p <> EmptyString -> absState (normalize conv p) = absState p.
Proof.
  intros Hp. unfold normalize.
  destruct p as [|c0 p0] eqn:Ep; [congruence|]. rewrite <- Ep in *.
  assert (He : JsString.isEmpty p = false) by (now subst p).
  rewrite Ep at 1. simpl JsString.isEmpty. cbv zeta.
  unfold normalizeString. rewrite normalizeSegments_state.
  destruct (isAbsolute conv p) eqn:Habs; simpl negb.
  - pose proof (state_regular_state (segments conv p) []
                  ltac:(constructor)) as Hreg.
    pose proof (state_sepFree false (segments conv p)
                  (segments_sepFree p) [] ltac:(constructor)) as Hfree.
    set (T := state false [] (segments conv p)) in *.
    assert (HT : absState p = T) by (unfold absState; now rewrite Habs).
    destruct (JsString.isEmpty (joinSegments conv (List.rev T))) eqn:Hbody.
    + apply joinSegments_empty in Hbody.
      * assert (T = []) as ->.
        { destruct T; [reflexivity|].
          apply (f_equal (@List.length _)) in Hbody.
          rewrite List.length_rev in Hbody. discriminate Hbody. }
        rewrite HT. apply absState_sepString.
      * apply List.Forall_rev.
        eapply List.Forall_impl; [|exact Hreg]. apply regular_kept.
    + rewrite HT. unfold absState.
      rewrite isAbsolute_sepString.
      rewrite <- (append_nil_l (sepString conv +:+ _)).
      rewrite segments_append_sep, segments_tail. simpl List.app.
      rewrite state_empty_l, state_tail.
      rewrite segments_joinSegments.
      * rewrite state_regular by (apply List.Forall_rev, Hreg).
        now rewrite List.rev_involutive, List.app_nil_r.
      * intros Hnil. rewrite Hnil in Hbody. discriminate Hbody.
      * apply List.Forall_rev, Hfree.
  - pose proof (state_kept true (segments conv p) []
                  ltac:(constructor)) as Hkept.
    pose proof (state_sepFree true (segments conv p)
                  (segments_sepFree p) [] ltac:(constructor)) as Hfree.
    pose proof (state_renormalize false cwdState (segments conv p)) as Hre.
    set (T := state true [] (segments conv p)) in *.
    assert (HT : absState p = state false cwdState (List.rev T)).
    { unfold absState. now rewrite Habs, Hre. }
    rewrite append_nil_l.
    destruct (JsString.isEmpty (joinSegments conv (List.rev T))) eqn:Hbody.
    + apply joinSegments_empty in Hbody; [|apply List.Forall_rev, Hkept].
      rewrite HT, Hbody.
      assert (Hdot : isAbsolute conv "." = false)
        by (unfold isAbsolute; simpl; apply convOk).
      assert (Hseg : segments conv "." = ["."]).
      { apply segments_name. simpl. destruct convOk as [_ ->]. reflexivity. }
      destruct (hasTrailingSep conv p); unfold absState.
      * rewrite isAbsolute_append, Hdot by discriminate.
        rewrite <- (append_nil_r (sepString conv)), segments_append_sep.
        rewrite Hseg. reflexivity.
      * rewrite Hdot, Hseg. reflexivity.
    + assert (Hne : List.rev T <> []).
      { intros Hnil. rewrite Hnil in Hbody. discriminate Hbody. }
      rewrite HT. unfold absState.
      rewrite isAbsolute_joinSegments;
        [|apply List.Forall_rev, Hkept|apply List.Forall_rev, Hfree
         |exact Hne].
      rewrite segments_tail, state_tail, segments_joinSegments;
        [reflexivity|exact Hne|apply List.Forall_rev, Hfree].
Qed.

Lemma validName_regular s : validName conv s = true -> regular s = true.
Proof. unfold validName. intros H. now apply andb_true_iff in H. Qed.

Lemma validName_sepFree s : validName conv s = true -> sepFree conv s = true.
Proof. unfold validName. intros H. now apply andb_true_iff in H. Qed.

Lemma validNames_regular l :
  Forall (fun x => validName conv x = true) l ->
  Forall (fun x => regular x = true) l.
Proof. apply List.Forall_impl, validName_regular. Qed.

Lemma validNames_sepFree l :
  Forall (fun x => validName conv x = true) l ->
  Forall (fun x => sepFree conv x = true) l.
Proof. apply List.Forall_impl, validName_sepFree. Qed.

Lemma validNames_kept l :
  Forall (fun x => validName conv x = true) l ->
  Forall (fun x => kept x = true) l.
Proof.
  apply List.Forall_impl. intros s H. apply regular_kept, validName_regular, H.
Qed.

(** The resolved form of a path followed by valid names. *)
Lemma absState_under d l :
  l <> [] ->
  Forall (fun x => validName conv x = true) l ->
  absState (join conv [d; joinSegments conv l]) = List.rev l ++ absState d.
Proof.
  intros Hne Hl.
  pose proof (validNames_regular l Hl) as Hreg.
  pose proof (validNames_sepFree l Hl) as Hfree.
  pose proof (validNames_kept l Hl) as Hkept.
  assert (Hrel : JsString.isEmpty (joinSegments conv l) = false).
  { destruct (JsString.isEmpty (joinSegments conv l)) eqn:E; [|reflexivity].
    apply joinSegments_empty in E; [congruence|exact Hkept]. }
  assert (Hnot : isAbsolute conv (joinSegments conv l) = false).
  { rewrite <- (append_nil_r (joinSegments conv l)).
    now apply isAbsolute_joinSegments. }
  unfold join. simpl List.filter. rewrite Hrel. simpl negb.
  destruct d as [|c d]; simpl JsString.isEmpty; simpl negb; cbv iota.
  - change (joinSegments conv [joinSegments conv l])
      with (joinSegments conv l).
    rewrite absState_normalize.
    + unfold absState at 1. rewrite Hnot, segments_joinSegments by assumption.
      rewrite state_regular by exact Hreg. reflexivity.
    + intros E. rewrite E in Hrel. discriminate Hrel.
  - rewrite joinSegments_cons.
    change (joinSegments conv [joinSegments conv l])
      with (joinSegments conv l).
    rewrite absState_normalize by discriminate.
    unfold absState. rewrite isAbsolute_append by discriminate.
    rewrite segments_append_sep, state_app.
    rewrite segments_joinSegments by assumption.
    now rewrite state_regular by exact Hreg.
Qed.

Lemma absState_join d name :
  validName conv name = true ->
  absState (join conv [d; name]) = name :: absState d.
Proof.
  intros H.
  change name with (joinSegments conv [name]) at 1.
  rewrite absState_under; [reflexivity|discriminate|now constructor].
Qed.

Lemma dropCommon_prefix xs ys :
  dropCommon conv xs (xs ++ ys) = ([], ys).
Proof.
  induction xs as [|x xs IH]; simpl.
  - now destruct ys.
  - now rewrite sameName_refl.
Qed.

(** The relative path to what lies under the base: the names in between. *)
Lemma relative_under base full l :
  l <> [] ->
  Forall (fun x => validName conv x = true) l ->
  absState full = List.rev l ++ absState base ->
  relative conv cwd base full = joinSegments conv l.
Proof.
  intros Hne Hl Hfull. unfold relative.
  pose proof (validNames_kept l Hl) as Hkept.
  assert (Hlen :
    String.length (resolve conv cwd [base])
    < String.length (resolve conv cwd [full])).
  { rewrite !resolve_single, Hfull, List.rev_app_distr, List.rev_involutive.
    rewrite !length_append.
    pose proof (joinSegments_longer (List.rev (absState base)) l Hkept Hne).
    lia. }
  destruct (String.eqb_spec base full) as [->|_]; [lia|].
  destruct (sameName conv (resolve conv cwd [base]) (resolve conv cwd [full]))
    eqn:Hsame.
  { apply sameName_length in Hsame. lia. }
  rewrite !resolve_single.
  rewrite !names_resolved;
    try (apply List.Forall_rev; apply absState_regular || apply absState_sepFree).
  rewrite Hfull, List.rev_app_distr, List.rev_involutive.
  rewrite dropCommon_prefix. reflexivity.
Qed.

(** Joining the base and the relative path resolves to what was there. *)
Lemma resolve_round_trip base full l :
  l <> [] ->
  Forall (fun x => validName conv x = true) l ->
  absState full = List.rev l ++ absState base ->
  resolve conv cwd [join conv [base; relative conv cwd base full]] =
  resolve conv cwd [full].
Proof.
  intros Hne Hl Hfull.
  rewrite (relative_under base full l Hne Hl Hfull).
  rewrite !resolve_single, absState_under, Hfull by assumption.
  reflexivity.
Qed.

End Resolved.

End WithConvention.

End PathFacts.

(** ** The paths of the tree ([src/fileTree.ts]) *)

Module TreePathFacts.
Import Fs FileTree Path PathFacts FileTreeFacts.

(** The names of the entries, at every depth, are names a directory can
    hold. *)
Fixpoint validEntry (conv : Convention) (e : Entry) : bool :=
  validName conv (entryName e) &&
  match e with
  | Dir _ _ entries => forallb (validEntry conv) entries
  | _ => true
  end.

Definition validListing (conv : Convention) (dir : Entry) : bool :=
  match dir with
  | Dir _ _ entries => forallb (validEntry conv) entries
  | _ => true
  end.

(** The path the builder visits for the entry reached from the base by the
    names [here]: one [join] for every name. *)
Definition entryPath (conv : Convention) (basePath : string)
    (here : list string) : string :=
  fold_left (fun d name => join conv [d; name]) here basePath.

(** The path of a node is the relative path made of the names from the
    base down to it, written with the separator of the host; joined to the
    base it resolves to the entry the builder visited.  The same holds of
    its children. *)
Fixpoint pathsOk (conv : Convention) (cwd basePath : string)
    (ancestors : list string) (n : TreeNode) {struct n} : Prop :=
  match n with
  | Node nm pth _ ch =>
      let here := ancestors ++ [nm] in
      pth = joinSegments conv here /\
      resolve conv cwd [join conv [basePath; pth]] =
        resolve conv cwd [entryPath conv basePath here] /\
      match ch with
      | Some kids =>
          fold_right
            (fun k rest => pathsOk conv cwd basePath here k /\ rest) True kids
      | None => True
      end
  end.

(** A node and the nodes below it. *)
Fixpoint nodesOf (n : TreeNode) : list TreeNode :=
  match n with
  | Node _ _ _ ch =>
      n :: match ch with
           | Some kids => flat_map nodesOf kids
           | None => []
           end
  end.

(** In the words of the spec, whatever the host: the names joined by
    forward slashes. *)
Definition claimedPath (here : list string) : string :=
  String.concat "/" here.

Section TreePaths.
Variable conv : Convention.
Variable cwd : string.
Variable localeCompare : string -> string -> Z.
Variable basePath : string.
Hypothesis convOk : conventionOk conv.
Hypothesis cwdAbsolute : isAbsolute conv cwd = true.

Lemma entryPath_snoc here name :
  entryPath conv basePath (here ++ [name]) =
  join conv [entryPath conv basePath here; name].
Proof. unfold entryPath. now rewrite fold_left_app. Qed.

Lemma absState_entryPath here :
  Forall (fun x => validName conv x = true) here ->
  absState conv cwd (entryPath conv basePath here) =
  List.rev here ++ absState conv cwd basePath.
Proof.
  induction here as [|name here IH] using rev_ind; intros H.
  - reflexivity.
  - apply Forall_app in H as [Hhere Hname].
    apply Forall_cons_1 in Hname as [Hname _].
    rewrite entryPath_snoc, absState_join by assumption.
    rewrite IH by exact Hhere. rewrite List.rev_app_distr. reflexivity.
Qed.

Lemma node_path_ok ancestors nm :
  Forall (fun x => validName conv x = true) ancestors ->
  validName conv nm = true ->
  let fullPath := join conv [entryPath conv basePath ancestors; nm] in
  let relativePath := relative conv cwd basePath fullPath in
  relativePath = joinSegments conv (ancestors ++ [nm]) /\
  resolve conv cwd [join conv [basePath; relativePath]] =
    resolve conv cwd [entryPath conv basePath (ancestors ++ [nm])].
Proof.
  intros Hanc Hnm fullPath relativePath.
  assert (Hall : Forall (fun x => validName conv x = true) (ancestors ++ [nm])).
  { apply Forall_app. split; [exact Hanc|now constructor]. }
  assert (Hne : ancestors ++ [nm] <> []) by (now destruct ancestors).
  assert (Hfull : absState conv cwd fullPath =
                  List.rev (ancestors ++ [nm]) ++ absState conv cwd basePath).
  { unfold fullPath. rewrite <- entryPath_snoc.
    now apply absState_entryPath. }
  split.
  - now apply relative_under.
  - rewrite entryPath_snoc. fold fullPath.
    now apply (resolve_round_trip conv convOk cwd cwdAbsolute basePath
                 fullPath (ancestors ++ [nm])).
Qed.

(** What [buildFileTree] returns for a directory visited at the path of
    [ancestors] has the right paths. *)
Definition buildsPaths (dir : Entry) : Prop :=
  forall ancestors nodes,
    Forall (fun x => validName conv x = true) ancestors ->
    validListing conv dir = true ->
    buildFileTree conv cwd localeCompare
      (entryPath conv basePath ancestors) basePath dir = Some nodes ->
    Forall (pathsOk conv cwd basePath ancestors) nodes.

Lemma scanEntries_paths es :
  Forall buildsPaths es ->
  forall ancestors nodes,
    Forall (fun x => validName conv x = true) ancestors ->
    forallb (validEntry conv) es = true ->
    scanEntries conv cwd localeCompare
      (entryPath conv basePath ancestors) basePath es = Some nodes ->
    Forall (pathsOk conv cwd basePath ancestors) nodes.
Proof.
  induction 1 as [|entry es Hentry _ IH];
    intros ancestors nodes Hanc Hvalid Hscan.
  - simpl in Hscan. injection Hscan as <-. constructor.
  - simpl in Hvalid. apply andb_true_iff in Hvalid as [Hentry_valid Hes].
    rewrite scanEntries_cons in Hscan.
    destruct (ignored (entryName entry)); [eauto|].
    cbv zeta in Hscan.
    assert (Hnm : validName conv (entryName entry) = true).
    { destruct entry; simpl in Hentry_valid;
        now apply andb_true_iff in Hentry_valid as [? _]. }
    destruct (node_path_ok ancestors (entryName entry) Hanc Hnm)
      as [Hrel Hround].
    destruct entry as [nm content|nm readable sub|nm];
      simpl isDirectory in Hscan; simpl isFile in Hscan; cbv iota in Hscan;
      [| |simpl in Hscan; eauto].
    + simpl in Hscan, Hrel, Hround.
      destruct (isMarkdownFile nm); [|eauto].
      destruct (scanEntries conv cwd localeCompare
                  (entryPath conv basePath ancestors) basePath es)
        as [rest|] eqn:Hrest; [|discriminate].
      simpl in Hscan. injection Hscan as <-.
      constructor; [|eauto]. simpl. rewrite Hrel in Hround |- *. tauto.
    + destruct (buildFileTree conv cwd localeCompare
                  (join conv [entryPath conv basePath ancestors;
                              entryName (Dir nm readable sub)])
                  basePath (Dir nm readable sub)) as [children|] eqn:Hbuild;
        [|discriminate].
      destruct (scanEntries conv cwd localeCompare
                  (entryPath conv basePath ancestors) basePath es)
        as [rest|] eqn:Hrest; [|discriminate].
      simpl in Hscan, Hrel, Hround, Hnm, Hbuild. injection Hscan as <-.
      destruct ((0 <? length children) || hasMarkdownFiles children);
        [|eauto].
      constructor; [|eauto]. simpl. rewrite Hrel in Hround |- *.
      split; [reflexivity|]. split; [exact Hround|].
      apply fold_right_Forall.
      rewrite <- entryPath_snoc in Hbuild.
      apply (Hentry (ancestors ++ [nm]) children).
      * apply Forall_app. split; [exact Hanc|now constructor].
      * simpl in Hentry_valid.
        now apply andb_true_iff in Hentry_valid as [_ ?].
      * exact Hbuild.
Qed.

Lemma buildFileTree_paths dir : buildsPaths dir.
Proof.
  induction dir as [nm content|nm readable es IH|nm] using Entry_ind';
    intros ancestors nodes Hanc Hvalid Hbuild;
    rewrite buildFileTree_unfold in Hbuild; try discriminate.
  destruct readable; [|discriminate]. simpl in Hbuild.
  destruct (scanEntries conv cwd localeCompare
              (entryPath conv basePath ancestors) basePath es)
    as [nodes0|] eqn:Hscan; [|discriminate].
  simpl in Hbuild. injection Hbuild as <-.
  apply List.Forall_forall. intros n Hn. apply sort_In in Hn.
  pose proof (scanEntries_paths es IH ancestors nodes0 Hanc Hvalid Hscan)
    as Hall.
  rewrite List.Forall_forall in Hall. auto.
Qed.

End TreePaths.

(** X26.  On a POSIX host, with an absolute working directory and entries
    whose names are names a directory can hold: every node of the tree
    returned by [buildFileTree] for the base directory, at every depth, has
    for path the names from the base down to the entry joined by forward
    slashes, and joining the base and that path resolves to the path at
    which the builder visited the entry.  The statement is proved for
    every convention whose separator is read as a separator and for which
    the dot is none; [posix] is the one of the library. *)
Theorem node_paths_round_trip conv cwd localeCompare basePath dir nodes :
  conventionOk conv ->
  isAbsolute conv cwd = true ->
  validListing conv dir = true ->
  buildFileTree conv cwd localeCompare basePath basePath dir = Some nodes ->
  Forall (pathsOk conv cwd basePath []) nodes /\
  (forall here, joinSegments posix here = claimedPath here).
Proof.
  intros Hconv Hcwd Hvalid Hbuild. split; [|reflexivity].
  apply (buildFileTree_paths conv cwd localeCompare basePath Hconv Hcwd dir
           [] nodes); [constructor|exact Hvalid|exact Hbuild].
Qed.

Lemma node_paths_round_trip_witness :
  conventionOk posix /\
  isAbsolute posix "/home" = true /\
  validListing posix sampleDocs = true /\
  buildFileTree posix "/home" Sample.localeCompare
    "/srv/docs" "/srv/docs" sampleDocs = Some sampleTree /\
  Forall (pathsOk posix "/home" "/srv/docs" []) sampleTree.
Proof.
  assert (Hvalid : validListing posix sampleDocs = true) by reflexivity.
  assert (Hcwd : isAbsolute posix "/home" = true) by reflexivity.
  split; [exact posix_ok|]. split; [exact Hcwd|]. split; [exact Hvalid|].
  split; [exact sample_tree_built|].
  exact (proj1 (node_paths_round_trip posix "/home" Sample.localeCompare
                  "/srv/docs" sampleDocs sampleTree posix_ok Hcwd Hvalid
                  sample_tree_built)).
Defined.

(** The builder with the functions of [Path] is the builder of
    [HostTree] on a host that has them. *)
Lemma buildFileTree_on_host conv cwd localeCompare dir :
  forall dirPath basePath,
    buildFileTree conv cwd localeCompare dirPath basePath dir =
    HostTree.buildFileTree (join conv) (relative conv cwd) localeCompare
      dirPath basePath dir.
Proof. reflexivity. Qed.

(** The tree of the same directory on a Windows host. *)
Definition sampleTreeWin32 : list TreeNode :=
  [ Node "guide" "guide" directory
      (Some
         [ Node "nested" "guide\nested" directory
             (Some [ Node "deep.MD" "guide\nested\deep.MD" file None ]);
           Node "a.markdown" "guide\a.markdown" file None ]);
    Node "alpha.md" "alpha.md" file None;
    Node "zebra.md" "zebra.md" file None ].

(** C5.  On a Windows host the paths of the tree are written with
    backslashes: for the directory [C:\srv\docs], the working directory of
    the process being [C:\Users\me], the node of [guide\nested\deep.MD] has
    the path [guide\nested\deep.MD], not the names joined by forward
    slashes.  On a POSIX host the tree of the same directory has the path
    with forward slashes. *)
Theorem win32_paths_are_not_posix :
  let deep := Node "deep.MD" "guide\nested\deep.MD" file None in
  HostTree.buildFileTree Win32.join
    (Win32.relative "C:\Users\me" (fun _ => None)) Sample.localeCompare
    "C:\srv\docs" "C:\srv\docs" sampleDocs = Some sampleTreeWin32 /\
  In deep (flat_map nodesOf sampleTreeWin32) /\
  path deep <> claimedPath ["guide"; "nested"; "deep.MD"] /\
  HostTree.buildFileTree (join posix) (relative posix "/home")
    Sample.localeCompare "/srv/docs" "/srv/docs" sampleDocs =
    Some sampleTree /\
  In (Node "deep.MD" (claimedPath ["guide"; "nested"; "deep.MD"]) file None)
    (flat_map nodesOf sampleTree).
Proof.
  split; [vm_compute; reflexivity|]. split; [simpl; tauto|].
  split; [discriminate|].
  split; [vm_compute; reflexivity|]. simpl. tauto.
Qed.

End TreePathFacts.

(** ** The ids of headings ([src/markdown.ts]) *)

Module SlugFacts.
Import Markdown StringFacts MarkdownFacts.

(** Every character of [s] satisfies [p]. *)
Fixpoint allChars (p : ascii -> bool) (s : string) : bool :=
  match s with
  | EmptyString => true
  | String c s' => p c && allChars p s'
  end.

(** The characters of an id: [a-z], [0-9], the underscore and the hyphen. *)
Definition isIdChar (c : ascii) : bool :=
  JsString.inRange 97 122 c || JsString.inRange 48 57 c
  || Ascii.eqb c "_" || Ascii.eqb c "-".

Ltac each_ascii c :=
  destruct c as [[] [] [] [] [] [] [] []]; vm_compute;
  try reflexivity; try discriminate; try tauto.

Lemma lowered_word_char c :
  JsString.isWordChar (JsString.toLowerChar c)
  || Ascii.eqb (JsString.toLowerChar c) "-" = true ->
  isIdChar (JsString.toLowerChar c) = true.
Proof. each_ascii c. Qed.

Lemma idChar_lower c : isIdChar c = true -> JsString.toLowerChar c = c.
Proof. each_ascii c. Qed.

Lemma idChar_kept c :
  isIdChar c = true ->
  JsString.isWordChar c || JsString.isWhiteSpace c || Ascii.eqb c "-" = true.
Proof. each_ascii c. Qed.

Lemma idChar_not_space c : isIdChar c = true -> JsString.isWhiteSpace c = false.
Proof. each_ascii c. Qed.

Lemma hyphenate_idChars s :
  forall inRun,
    allChars isIdChar
      (JsString.hyphenateFrom inRun
         (JsString.stripPunctuation (JsString.toLowerCase s))) = true.
Proof.
  induction s as [|c s IH]; intros inRun; [reflexivity|].
  simpl JsString.toLowerCase. simpl JsString.stripPunctuation.
  destruct (JsString.isWhiteSpace (JsString.toLowerChar c)) eqn:Hws.
  - rewrite orb_true_r. simpl. rewrite Hws.
    destruct inRun; simpl; apply IH.
  - rewrite orb_false_r.
    destruct (JsString.isWordChar (JsString.toLowerChar c)
              || Ascii.eqb (JsString.toLowerChar c) "-") eqn:Hkeep.
    + simpl. rewrite Hws. simpl.
      rewrite (lowered_word_char c Hkeep). apply IH.
    + apply IH.
Qed.

Lemma slug_idChars text : allChars isIdChar (slug text) = true.
Proof. apply hyphenate_idChars. Qed.

Lemma toLowerCase_idChars s :
  allChars isIdChar s = true -> JsString.toLowerCase s = s.
Proof.
  induction s as [|c s IH]; simpl; [reflexivity|]. intros H.
  apply andb_true_iff in H as [Hc Hs].
  now rewrite (idChar_lower c Hc), (IH Hs).
Qed.

Lemma stripPunctuation_idChars s :
  allChars isIdChar s = true -> JsString.stripPunctuation s = s.
Proof.
  induction s as [|c s IH]; simpl; [reflexivity|]. intros H.
  apply andb_true_iff in H as [Hc Hs].
  now rewrite (idChar_kept c Hc), (IH Hs).
Qed.

Lemma hyphenateFrom_idChars s :
  allChars isIdChar s = true ->
  forall inRun, JsString.hyphenateFrom inRun s = s.
Proof.
  induction s as [|c s IH]; simpl; [reflexivity|]. intros H inRun.
  apply andb_true_iff in H as [Hc Hs].
  now rewrite (idChar_not_space c Hc), (IH Hs).
Qed.

Lemma slug_of_id s : allChars isIdChar s = true -> slug s = s.
Proof.
  intros H. unfold slug, JsString.hyphenateSpaces.
  rewrite (toLowerCase_idChars s H), (stripPunctuation_idChars s H).
  now apply hyphenateFrom_idChars.
Qed.

(** X1.  Every id returned by [parseMarkdown] or by [extractHeadings], and
    every id computed from a text, is made of lower-case letters, digits,
    underscores and hyphens: it holds no quote, no angle bracket and no
    white space. *)
Theorem ids_hold_only_id_characters hljs lexer content st :
  (forall text, allChars isIdChar (slug text) = true) /\
  Forall (fun h => allChars isIdChar (id h) = true)
    (parsedHeadings hljs lexer content st) /\
  Forall (fun h => allChars isIdChar (id h) = true)
    (extractHeadings content).
Proof.
  split; [exact slug_idChars|]. split.
  - rewrite parsedHeadings_spec.
    eapply List.Forall_impl; [|apply documentHeadings_slug].
    intros h ->. apply slug_idChars.
  - eapply List.Forall_impl; [|apply (execLoop_slug content 0 true)].
    intros h ->. apply slug_idChars.
Qed.

(** X2.  An id is its own id: computing the id of a text that is already
    an id gives it back, so that computing ids twice gives what computing
    them once gives. *)
Theorem id_of_an_id_is_itself text : slug (slug text) = slug text.
Proof. apply slug_of_id, slug_idChars. Qed.

End SlugFacts.

(** ** The line-oriented extractor ([src/markdown.ts]) *)

Module ExtractFacts.
Import Markdown StringFacts SlugFacts.

(** [n] times the sign that opens a heading. *)
Fixpoint hashes (n : nat) : string :=
  match n with
  | 0 => EmptyString
  | S n' => String "#" (hashes n')
  end.

(** Neither the first nor the last character of [s] is white space. *)
Definition noEdgeSpace (s : string) : bool :=
  match JsString.head s with
  | Some c => negb (JsString.isWhiteSpace c)
  | None => true
  end
  && match JsString.last s with
     | Some c => negb (JsString.isWhiteSpace c)
     | None => true
     end.

(** A line that the pattern of [extractHeadings] does not match at its
    start: it does not begin with [#], or it begins with more than six, or
    a character that is not white space follows the signs. *)
Definition notHeadingLine (l : string) : bool :=
  let m := countWhile isHash l in
  (m =? 0) || (6 <? m)
  || match JsString.head (drop m l) with
     | Some c => negb (JsString.isWhiteSpace c)
     | None => false
     end.

(** *** Characters of a string *)

Lemma allChars_append p a b :
  allChars p (a +:+ b) = allChars p a && allChars p b.
Proof.
  induction a as [|c a IH]; [reflexivity|].
  rewrite append_cons. simpl. now rewrite IH, andb_assoc.
Qed.

Lemma allChars_rev p s : allChars p (JsString.rev s) = allChars p s.
Proof.
  induction s as [|c s IH]; [reflexivity|].
  rewrite rev_cons, allChars_append, IH. simpl.
  now rewrite andb_true_r, andb_comm.
Qed.

Lemma allChars_trimStart p s :
  allChars p s = true -> allChars p (JsString.trimStart s) = true.
Proof.
  induction s as [|c s IH]; simpl; [reflexivity|]. intros H.
  destruct (JsString.isWhiteSpace c); [|exact H].
  apply andb_true_iff in H as [_ H]. auto.
Qed.

Lemma allChars_trim p s :
  allChars p s = true -> allChars p (JsString.trim s) = true.
Proof.
  intros H. unfold JsString.trim.
  rewrite allChars_rev. apply allChars_trimStart.
  rewrite allChars_rev. now apply allChars_trimStart.
Qed.

Lemma allChars_takeWhile p s : allChars p (takeWhile p s) = true.
Proof.
  induction s as [|c s IH]; simpl; [reflexivity|].
  destruct (p c) eqn:Hc; [|reflexivity]. simpl. now rewrite Hc.
Qed.

(** *** Trimming *)

Lemma head_trimStart s :
  match JsString.head (JsString.trimStart s) with
  | Some c => JsString.isWhiteSpace c = false
  | None => True
  end.
Proof.
  induction s as [|c s IH]; simpl; [exact I|].
  destruct (JsString.isWhiteSpace c) eqn:Hc; [exact IH|exact Hc].
Qed.

Lemma trimStart_suffix s :
  exists pre, s = pre +:+ JsString.trimStart s.
Proof.
  induction s as [|c s [pre IH]]; simpl.
  - now exists EmptyString.
  - destruct (JsString.isWhiteSpace c).
    + exists (String c pre). rewrite append_cons. now rewrite <- IH.
    + now exists EmptyString.
Qed.

Lemma head_append a b :
  a <> EmptyString -> JsString.head (a +:+ b) = JsString.head a.
Proof. destruct a as [|c a]; [congruence|reflexivity]. Qed.

Lemma trimStart_fixed s :
  match JsString.head s with
  | Some c => JsString.isWhiteSpace c = false
  | None => True
  end -> JsString.trimStart s = s.
Proof. destruct s as [|c s]; simpl; [reflexivity|]. now intros ->. Qed.

Lemma trim_noEdgeSpace s : noEdgeSpace (JsString.trim s) = true.
Proof.
  unfold noEdgeSpace, JsString.trim, JsString.last.
  rewrite rev_involutive.
  set (a := JsString.trimStart s).
  set (b := JsString.trimStart (JsString.rev a)).
  apply andb_true_iff. split.
  - destruct (JsString.rev b) as [|c rb] eqn:Hrb; [reflexivity|].
    destruct (trimStart_suffix (JsString.rev a)) as [pre Hpre].
    fold b in Hpre.
    assert (Ha : a = JsString.rev b +:+ JsString.rev pre).
    { rewrite <- (rev_involutive a), Hpre. apply rev_append. }
    pose proof (head_trimStart s) as Hhead. fold a in Hhead.
    rewrite Ha, Hrb in Hhead. simpl in Hhead. simpl. now rewrite Hhead.
  - pose proof (head_trimStart (JsString.rev a)) as Hhead. fold b in Hhead.
    destruct (JsString.head b); [now rewrite Hhead|reflexivity].
Qed.

(** *** The loop *)

(** What [execLoop] returns satisfies what every match gives. *)
Lemma execLoop_Forall (P : Heading -> Prop) :
  (forall s n group2 len,
     matchHeadingAt s = Some (n, group2, len) ->
     P (headingOfMatch n group2)) ->
  forall s skip atLineStart, Forall P (execLoop skip atLineStart s).
Proof.
  intros HP. induction s as [|c s IH]; intros skip atLineStart; simpl.
  - constructor.
  - destruct skip as [|k]; [|apply IH].
    destruct atLineStart; [|apply IH].
    destruct (matchHeadingAt (String c s)) as [[[n group2] len]|] eqn:Hm;
      [|apply IH].
    constructor; [eapply HP; exact Hm | apply IH].
Qed.

Lemma matchHeadingAt_inv s n group2 len :
  matchHeadingAt s = Some (n, group2, len) ->
  1 <= n <= 6 /\ allChars notLineTerminator group2 = true.
Proof.
  unfold matchHeadingAt.
  destruct ((1 <=? countWhile isHash s) && (countWhile isHash s <=? 6))
    eqn:Hn; [|discriminate].
  destruct (spaceTaken _ _) as [k|]; [|discriminate].
  intros [= <- <- _]. split.
  - apply andb_true_iff in Hn as [H1 H2].
    apply Nat.leb_le in H1, H2. lia.
  - apply allChars_takeWhile.
Qed.

(** The characters of the last match are passed over: the search goes on
    after them. *)
Lemma execLoop_skip pre :
  forall atLineStart s,
    execLoop (String.length pre) atLineStart (pre +:+ s) =
    execLoop 0
      (match JsString.last pre with
       | Some c => JsString.isLineTerminator c
       | None => atLineStart
       end) s.
Proof.
  induction pre as [|c pre IH]; intros atLineStart s; [reflexivity|].
  rewrite append_cons. simpl String.length.
  change (execLoop (S (String.length pre)) atLineStart (String c (pre +:+ s)))
    with (execLoop (String.length pre) (JsString.isLineTerminator c)
            (pre +:+ s)).
  rewrite IH. unfold JsString.last. rewrite rev_cons.
  destruct (JsString.rev pre) as [|d r]; reflexivity.
Qed.

Lemma execLoop_rest atLineStart rest :
  (rest = EmptyString \/
   exists lt rest', rest = String lt rest' /\
                    JsString.isLineTerminator lt = true) ->
  atLineStart = false ->
  execLoop 0 atLineStart rest =
  extractHeadings (match rest with
                   | EmptyString => EmptyString
                   | String _ rest' => rest'
                   end).
Proof.
  intros [->|(lt & rest' & -> & Hlt)] ->; [reflexivity|].
  simpl. now rewrite Hlt.
Qed.

(** A stretch without a line terminator and not at the start of a line
    holds no match. *)
Lemma execLoop_inside l :
  allChars notLineTerminator l = true ->
  forall s, execLoop 0 false (l +:+ s) = execLoop 0 false s.
Proof.
  induction l as [|c l IH]; intros H s; [reflexivity|].
  simpl in H. apply andb_true_iff in H as [Hc Hl].
  rewrite append_cons. simpl.
  unfold notLineTerminator in Hc. apply negb_true_iff in Hc. rewrite Hc.
  now apply IH.
Qed.

(** *** Counting and dropping *)

Lemma countWhile_hashes n s :
  match JsString.head s with
  | Some c => isHash c = false
  | None => True
  end ->
  countWhile isHash (hashes n +:+ s) = n.
Proof.
  intros Hs. induction n as [|n IH]; simpl.
  - rewrite append_nil_l. destruct s as [|c s]; simpl in *; [reflexivity|].
    now rewrite Hs.
  - now rewrite IH.
Qed.

Lemma drop_hashes n s : drop n (hashes n +:+ s) = s.
Proof. induction n as [|n IH]; simpl; [now destruct s|exact IH]. Qed.

Lemma length_hashes n : String.length (hashes n) = n.
Proof. induction n as [|n IH]; simpl; [reflexivity|now rewrite IH]. Qed.

Lemma countWhile_all p a s :
  allChars p a = true ->
  match JsString.head s with
  | Some c => p c = false
  | None => True
  end ->
  countWhile p (a +:+ s) = String.length a.
Proof.
  intros Ha Hs. induction a as [|c a IH]; simpl.
  - rewrite append_nil_l. destruct s as [|c s]; simpl in *; [reflexivity|].
    now rewrite Hs.
  - simpl in Ha. apply andb_true_iff in Ha as [Hc Ha].
    rewrite Hc. now rewrite IH.
Qed.

Lemma drop_length a s : drop (String.length a) (a +:+ s) = s.
Proof. induction a as [|c a IH]; simpl; [now destruct s|exact IH]. Qed.

Lemma takeWhile_line t rest :
  allChars notLineTerminator t = true ->
  (rest = EmptyString \/
   exists lt rest', rest = String lt rest' /\
                    JsString.isLineTerminator lt = true) ->
  takeWhile notLineTerminator (t +:+ rest) = t.
Proof.
  intros Ht Hrest. induction t as [|c t IH]; simpl.
  - rewrite append_nil_l.
    destruct Hrest as [->|(lt & rest' & -> & Hlt)]; [reflexivity|].
    simpl. unfold notLineTerminator. now rewrite Hlt.
  - simpl in Ht. apply andb_true_iff in Ht as [Hc Ht].
    rewrite Hc. now rewrite IH.
Qed.

Lemma last_append a t :
  t <> EmptyString -> JsString.last (a +:+ t) = JsString.last t.
Proof.
  intros Ht. unfold JsString.last. rewrite rev_append.
  apply head_append. intros H.
  apply (f_equal JsString.rev) in H. rewrite rev_involutive in H.
  now apply Ht.
Qed.

Lemma last_allChars p t :
  allChars p t = true ->
  match JsString.last t with
  | Some c => p c = true
  | None => True
  end.
Proof.
  intros H. unfold JsString.last. rewrite <- allChars_rev in H.
  destruct (JsString.rev t) as [|c r]; simpl in *; [exact I|].
  now apply andb_true_iff in H as [H _].
Qed.

(** The match at the start of a heading line. *)
Lemma matchHeadingAt_line n ws t rest :
  1 <= n <= 6 ->
  ws <> EmptyString ->
  allChars JsString.isWhiteSpace ws = true ->
  t <> EmptyString ->
  noEdgeSpace t = true ->
  allChars notLineTerminator t = true ->
  (rest = EmptyString \/
   exists lt rest', rest = String lt rest' /\
                    JsString.isLineTerminator lt = true) ->
  matchHeadingAt (hashes n +:+ ws +:+ t +:+ rest) =
  Some (n, t, n + String.length ws + String.length t).
Proof.
  intros Hn Hws Hall Ht Hedge Hline Hrest.
  destruct t as [|c t]; [congruence|].
  assert (Hc : JsString.isWhiteSpace c = false).
  { unfold noEdgeSpace in Hedge. simpl in Hedge.
    apply andb_true_iff in Hedge as [Hedge _].
    now apply negb_true_iff in Hedge. }
  assert (Hlt : JsString.isLineTerminator c = false).
  { simpl in Hline. apply andb_true_iff in Hline as [Hline _].
    unfold notLineTerminator in Hline. now apply negb_true_iff in Hline. }
  unfold matchHeadingAt.
  rewrite countWhile_hashes.
  2:{ destruct ws as [|w ws]; [congruence|]. simpl in *.
      apply andb_true_iff in Hall as [Hw _].
      destruct w as [[] [] [] [] [] [] [] []]; try discriminate Hw;
        reflexivity. }
  assert (H16 : (1 <=? n) && (n <=? 6) = true).
  { apply andb_true_iff. split; apply Nat.leb_le; lia. }
  rewrite H16, drop_hashes.
  rewrite (countWhile_all JsString.isWhiteSpace ws _ Hall)
    by (rewrite append_cons; simpl; exact Hc).
  assert (Hk : spaceTaken (String.length ws) (ws +:+ String c t +:+ rest) =
               Some (String.length ws)).
  { destruct (String.length ws) as [|k] eqn:Hlen.
    - destruct ws; [congruence|discriminate Hlen].
    - cbn [spaceTaken]. rewrite <- Hlen, drop_length.
      rewrite append_cons. simpl. now rewrite Hlt. }
  rewrite Hk, drop_length.
  now rewrite (takeWhile_line (String c t) rest Hline Hrest).
Qed.

(** No match at the start of a line that is not a heading line. *)
Lemma matchHeadingAt_other l s :
  notHeadingLine l = true ->
  allChars notLineTerminator l = true ->
  (s = EmptyString \/
   exists lt s', s = String lt s' /\ JsString.isLineTerminator lt = true) ->
  matchHeadingAt (l +:+ s) = None.
Proof.
  intros Hnot Hline Hs. unfold matchHeadingAt.
  assert (Hcount : countWhile isHash (l +:+ s) = countWhile isHash l).
  { clear Hnot. induction l as [|c l IH].
    - rewrite append_nil_l.
      destruct Hs as [->|(lt & s' & -> & Hlt)]; [reflexivity|].
      simpl. destruct lt as [[] [] [] [] [] [] [] []];
        try discriminate Hlt; reflexivity.
    - rewrite append_cons. simpl in *.
      apply andb_true_iff in Hline as [_ Hline].
      destruct (isHash c); [now rewrite IH|reflexivity]. }
  rewrite Hcount. unfold notHeadingLine in Hnot.
  set (m := countWhile isHash l) in *.
  destruct ((1 <=? m) && (m <=? 6)) eqn:Hrange; [|reflexivity].
  apply andb_true_iff in Hrange as [H1 H6].
  apply Nat.leb_le in H1, H6.
  assert (Hm0 : (m =? 0) = false) by (apply Nat.eqb_neq; lia).
  assert (Hm6 : (6 <? m) = false) by (apply Nat.ltb_ge; lia).
  rewrite Hm0, Hm6 in Hnot. simpl in Hnot.
  assert (Hdrop : forall k x, k <= countWhile isHash x ->
                    drop k (x +:+ s) = drop k x +:+ s).
  { induction k as [|k IH]; intros x Hk.
    - now destruct x, s.
    - destruct x as [|c x]; [simpl in Hk; lia|].
      rewrite append_cons. simpl. apply IH. simpl in Hk.
      destruct (isHash c); lia. }
  rewrite (Hdrop m l) by (subst m; lia).
  destruct (drop m l) as [|c r]; [discriminate Hnot|].
  simpl in Hnot. apply negb_true_iff in Hnot.
  rewrite append_cons. simpl. now rewrite Hnot.
Qed.

(** X3.  Every heading returned by [extractHeadings] has a level from 1 to
    6, and a text that lies on one line and neither begins nor ends with
    white space. *)
Theorem extracted_headings_are_trimmed content :
  Forall (fun h =>
            1 <= level h <= 6 /\
            allChars notLineTerminator (text h) = true /\
            noEdgeSpace (text h) = true)
    (extractHeadings content).
Proof.
  apply execLoop_Forall. intros s n group2 len Hm.
  apply matchHeadingAt_inv in Hm as [Hn Hline]. simpl.
  split; [exact Hn|]. split.
  - now apply allChars_trim.
  - apply trim_noEdgeSpace.
Qed.

(** X4.  A heading line is read back: one to six [#] at the start of the
    content, then white space that is not empty -- line breaks included --
    then a text on one line that neither begins nor ends with white space,
    give a heading with that level and that text, and the extraction goes
    on after the line. *)
Theorem heading_line_is_read_back n ws t :
  1 <= n <= 6 ->
  ws <> EmptyString ->
  allChars JsString.isWhiteSpace ws = true ->
  t <> EmptyString ->
  noEdgeSpace t = true ->
  allChars notLineTerminator t = true ->
  let h := {| level := n; text := t; id := slug t |} in
  extractHeadings (hashes n +:+ ws +:+ t) = [h] /\
  forall lt rest,
    JsString.isLineTerminator lt = true ->
    extractHeadings (hashes n +:+ ws +:+ t +:+ String lt rest) =
    h :: extractHeadings rest.
Proof.
  intros Hn Hws Hall Ht Hedge Hline h.
  assert (Htrim : JsString.trim t = t).
  { unfold JsString.trim.
    assert (H1 : JsString.trimStart t = t).
    { apply trimStart_fixed. unfold noEdgeSpace in Hedge.
      apply andb_true_iff in Hedge as [Hedge _].
      destruct (JsString.head t); [now apply negb_true_iff in Hedge|exact I]. }
    rewrite H1.
    assert (H2 : JsString.trimStart (JsString.rev t) = JsString.rev t).
    { apply trimStart_fixed. unfold noEdgeSpace, JsString.last in Hedge.
      apply andb_true_iff in Hedge as [_ Hedge].
      destruct (JsString.head (JsString.rev t));
        [now apply negb_true_iff in Hedge|exact I]. }
    rewrite H2. apply rev_involutive. }
  assert (Hgen : forall rest,
            (rest = EmptyString \/
             exists lt rest', rest = String lt rest' /\
                              JsString.isLineTerminator lt = true) ->
            extractHeadings (hashes n +:+ ws +:+ t +:+ rest) =
            h :: extractHeadings (match rest with
                                  | EmptyString => EmptyString
                                  | String _ rest' => rest'
                                  end)).
  { intros rest Hrest.
    pose proof (matchHeadingAt_line n ws t rest Hn Hws Hall Ht Hedge Hline
                  Hrest) as Hm.
    destruct n as [|n']; [lia|].
    unfold extractHeadings. simpl hashes in *. rewrite append_cons in *.
    simpl execLoop. rewrite Hm.
    unfold headingOfMatch. rewrite Htrim. fold h. f_equal.
    replace (S n' + String.length ws + String.length t - 1)
      with (String.length (hashes n' +:+ ws +:+ t))
      by (rewrite !length_append, length_hashes; lia).
    rewrite <- !append_assoc, (append_assoc (hashes n')).
    rewrite execLoop_skip.
    apply execLoop_rest; [exact Hrest|].
    rewrite <- append_assoc, last_append by exact Ht.
    pose proof (last_allChars _ t Hline) as Hlast.
    destruct (JsString.last t) as [c|] eqn:Hl.
    - unfold notLineTerminator in Hlast. now apply negb_true_iff in Hlast.
    - exfalso. unfold JsString.last in Hl.
      destruct (JsString.rev t) as [|d r] eqn:Hr; [|discriminate Hl].
      apply (f_equal JsString.rev) in Hr. rewrite rev_involutive in Hr.
      now apply Ht. }
  split.
  - specialize (Hgen EmptyString (or_introl eq_refl)).
    now rewrite append_nil_r in Hgen.
  - intros lt rest Hlt. apply (Hgen (String lt rest)). right. eauto.
Qed.

Lemma heading_line_is_read_back_witness :
  let h := {| level := 2; text := "Title"; id := "title" |} in
  1 <= 2 <= 6 /\
  allChars JsString.isWhiteSpace Sample.newline = true /\
  noEdgeSpace "Title" = true /\
  allChars notLineTerminator "Title" = true /\
  extractHeadings ("##" +:+ Sample.newline +:+ "Title") = [h] /\
  extractHeadings
    ("##" +:+ Sample.newline +:+ "Title" +:+ Sample.newline +:+ "text") = [h].
Proof.
  intros h.
  assert (Hn : 1 <= 2 <= 6) by lia.
  assert (Hws : Sample.newline <> EmptyString) by discriminate.
  assert (Ht : "Title" <> EmptyString) by discriminate.
  destruct (heading_line_is_read_back 2 Sample.newline "Title" Hn Hws
              eq_refl Ht eq_refl eq_refl) as [H1 H2].
  split; [exact Hn|]. split; [reflexivity|]. split; [reflexivity|].
  split; [reflexivity|]. split; [exact H1|].
  exact (H2 "010"%char "text" eq_refl).
Defined.

(** X5.  A line that is not a heading line gives no heading: the content
    that begins with a line without [#] at its start, or with more than six,
    or with a character other than white space after the signs, gives the
    headings of what follows the line. *)
Theorem other_lines_are_skipped l :
  notHeadingLine l = true ->
  allChars notLineTerminator l = true ->
  extractHeadings l = [] /\
  forall lt rest,
    JsString.isLineTerminator lt = true ->
    extractHeadings (l +:+ String lt rest) = extractHeadings rest.
Proof.
  intros Hnot Hline.
  assert (Hgen : forall s,
            (s = EmptyString \/
             exists lt s', s = String lt s' /\
                           JsString.isLineTerminator lt = true) ->
            extractHeadings (l +:+ s) =
            extractHeadings (match s with
                             | EmptyString => EmptyString
                             | String _ s' => s'
                             end)).
  { intros s Hs.
    pose proof (matchHeadingAt_other l s Hnot Hline Hs) as Hm.
    destruct l as [|c l].
    - rewrite append_nil_l in *. unfold extractHeadings.
      destruct Hs as [->|(lt & s' & -> & Hlt)]; [reflexivity|].
      simpl execLoop. rewrite Hm. now rewrite Hlt.
    - unfold extractHeadings. rewrite append_cons in *.
      simpl execLoop. rewrite Hm.
      simpl in Hline. apply andb_true_iff in Hline as [Hc Hl].
      unfold notLineTerminator in Hc. apply negb_true_iff in Hc.
      rewrite Hc, execLoop_inside by exact Hl.
      now apply execLoop_rest. }
  split.
  - specialize (Hgen EmptyString (or_introl eq_refl)).
    now rewrite append_nil_r in Hgen.
  - intros lt rest Hlt. apply (Hgen (String lt rest)). right. eauto.
Qed.

Lemma other_lines_are_skipped_witness :
  notHeadingLine "#hashtag" = true /\
  allChars notLineTerminator "#hashtag" = true /\
  extractHeadings "#hashtag" = [] /\
  extractHeadings ("#hashtag" +:+ Sample.newline +:+ "# Title") =
    extractHeadings "# Title".
Proof.
  destruct (other_lines_are_skipped "#hashtag" eq_refl eq_refl) as [H1 H2].
  split; [reflexivity|]. split; [reflexivity|]. split; [exact H1|].
  exact (H2 "010"%char "# Title" eq_refl).
Defined.

End ExtractFacts.

(** ** The rendered markup ([src/markdown.ts]) *)

Module RenderFacts.
Import Markdown StringFacts MarkdownFacts.

(** The tag [renderer.heading] returns for a heading. *)
Definition headingTag (h : Heading) : string :=
  "<h" +:+ natToString (level h) +:+ " id=" +:+ quote +:+ id h +:+ quote
    +:+ ">" +:+ text h +:+ "</h" +:+ natToString (level h) +:+ ">".

(** The markup of a token does not depend on the store. *)
Lemma renderToken_markup hljs t :
  forall st1 st2,
    fst (renderToken hljs t st1) = fst (renderToken hljs t st2).
Proof.
  induction t as [text lang|text depth|o c ts IH|html] using Token_ind';
    intros st1 st2; try reflexivity.
  rewrite !renderToken_block.
  assert (H : forall st1 st2,
            fst (renderTokens hljs ts st1) = fst (renderTokens hljs ts st2)).
  { clear st1 st2. induction IH as [|t ts Ht _ IHts]; intros st1 st2.
    - reflexivity.
    - rewrite !renderTokens_cons.
      specialize (Ht st1 st2).
      destruct (renderToken hljs t st1) as [h1 s1].
      destruct (renderToken hljs t st2) as [h2 s2].
      specialize (IHts s1 s2).
      destruct (renderTokens hljs ts s1) as [hs1 s1'].
      destruct (renderTokens hljs ts s2) as [hs2 s2'].
      simpl in *. now rewrite Ht, IHts. }
  specialize (H st1 st2).
  destruct (renderTokens hljs ts st1) as [b1 s1].
  destruct (renderTokens hljs ts st2) as [b2 s2].
  simpl in *. now rewrite H.
Qed.

Lemma renderTokens_markup hljs ts :
  forall st1 st2,
    fst (renderTokens hljs ts st1) = fst (renderTokens hljs ts st2).
Proof.
  induction ts as [|t ts IH]; intros st1 st2; [reflexivity|].
  rewrite !renderTokens_cons.
  pose proof (renderToken_markup hljs t st1 st2) as Ht.
  destruct (renderToken hljs t st1) as [h1 s1].
  destruct (renderToken hljs t st2) as [h2 s2].
  specialize (IH s1 s2).
  destruct (renderTokens hljs ts s1) as [hs1 s1'].
  destruct (renderTokens hljs ts s2) as [hs2 s2'].
  simpl in *. now rewrite Ht, IH.
Qed.

Lemma parseMarkdown_markup hljs lexer content st :
  fst (fst (parseMarkdown hljs lexer content st)) =
  fst (renderTokens hljs (lexer content) (truncate headingsRef st)).
Proof.
  unfold parseMarkdown, marked_parse.
  now destruct (renderTokens hljs (lexer content) (truncate headingsRef st)).
Qed.

(** The tag of every heading of a token is in its markup. *)
Lemma renderToken_tags hljs h t :
  forall st,
    In h (tokenHeadings t) ->
    occursIn (headingTag h) (fst (renderToken hljs t st)).
Proof.
  induction t as [text lang|text depth|o c ts IH|html] using Token_ind';
    intros st Hin; try (now destruct Hin).
  - destruct Hin as [<-|[]]. apply occursIn_refl.
  - rewrite renderToken_block. simpl in Hin.
    assert (H : occursIn (headingTag h) (fst (renderTokens hljs ts st))).
    { revert st Hin. induction IH as [|t ts Ht _ IHts]; intros st Hin.
      - destruct Hin.
      - rewrite renderTokens_cons. simpl in Hin.
        apply in_app_or in Hin. specialize (Ht st).
        destruct (renderToken hljs t st) as [h0 st1].
        specialize (IHts st1).
        destruct (renderTokens hljs ts st1) as [hs st2]. simpl in *.
        destruct Hin as [Hin|Hin].
        + apply occursIn_app_l. auto.
        + apply occursIn_app_r. auto. }
    destruct (renderTokens hljs ts st) as [body st']. simpl in *.
    apply occursIn_app_r, occursIn_app_l. exact H.
Qed.

Lemma renderTokens_tags hljs h ts :
  forall st,
    In h (documentHeadings ts) ->
    occursIn (headingTag h) (fst (renderTokens hljs ts st)).
Proof.
  induction ts as [|t ts IH]; intros st Hin.
  - destruct Hin.
  - rewrite renderTokens_cons. unfold documentHeadings in Hin. simpl in Hin.
    apply in_app_or in Hin.
    pose proof (renderToken_tags hljs h t st) as Ht.
    destruct (renderToken hljs t st) as [h0 st1].
    specialize (IH st1).
    destruct (renderTokens hljs ts st1) as [hs st2]. simpl in *.
    destruct Hin as [Hin|Hin].
    + apply occursIn_app_l. auto.
    + apply occursIn_app_r. auto.
Qed.

(** X6.  What [parseMarkdown] returns depends on the document only: the
    markup and the headings are the same whatever the earlier calls left in
    the store. *)
Theorem result_depends_on_the_document_only hljs lexer content st1 st2 :
  fst (fst (parseMarkdown hljs lexer content st1)) =
  fst (fst (parseMarkdown hljs lexer content st2)) /\
  parsedHeadings hljs lexer content st1 =
  parsedHeadings hljs lexer content st2.
Proof.
  split.
  - rewrite !parseMarkdown_markup. apply renderTokens_markup.
  - now rewrite !parsedHeadings_spec.
Qed.

(** X7.  Every heading returned by [parseMarkdown] has its tag in the markup
    returned with it: the tag of its level, with its id and its text, so
    that a link to the id of a heading of the list finds an element. *)
Theorem every_heading_has_its_tag hljs lexer content st h :
  In h (parsedHeadings hljs lexer content st) ->
  occursIn (headingTag h) (fst (fst (parseMarkdown hljs lexer content st))).
Proof.
  rewrite parsedHeadings_spec, parseMarkdown_markup.
  apply renderTokens_tags.
Qed.

Lemma every_heading_has_its_tag_witness :
  let h := {| level := 1; text := "Second"; id := "second" |} in
  In h (parsedHeadings Sample.hljs Sample.lexer secondDocument initialStore) /\
  occursIn ("<h1 id=" +:+ quote +:+ "second" +:+ quote +:+ ">Second</h1>")
    (fst (fst (parseMarkdown Sample.hljs Sample.lexer secondDocument
                 initialStore))).
Proof.
  intros h.
  assert (Hin : In h (parsedHeadings Sample.hljs Sample.lexer secondDocument
                        initialStore)) by (vm_compute; left; reflexivity).
  split; [exact Hin|].
  exact (every_heading_has_its_tag Sample.hljs Sample.lexer secondDocument
           initialStore h Hin).
Defined.

End RenderFacts.

(** ** What the tree holds ([src/fileTree.ts]) *)

Module TreeCoverage.
Import Fs FileTree FileTreeFacts TreePathFacts.

(** Induction on nodes, with the hypothesis for the children. *)
Section NodeInduction.
Variable P : TreeNode -> Prop.
Hypothesis Hleaf : forall nm pth ty, P (Node nm pth ty None).
Hypothesis Hkids :
  forall nm pth ty kids, Forall P kids -> P (Node nm pth ty (Some kids)).

Fixpoint TreeNode_ind' (n : TreeNode) : P n :=
  match n with
  | Node nm pth ty None => Hleaf nm pth ty
  | Node nm pth ty (Some kids) =>
      Hkids nm pth ty kids
        ((fix all (ks : list TreeNode) : Forall P ks :=
            match ks with
            | [] => @List.Forall_nil _ P
            | k :: ks' => @List.Forall_cons _ P k ks' (TreeNode_ind' k) (all ks')
            end) kids)
  end.

End NodeInduction.

(** The directories [buildFileTree] reads, from [e] down, can be listed:
    [e] is a readable directory, and so is every directory in it whose name
    is not ignored, and so on. *)
Fixpoint listable (e : Entry) : bool :=
  match e with
  | Dir _ readable entries =>
      readable
      && forallb (fun x => ignored (entryName x) || negb (isDirectory x)
                           || listable x) entries
  | _ => false
  end.

(** The entry [target] is reached from the entries [es] by the names
    [names], through directories whose names are not ignored. *)
Fixpoint visible (es : list Entry) (names : list string) (target : Entry)
    : Prop :=
  match names with
  | [] => False
  | nm :: rest =>
      ignored nm = false /\
      match rest with
      | [] => In target es /\ entryName target = nm
      | _ :: _ =>
          exists readable sub,
            In (Dir nm readable sub) es /\ visible sub rest target
      end
  end.

(** The node [n] is reached from the nodes [nodes] by the names [names],
    through directory nodes. *)
Fixpoint nodeAt (nodes : list TreeNode) (names : list string) (n : TreeNode)
    : Prop :=
  match names with
  | [] => False
  | nm :: rest =>
      match rest with
      | [] => In n nodes /\ name n = nm
      | _ :: _ =>
          exists pth kids,
            In (Node nm pth directory (Some kids)) nodes /\
            nodeAt kids rest n
      end
  end.

(** A file node has no children; a directory node has children, one at
    least, with a file node among them or below; and so have its
    children. *)
Fixpoint populated (n : TreeNode) : Prop :=
  match n with
  | Node _ _ ty ch =>
      match ty, ch with
      | file, None => True
      | directory, Some kids =>
          kids <> [] /\ hasMarkdownFiles kids = true /\
          fold_right (fun k rest => populated k /\ rest) True kids
      | _, _ => False
      end
  end.

Definition succeeds {A : Type} (r : option A) : bool :=
  match r with Some _ => true | None => false end.

Lemma nodeAt_nonempty nodes names n : nodeAt nodes names n -> nodes <> [].
Proof.
  destruct names as [|nm [|nm' rest]]; simpl.
  - tauto.
  - intros [Hin _] ->. destruct Hin.
  - intros (pth & kids & Hin & _) ->. destruct Hin.
Qed.

Lemma populated_has_file n : populated n -> nodeHasMarkdown n = true.
Proof.
  destruct n as [nm pth [|] [kids|]]; simpl; try tauto.
Qed.

Section Builder.
Variable conv : Path.Convention.
Variable cwd : string.
Variable localeCompare : string -> string -> Z.
Variable basePath : string.

Lemma build_sorted dirPath dir nodes :
  buildFileTree conv cwd localeCompare dirPath basePath dir = Some nodes ->
  exists es nodes0,
    dir = Dir (entryName dir) true es /\
    scanEntries conv cwd localeCompare dirPath basePath es = Some nodes0 /\
    nodes = sort (compareNodes localeCompare) nodes0.
Proof.
  rewrite buildFileTree_unfold.
  destruct dir as [nm content|nm [|] es|nm]; simpl; try discriminate.
  destruct (scanEntries conv cwd localeCompare dirPath basePath es)
    as [nodes0|] eqn:Hscan; [|discriminate].
  simpl. intros [= <-]. exists es, nodes0. auto.
Qed.

(** *** Failure *)

Lemma scan_succeeds es :
  Forall (fun e => forall dirPath,
            succeeds (buildFileTree conv cwd localeCompare dirPath basePath e) = listable e) es ->
  forall dirPath,
    succeeds (scanEntries conv cwd localeCompare dirPath basePath es) =
    forallb (fun x => ignored (entryName x) || negb (isDirectory x)
                      || listable x) es.
Proof.
  induction 1 as [|entry es Hentry _ IH]; intros dirPath; [reflexivity|].
  rewrite scanEntries_cons. cbn [forallb].
  destruct (ignored (entryName entry)); [apply IH|].
  cbv zeta. cbn [orb]. rewrite <- (IH dirPath).
  remember (listable entry) as L eqn:HL.
  destruct entry as [nm content|nm readable sub|nm];
    simpl isDirectory; simpl isFile; cbv iota; cbn [negb orb andb].
  - simpl. destruct (isMarkdownFile nm); [|reflexivity].
    now destruct (scanEntries conv cwd localeCompare dirPath basePath es).
  - rewrite <- (Hentry (Path.join conv [dirPath; entryName (Dir nm readable sub)])).
    destruct (buildFileTree conv cwd localeCompare _ basePath
                (Dir nm readable sub)) as [children|]; [|reflexivity].
    simpl.
    now destruct (scanEntries conv cwd localeCompare dirPath basePath es).
  - reflexivity.
Qed.

Lemma build_succeeds dir :
  forall dirPath, succeeds (buildFileTree conv cwd localeCompare dirPath basePath dir) = listable dir.
Proof.
  induction dir as [nm content|nm readable es IH|nm] using Entry_ind';
    intros dirPath; rewrite buildFileTree_unfold; try reflexivity.
  destruct readable; [|reflexivity]. simpl.
  rewrite <- (scan_succeeds es IH dirPath).
  now destruct (scanEntries conv cwd localeCompare dirPath basePath es).
Qed.

(** *** The nodes of a listing *)

(** Where a node of a listing comes from. *)
Lemma scan_inv es :
  forall dirPath nodes0 n,
    scanEntries conv cwd localeCompare dirPath basePath es = Some nodes0 ->
    In n nodes0 ->
    ignored (name n) = false /\
    ((exists content,
        In (File (name n) content) es /\ isMarkdownFile (name n) = true /\
        type n = file /\ children n = None) \/
     (exists sub kids dirPath',
        In (Dir (name n) true sub) es /\
        buildFileTree conv cwd localeCompare dirPath' basePath (Dir (name n) true sub) = Some kids /\
        kids <> [] /\
        type n = directory /\ children n = Some kids)).
Proof.
  induction es as [|entry es IH]; intros dirPath nodes0 n Hscan Hin.
  - simpl in Hscan. injection Hscan as <-. destruct Hin.
  - assert (Hlater :
      ignored (name n) = false /\
      ((exists content,
          In (File (name n) content) es /\ isMarkdownFile (name n) = true /\
          type n = file /\ children n = None) \/
       (exists sub kids dirPath',
          In (Dir (name n) true sub) es /\
          buildFileTree conv cwd localeCompare dirPath' basePath (Dir (name n) true sub) = Some kids /\
          kids <> [] /\
          type n = directory /\ children n = Some kids)) ->
      ignored (name n) = false /\
      ((exists content,
          In (File (name n) content) (entry :: es) /\
          isMarkdownFile (name n) = true /\
          type n = file /\ children n = None) \/
       (exists sub kids dirPath',
          In (Dir (name n) true sub) (entry :: es) /\
          buildFileTree conv cwd localeCompare dirPath' basePath (Dir (name n) true sub) = Some kids /\
          kids <> [] /\
          type n = directory /\ children n = Some kids))).
    { intros [Hi [(content & H1 & H2)|(sub & kids & dp & H1 & H2)]];
        (split; [exact Hi|]); [left|right].
      - exists content. split; [now right|exact H2].
      - exists sub, kids, dp. split; [now right|exact H2]. }
    rewrite scanEntries_cons in Hscan.
    destruct (ignored (entryName entry)) eqn:Hign; [eauto|].
    cbv zeta in Hscan.
    destruct entry as [nm content|nm readable sub|nm];
      simpl isDirectory in Hscan; simpl isFile in Hscan; cbv iota in Hscan;
      [| |simpl in Hscan; eauto].
    + simpl in Hscan, Hign.
      destruct (isMarkdownFile nm) eqn:Hmd; [|eauto].
      destruct (scanEntries conv cwd localeCompare dirPath basePath es) as [rest|] eqn:Hrest;
        [|discriminate].
      simpl in Hscan. injection Hscan as <-.
      destruct Hin as [<-|Hin]; [|eauto].
      simpl. split; [exact Hign|]. left. exists content.
      repeat split; [now left|exact Hmd].
    + destruct (buildFileTree conv cwd localeCompare (Path.join conv [dirPath; entryName (Dir nm readable sub)])
                  basePath (Dir nm readable sub)) as [kids|] eqn:Hbuild;
        [|discriminate].
      destruct (scanEntries conv cwd localeCompare dirPath basePath es) as [rest|] eqn:Hrest;
        [|discriminate].
      simpl in Hscan, Hign. injection Hscan as <-.
      assert (Hr : readable = true).
      { apply build_sorted in Hbuild as (es' & _ & Heq & _).
        now injection Heq. }
      subst readable.
      destruct ((0 <? length kids) || hasMarkdownFiles kids) eqn:Hkeep;
        [|eauto].
      destruct Hin as [<-|Hin]; [|eauto].
      simpl. split; [exact Hign|]. right. exists sub, kids. eexists.
      split; [now left|]. split; [exact Hbuild|].
      repeat split. intros ->. discriminate Hkeep.
Qed.

(** A Markdown file of a listing has its node. *)
Lemma scan_file es :
  forall dirPath nodes0 nm content,
    scanEntries conv cwd localeCompare dirPath basePath es = Some nodes0 ->
    In (File nm content) es ->
    ignored nm = false -> isMarkdownFile nm = true ->
    exists pth, In (Node nm pth file None) nodes0.
Proof.
  induction es as [|entry es IH];
    intros dirPath nodes0 nm content Hscan Hin Hign Hmd; [destruct Hin|].
  rewrite scanEntries_cons in Hscan.
  destruct Hin as [->|Hin].
  - simpl in Hscan. rewrite Hign, Hmd in Hscan.
    destruct (scanEntries conv cwd localeCompare dirPath basePath es) as [rest|]; [|discriminate].
    simpl in Hscan. injection Hscan as <-. eexists. now left.
  - assert (Hrest : forall nodes1,
              scanEntries conv cwd localeCompare dirPath basePath es = Some nodes1 ->
              exists pth, In (Node nm pth file None) nodes1) by eauto.
    destruct (ignored (entryName entry)); [eauto|].
    cbv zeta in Hscan.
    destruct entry as [nm' content'|nm' readable sub|nm'];
      simpl isDirectory in Hscan; simpl isFile in Hscan; cbv iota in Hscan;
      [| |simpl in Hscan; eauto].
    + simpl in Hscan. destruct (isMarkdownFile nm'); [|eauto].
      destruct (scanEntries conv cwd localeCompare dirPath basePath es) as [rest|]; [|discriminate].
      simpl in Hscan. injection Hscan as <-.
      destruct (Hrest rest eq_refl) as [pth Hp]. exists pth. now right.
    + destruct (buildFileTree conv cwd localeCompare _ basePath (Dir nm' readable sub)) as [kids|];
        [|discriminate].
      destruct (scanEntries conv cwd localeCompare dirPath basePath es) as [rest|]; [|discriminate].
      simpl in Hscan. injection Hscan as <-.
      destruct (Hrest rest eq_refl) as [pth Hp]. exists pth.
      destruct ((0 <? length kids) || hasMarkdownFiles kids);
        [now right|exact Hp].
Qed.

(** A directory of a listing has been built, and has its node when what
    was built is not empty. *)
Lemma scan_dir es :
  forall dirPath nodes0 nm readable sub,
    scanEntries conv cwd localeCompare dirPath basePath es = Some nodes0 ->
    In (Dir nm readable sub) es ->
    ignored nm = false ->
    exists dirPath' kids,
      buildFileTree conv cwd localeCompare dirPath' basePath (Dir nm readable sub) = Some kids /\
      (kids <> [] ->
       exists pth, In (Node nm pth directory (Some kids)) nodes0).
Proof.
  induction es as [|entry es IH];
    intros dirPath nodes0 nm readable sub Hscan Hin Hign; [destruct Hin|].
  rewrite scanEntries_cons in Hscan.
  destruct Hin as [->|Hin].
  - cbn [entryName isDirectory] in Hscan. rewrite Hign in Hscan.
    cbv zeta in Hscan.
    destruct (buildFileTree conv cwd localeCompare (Path.join conv [dirPath; nm]) basePath
                (Dir nm readable sub)) as [kids|] eqn:Hbuild; [|discriminate].
    destruct (scanEntries conv cwd localeCompare dirPath basePath es) as [rest|]; [|discriminate].
    simpl in Hscan. injection Hscan as <-.
    exists (Path.join conv [dirPath; nm]), kids. split; [exact Hbuild|].
    intros Hne. destruct kids as [|k kids]; [congruence|].
    simpl. eexists. now left.
  - assert (Hrest : forall nodes1,
              scanEntries conv cwd localeCompare dirPath basePath es = Some nodes1 ->
              exists dirPath' kids,
                buildFileTree conv cwd localeCompare dirPath' basePath (Dir nm readable sub) = Some kids /\
                (kids <> [] ->
                 exists pth, In (Node nm pth directory (Some kids)) nodes1))
      by eauto.
    assert (Hweak : forall n0 nodes1,
              (exists dirPath' kids,
                 buildFileTree conv cwd localeCompare dirPath' basePath (Dir nm readable sub) = Some kids /\
                 (kids <> [] ->
                  exists pth, In (Node nm pth directory (Some kids)) nodes1)) ->
              exists dirPath' kids,
                buildFileTree conv cwd localeCompare dirPath' basePath (Dir nm readable sub) = Some kids /\
                (kids <> [] ->
                 exists pth,
                   In (Node nm pth directory (Some kids)) (n0 :: nodes1))).
    { intros n0 nodes1 (dp & kids & Hb & Hk). exists dp, kids.
      split; [exact Hb|]. intros Hne. destruct (Hk Hne) as [pth Hp].
      exists pth. now right. }
    destruct (ignored (entryName entry)); [eauto|].
    cbv zeta in Hscan.
    destruct entry as [nm' content'|nm' readable' sub'|nm'];
      simpl isDirectory in Hscan; simpl isFile in Hscan; cbv iota in Hscan;
      [| |simpl in Hscan; eauto].
    + simpl in Hscan. destruct (isMarkdownFile nm'); [|eauto].
      destruct (scanEntries conv cwd localeCompare dirPath basePath es) as [rest|]; [|discriminate].
      simpl in Hscan. injection Hscan as <-. eauto.
    + destruct (buildFileTree conv cwd localeCompare _ basePath (Dir nm' readable' sub')) as [kids'|];
        [|discriminate].
      destruct (scanEntries conv cwd localeCompare dirPath basePath es) as [rest|]; [|discriminate].
      simpl in Hscan. injection Hscan as <-.
      destruct ((0 <? length kids') || hasMarkdownFiles kids'); eauto.
Qed.

(** *** Files and nodes *)

Lemma visible_file_has_node names :
  forall dirPath dir es nodes nm content,
    buildFileTree conv cwd localeCompare dirPath basePath dir = Some nodes ->
    readdir dir = Some es ->
    visible es names (File nm content) ->
    isMarkdownFile nm = true ->
    exists pth, nodeAt nodes names (Node nm pth file None).
Proof.
  induction names as [|nm0 rest IH];
    intros dirPath dir es nodes nm content Hbuild Hread Hvis Hmd;
    [destruct Hvis|].
  apply build_sorted in Hbuild as (es' & nodes0 & Hdir & Hscan & ->).
  rewrite Hdir in Hread. injection Hread as ->.
  destruct Hvis as [Hign Hvis]. destruct rest as [|nm1 rest].
  - destruct Hvis as [Hin Hnm]. simpl in Hnm. subst nm0.
    destruct (scan_file es dirPath nodes0 nm content Hscan Hin Hign Hmd)
      as [pth Hp].
    exists pth. split; [|reflexivity]. now apply sort_In.
  - destruct Hvis as (readable & sub & Hin & Hvis).
    destruct (scan_dir es dirPath nodes0 nm0 readable sub Hscan Hin Hign)
      as (dirPath' & kids & Hbuild' & Hkids).
    assert (Hr : readable = true).
    { apply build_sorted in Hbuild' as (es' & _ & Heq & _).
      now injection Heq. }
    subst readable.
    destruct (IH dirPath' (Dir nm0 true sub) sub kids nm content Hbuild'
                eq_refl Hvis Hmd) as [pth Hp].
    destruct (Hkids (nodeAt_nonempty _ _ _ Hp)) as [pth0 Hp0].
    exists pth. exists pth0, kids. split; [now apply sort_In|exact Hp].
Qed.

Lemma file_node_has_visible_file names :
  forall dirPath dir es nodes n,
    buildFileTree conv cwd localeCompare dirPath basePath dir = Some nodes ->
    readdir dir = Some es ->
    nodeAt nodes names n -> type n = file ->
    exists content,
      visible es names (File (name n) content) /\
      isMarkdownFile (name n) = true.
Proof.
  induction names as [|nm0 rest IH];
    intros dirPath dir es nodes n Hbuild Hread Hat Hty; [destruct Hat|].
  apply build_sorted in Hbuild as (es' & nodes0 & Hdir & Hscan & ->).
  rewrite Hdir in Hread. injection Hread as ->.
  destruct rest as [|nm1 rest].
  - destruct Hat as [Hin <-]. apply sort_In in Hin.
    destruct (scan_inv es dirPath nodes0 n Hscan Hin)
      as [Hign [(content & Hf & Hmd & _)|(sub & kids & dp & _ & _ & _ & Hd & _)]];
      [|congruence].
    exists content. split; [|exact Hmd]. split; [exact Hign|].
    split; [exact Hf|reflexivity].
  - destruct Hat as (pth & kids & Hin & Hat). apply sort_In in Hin.
    destruct (scan_inv es dirPath nodes0 _ Hscan Hin)
      as [Hign [(content & _ & _ & Hf & _)|(sub & kids' & dp & Hd & Hb & _ & _ & Hk)]];
      [discriminate Hf|].
    simpl in Hign, Hd, Hb, Hk. injection Hk as <-.
    destruct (IH dp (Dir nm0 true sub) sub kids n Hb eq_refl Hat Hty)
      as (content & Hvis & Hmd).
    exists content. split; [|exact Hmd]. split; [exact Hign|].
    exists true, sub. split; assumption.
Qed.

(** *** Directory nodes *)

Lemma scan_populated es :
  Forall (fun e => forall dirPath nodes,
            buildFileTree conv cwd localeCompare dirPath basePath e = Some nodes -> Forall populated nodes)
    es ->
  forall dirPath nodes0,
    scanEntries conv cwd localeCompare dirPath basePath es = Some nodes0 -> Forall populated nodes0.
Proof.
  induction 1 as [|entry es Hentry _ IH]; intros dirPath nodes0 Hscan.
  - simpl in Hscan. injection Hscan as <-. constructor.
  - rewrite scanEntries_cons in Hscan.
    destruct (ignored (entryName entry)); [eauto|].
    cbv zeta in Hscan.
    destruct entry as [nm content|nm readable sub|nm];
      simpl isDirectory in Hscan; simpl isFile in Hscan; cbv iota in Hscan;
      [| |simpl in Hscan; eauto].
    + simpl in Hscan. destruct (isMarkdownFile nm); [|eauto].
      destruct (scanEntries conv cwd localeCompare dirPath basePath es) as [rest|] eqn:Hrest;
        [|discriminate].
      simpl in Hscan. injection Hscan as <-.
      constructor; [exact I|eauto].
    + destruct (buildFileTree conv cwd localeCompare _ basePath (Dir nm readable sub)) as [kids|] eqn:Hbuild;
        [|discriminate].
      destruct (scanEntries conv cwd localeCompare dirPath basePath es) as [rest|] eqn:Hrest;
        [|discriminate].
      simpl in Hscan. injection Hscan as <-.
      destruct ((0 <? length kids) || hasMarkdownFiles kids) eqn:Hkeep;
        [|eauto].
      constructor; [|eauto].
      pose proof (Hentry _ _ Hbuild) as Hkids.
      simpl. destruct kids as [|k kids]; [discriminate Hkeep|].
      split; [discriminate|]. split; [|now apply fold_right_Forall].
      apply Forall_cons_1 in Hkids as [Hk _].
      unfold hasMarkdownFiles. simpl.
      now rewrite (populated_has_file k Hk).
Qed.

Lemma build_populated dir :
  forall dirPath nodes,
    buildFileTree conv cwd localeCompare dirPath basePath dir = Some nodes -> Forall populated nodes.
Proof.
  induction dir as [nm content|nm readable es IH|nm] using Entry_ind';
    intros dirPath nodes Hbuild.
  1,3: rewrite buildFileTree_unfold in Hbuild; discriminate.
  apply build_sorted in Hbuild as (es' & nodes0 & Hdir & Hscan & ->).
  injection Hdir as _ <-.
  apply List.Forall_forall. intros n Hn. apply sort_In in Hn.
  pose proof (scan_populated es IH dirPath nodes0 Hscan) as Hall.
  rewrite List.Forall_forall in Hall. auto.
Qed.

End Builder.

(** *** [hasMarkdownFiles] *)

Lemma nodeHasMarkdown_spec n :
  nodeHasMarkdown n = true <->
  exists m, In m (nodesOf n) /\ type m = file.
Proof.
  induction n as [nm pth ty|nm pth ty kids IH] using TreeNode_ind'.
  - destruct ty; simpl; split; try discriminate.
    + intros _. eexists. split; [now left|reflexivity].
    + reflexivity.
    + intros (m & [<-|[]] & Hm). discriminate Hm.
  - destruct ty.
    + simpl. split; [|reflexivity]. intros _.
      eexists. split; [now left|reflexivity].
    + simpl. rewrite existsb_exists. split.
      * intros (k & Hk & Hhas).
        rewrite List.Forall_forall in IH.
        apply (IH k Hk) in Hhas as (m & Hm & Hty).
        exists m. split; [|exact Hty]. right.
        apply in_flat_map. eauto.
      * intros (m & [<-|Hm] & Hty); [discriminate Hty|].
        apply in_flat_map in Hm as (k & Hk & Hm).
        exists k. split; [exact Hk|].
        rewrite List.Forall_forall in IH. apply (IH k Hk). eauto.
Qed.

(** X8.  [buildFileTree] returns a tree exactly when every directory it
    reads can be listed: the directory it is called on, and below it every
    directory that is not under an ignored name.  One directory that cannot
    be listed makes the whole call fail; what is under an ignored name is
    never read. *)
Theorem build_fails_exactly_on_unlistable
    conv cwd localeCompare dirPath basePath dir :
  succeeds (buildFileTree conv cwd localeCompare dirPath basePath dir) =
  listable dir.
Proof. apply build_succeeds. Qed.

(** X9.  The file nodes of the tree are exactly the Markdown files that can
    be seen from the directory: a regular file whose name is a Markdown
    name, reached through directories whose names are not ignored, has a
    file node at the same names; and a file node stands at the names of
    such a file. *)
Theorem tree_lists_exactly_the_visible_files
    conv cwd localeCompare dirPath basePath dir es nodes names :
  buildFileTree conv cwd localeCompare dirPath basePath dir = Some nodes ->
  readdir dir = Some es ->
  (forall nm content,
     visible es names (File nm content) -> isMarkdownFile nm = true ->
     exists pth, nodeAt nodes names (Node nm pth file None)) /\
  (forall n,
     nodeAt nodes names n -> type n = file ->
     exists content,
       visible es names (File (name n) content) /\
       isMarkdownFile (name n) = true).
Proof.
  intros Hbuild Hread. split.
  - intros nm content. now apply (visible_file_has_node conv cwd localeCompare
                                    basePath names dirPath dir).
  - intros n. now apply (file_node_has_visible_file conv cwd localeCompare
                           basePath names dirPath dir).
Qed.

(** The entries of the sample directory. *)
Definition sampleListing : list Entry := default [] (readdir sampleDocs).

Lemma tree_lists_exactly_the_visible_files_witness :
  let names := ["guide"; "nested"; "deep.MD"] in
  buildFileTree Path.posix "/home" Sample.localeCompare
    "/srv/docs" "/srv/docs" sampleDocs = Some sampleTree /\
  readdir sampleDocs = Some sampleListing /\
  visible sampleListing names (File "deep.MD" "# Deep") /\
  isMarkdownFile "deep.MD" = true /\
  exists pth, nodeAt sampleTree names (Node "deep.MD" pth file None).
Proof.
  intros names.
  assert (Hread : readdir sampleDocs = Some sampleListing) by reflexivity.
  assert (Hvis : visible sampleListing names (File "deep.MD" "# Deep")).
  { split; [reflexivity|].
    exists true, [ Dir "nested" true [ File "deep.MD" "# Deep" ];
                   File "a.markdown" "# A" ].
    split; [do 4 right; left; reflexivity|].
    split; [reflexivity|].
    exists true, [ File "deep.MD" "# Deep" ].
    split; [left; reflexivity|].
    split; [reflexivity|]. split; [left; reflexivity|reflexivity]. }
  split; [exact sample_tree_built|]. split; [exact Hread|].
  split; [exact Hvis|]. split; [reflexivity|].
  exact (proj1 (tree_lists_exactly_the_visible_files Path.posix "/home"
                  Sample.localeCompare "/srv/docs" "/srv/docs" sampleDocs
                  sampleListing sampleTree names sample_tree_built Hread)
           "deep.MD" "# Deep" Hvis eq_refl).
Defined.

(** X10.  In a tree returned by [buildFileTree], at every depth, a file
    node has no children and a directory node has children with a file node
    among them or below: on the children the builder gets back, the test
    for a child and the test for a Markdown file agree. *)
Theorem directory_nodes_hold_a_file
    conv cwd localeCompare dirPath basePath dir nodes :
  buildFileTree conv cwd localeCompare dirPath basePath dir = Some nodes ->
  Forall populated nodes /\
  hasMarkdownFiles nodes = (0 <? length nodes).
Proof.
  intros Hbuild.
  pose proof (build_populated conv cwd localeCompare basePath dir dirPath
                nodes Hbuild) as Hall.
  split; [exact Hall|].
  destruct nodes as [|n nodes]; [reflexivity|].
  apply Forall_cons_1 in Hall as [Hn _].
  unfold hasMarkdownFiles. simpl. now rewrite (populated_has_file n Hn).
Qed.

Lemma directory_nodes_hold_a_file_witness :
  buildFileTree Path.posix "/home" Sample.localeCompare
    "/srv/docs" "/srv/docs" sampleDocs = Some sampleTree /\
  Forall populated sampleTree /\
  hasMarkdownFiles sampleTree = (0 <? length sampleTree).
Proof.
  split; [exact sample_tree_built|].
  exact (directory_nodes_hold_a_file Path.posix "/home" Sample.localeCompare
           "/srv/docs" "/srv/docs" sampleDocs sampleTree sample_tree_built).
Defined.

(** X11.  [hasMarkdownFiles] tells whether a file node is among the nodes
    or below them, at any depth. *)
Theorem hasMarkdownFiles_finds_file_nodes nodes :
  hasMarkdownFiles nodes = true <->
  exists m, In m (flat_map nodesOf nodes) /\ type m = file.
Proof.
  unfold hasMarkdownFiles. rewrite existsb_exists. split.
  - intros (k & Hk & Hhas). apply nodeHasMarkdown_spec in Hhas as (m & Hm & Hty).
    exists m. split; [|exact Hty]. apply in_flat_map. eauto.
  - intros (m & Hm & Hty). apply in_flat_map in Hm as (k & Hk & Hm).
    exists k. split; [exact Hk|]. apply nodeHasMarkdown_spec. eauto.
Qed.

End TreeCoverage.

(** ** Listeners and timers ([src/routes/sse.ts]) *)

Module ChannelFacts.
Import Watcher Sse SseFacts.

(** The connections opened and not yet closed after the steps [steps], in
    the order of their opening; [next] is the number the next connection
    gets, [opened] the connections open before the steps. *)
Fixpoint openAfter (next : nat) (opened : list nat) (steps : list Step)
    : list nat :=
  match steps with
  | [] => opened
  | Connect :: rest => openAfter (S next) (opened ++ [next]) rest
  | Close c :: rest =>
      openAfter next (List.filter (fun x => negb (x =? c)) opened) rest
  | _ :: rest => openAfter next opened rest
  end.

(** A message that is no change event. *)
Definition isControl (m : Message) : bool :=
  match m with
  | FileChange _ => false
  | _ => true
  end.

Section Channel.
Variable conv : Path.Convention.
Variable cwd : string.
Variable watcher : option string.

Lemma run_resources steps :
  forall st,
    consistent st ->
    heartbeats (run conv cwd watcher steps st) =
      openAfter (nextConnection st) (heartbeats st) steps /\
    listeners (run conv cwd watcher steps st) =
      match watcher with
      | Some _ => openAfter (nextConnection st) (listeners st) steps
      | None => listeners st
      end.
Proof.
  induction steps as [|s steps IH]; intros st Hc.
  - simpl. now destruct watcher.
  - rewrite run_cons.
    destruct (IH _ (consistent_step conv cwd watcher st s Hc)) as [Hh Hl].
    rewrite Hh, Hl, nextConnection_step. clear Hh Hl IH.
    destruct Hc as (Hnd & _ & _).
    destruct s as [|type filePath|c|c]; simpl.
    + now destruct watcher.
    + destruct watcher as [basePath|]; [|tauto].
      destruct (handleEvent conv cwd basePath type filePath) as [event|];
        [|tauto].
      destruct (emit_frame event st) as (-> & -> & _). tauto.
    + destruct (existsb (Nat.eqb c) (heartbeats st)); now destruct watcher.
    + destruct watcher; [|tauto].
      now rewrite removeLast_NoDup by exact Hnd.
Qed.

Lemma emittedWhileOpen_none c steps :
  watcher = None ->
  forall next isOpen,
    emittedWhileOpen conv cwd watcher c next isOpen steps = [].
Proof.
  intros ->. induction steps as [|s steps IH]; intros next isOpen;
    [reflexivity|].
  destruct s as [|type filePath|c'|c']; simpl; try apply IH.
  rewrite IH. now destruct isOpen.
Qed.

Lemma deliveries_nil ms :
  flat_map eventOf ms = [] -> forallb isControl ms = true.
Proof.
  induction ms as [|m ms IH]; [reflexivity|].
  destruct m; simpl; try exact IH. discriminate.
Qed.

End Channel.

(** X12.  No listener and no timer is left behind: in every run of the
    channel the timers that are set are those of the connections opened
    and not yet closed, in the order of their opening; with a watcher its
    listeners are the same connections, and without a watcher it has
    none.  Closing a connection twice, or one that never was, changes
    nothing. *)
Theorem resources_follow_the_connections conv cwd watcher steps :
  let st := run conv cwd watcher steps initial in
  heartbeats st = openAfter 0 [] steps /\
  listeners st =
    match watcher with
    | Some _ => openAfter 0 [] steps
    | None => []
    end.
Proof.
  intros st.
  destruct (run_resources conv cwd watcher steps initial consistent_initial)
    as [Hh Hl].
  split; [exact Hh|]. unfold st. rewrite Hl. now destruct watcher.
Qed.

(** X13.  Without a watcher no change event is ever written: whatever the
    run, a connection receives the acknowledgement and heartbeats only. *)
Theorem without_watcher_no_change_event conv cwd steps c :
  let st := run conv cwd None steps initial in
  deliveries c st = [] /\ forallb isControl (received c st) = true.
Proof.
  intros st.
  assert (H : deliveries c st = []).
  { unfold st.
    rewrite (run_deliveries conv cwd None c steps initial false
               consistent_initial).
    - now apply emittedWhileOpen_none.
    - intros [x [=]]. }
  split; [exact H|]. now apply deliveries_nil.
Qed.

End ChannelFacts.

(** ** More on the content route ([src/routes/api.ts]) *)

Module RouteFacts.
Import Markdown Api StringFacts MarkdownFacts ApiFacts Path PathFacts.

(** An image tag opens somewhere in [s], in any case of the letters. *)
Fixpoint mentionsImg (s : string) : bool :=
  startsWithFold s "<img"
  || match s with
     | EmptyString => false
     | String _ s' => mentionsImg s'
     end.

(** [src=] opens somewhere in [s], in any case of the letters. *)
Fixpoint mentionsSrc (s : string) : bool :=
  startsWithFold s "src="
  || match s with
     | EmptyString => false
     | String _ s' => mentionsSrc s'
     end.

(** A reference the callback leaves as it is. *)
Definition isExternal (src : string) : bool :=
  JsString.startsWith src "http://" || JsString.startsWith src "https://"
  || JsString.startsWith src "data:" || JsString.startsWith src "/".

(** The path the callback writes for a relative reference. *)
Definition assetPath (fileDir src : string) : string :=
  Path.normalize posix (Path.join posix ["/assets"; fileDir; src]).

(** Two replies that differ at most by the name they give the file. *)
Definition sameDocument (r1 r2 : Reply) : Prop :=
  match r1, r2 with
  | Content code1 body1, Content code2 body2 =>
      code1 = code2 /\ html body1 = html body2 /\
      headings body1 = headings body2 /\ raw body1 = raw body2
  | _, _ => r1 = r2
  end.

(** *** Markup without an image *)

Lemma matchImgAt_img s :
  startsWithFold s "<img" = false -> matchImgAt s = None.
Proof. unfold matchImgAt. now intros ->. Qed.

Lemma mentionsImg_cons c s :
  mentionsImg (String c s) =
  startsWithFold (String c s) "<img" || mentionsImg s.
Proof. reflexivity. Qed.

Lemma replaceAll_no_img fileDir s :
  mentionsImg s = false -> replaceAll fileDir 0 s = s.
Proof.
  induction s as [|c s IH]; [reflexivity|].
  intros H. rewrite mentionsImg_cons in H.
  apply orb_false_iff in H as [Hhere Hlater].
  cbn [replaceAll]. rewrite (matchImgAt_img _ Hhere).
  now rewrite IH.
Qed.

(** *** A tag with one [src=] *)

Lemma isEmpty_false s : s <> EmptyString -> JsString.isEmpty s = false.
Proof. destruct s; [congruence|reflexivity]. Qed.


Lemma startsWithFold_stop x c y lit :
  SlugFacts.allChars (fun d => negb (Ascii.eqb (JsString.toLowerChar c) d)) lit
  = true ->
  startsWithFold (x +:+ String c y) lit = startsWithFold x lit.
Proof.
  revert x. induction lit as [|b lit IH]; intros x Hlit; [reflexivity|].
  simpl in Hlit. apply andb_true_iff in Hlit as [Hb Hlit].
  destruct x as [|a x].
  - rewrite append_nil_l. simpl. apply negb_true_iff in Hb. now rewrite Hb.
  - rewrite append_cons. simpl. now rewrite IH.
Qed.

Lemma mentionsSrc_cons c s :
  mentionsSrc (String c s) = startsWithFold (String c s) "src=" || mentionsSrc s.
Proof. reflexivity. Qed.

Lemma matchSrcAt_not_src t j :
  startsWithFold (drop j t) "src=" = false -> matchSrcAt t j = None.
Proof. unfold matchSrcAt. now intros ->. Qed.

(** Where no [src=] opens before the end of the tag, none is found. *)
Lemma no_src_before_gt X Z :
  mentionsSrc X = false ->
  forall k, k <= String.length X ->
    startsWithFold (drop k (X +:+ String ">" Z)) "src=" = false.
Proof.
  induction X as [|x X IH]; intros HX k Hk.
  - simpl in Hk. replace k with 0 by lia. reflexivity.
  - rewrite mentionsSrc_cons in HX.
    apply orb_false_iff in HX as [Hhere Hlater].
    destruct k as [|k].
    + change (drop 0 (String x X +:+ String ">" Z))
        with (String x X +:+ String ">" Z).
      now rewrite startsWithFold_stop.
    + rewrite append_cons. simpl drop. apply IH; [exact Hlater|].
      simpl in Hk. lia.
Qed.

Lemma countWhile_before_gt X Z :
  countWhile notGt (X +:+ String ">" Z) <= String.length X.
Proof.
  induction X as [|x X IH]; [reflexivity|].
  rewrite append_cons. simpl. destruct (notGt x); lia.
Qed.

Lemma lastSrc_first t m n :
  (forall j, 2 <= j <= n -> matchSrcAt t j = None) ->
  matchSrcAt t 1 = Some m ->
  1 <= n ->
  lastSrc t n = Some (1, m).
Proof.
  intros Hnone Hone. induction n as [|n IH]; intros Hn; [lia|].
  destruct n as [|n].
  - simpl. now rewrite Hone.
  - cbn [lastSrc]. rewrite (Hnone (S (S n))) by lia.
    apply IH; [|lia]. intros j Hj. apply Hnone. lia.
Qed.

Lemma replaceAll_skip fileDir pre :
  forall s,
    replaceAll fileDir (String.length pre) (pre +:+ s) =
    replaceAll fileDir 0 s.
Proof.
  induction pre as [|c pre IH]; intros s.
  - rewrite append_nil_l. now destruct s.
  - rewrite append_cons. simpl String.length. cbn [replaceAll]. apply IH.
Qed.

Lemma takeWhile_until p a c s :
  SlugFacts.allChars p a = true -> p c = false ->
  takeWhile p (a +:+ String c s) = a.
Proof.
  intros Ha Hc. induction a as [|x a IH].
  - rewrite append_nil_l. simpl. now rewrite Hc.
  - simpl in Ha. apply andb_true_iff in Ha as [Hx Ha].
    rewrite append_cons. simpl. now rewrite Hx, IH.
Qed.

(** The tag [<img src=Q src Q rest >], [Q] being a quote. *)
Definition srcTag (q : ascii) (src rest : string) : string :=
  "<img src=" +:+ String q (src +:+ String q (rest +:+ ">")).

Lemma matchImgAt_srcTag q src rest after :
  isQuote q = true ->
  src <> EmptyString ->
  SlugFacts.allChars notQuote src = true ->
  SlugFacts.allChars notGt rest = true ->
  mentionsSrc (src +:+ String q rest) = false ->
  matchImgAt (srcTag q src rest +:+ after) =
  Some ("<img src=" +:+ String q EmptyString, src, String q (rest +:+ ">")).
Proof.
  intros Hq Hsrc Hnq Hngt Hno.
  set (X := src +:+ String q rest).
  assert (Hs : srcTag q src rest +:+ after =
               "<img src=" +:+ String q (X +:+ String ">" after)).
  { unfold srcTag, X. rewrite !append_assoc, !append_cons.
    rewrite !append_assoc, !append_cons, !append_assoc. reflexivity. }
  rewrite Hs. unfold matchImgAt.
  change (startsWithFold ("<img src=" +:+ String q (X +:+ String ">" after))
            "<img") with true.
  cbv iota.
  change (drop 4 ("<img src=" +:+ String q (X +:+ String ">" after)))
    with (" src=" +:+ String q (X +:+ String ">" after)).
  set (t := " src=" +:+ String q (X +:+ String ">" after)).
  change (match t with
          | EmptyString => None
          | String w _ =>
              if JsString.isWhiteSpace w
              then match lastSrc t (countWhile notGt t) with
                   | Some (j, (src0, suffix, _)) =>
                       Some (take (4 + j + 5)
                               ("<img src=" +:+ String q (X +:+ String ">" after)),
                             src0, suffix)
                   | None => None
                   end
              else None
          end)
    with (match lastSrc t (countWhile notGt t) with
          | Some (j, (src0, suffix, _)) =>
              Some (take (4 + j + 5)
                      ("<img src=" +:+ String q (X +:+ String ">" after)),
                    src0, suffix)
          | None => None
          end).
  assert (Hqgt : notGt q = true).
  { destruct q as [[] [] [] [] [] [] [] []]; try discriminate Hq;
      reflexivity. }
  assert (Hqq : notQuote q = false)
    by (unfold notQuote; now rewrite Hq).
  assert (Hcount : 1 <= countWhile notGt t <= 6 + String.length X).
  { unfold t.
    change (countWhile notGt (" src=" +:+ String q (X +:+ String ">" after)))
      with (5 + countWhile notGt (String q (X +:+ String ">" after))).
    simpl countWhile. rewrite Hqgt.
    pose proof (countWhile_before_gt X after). lia. }
  assert (Hone : matchSrcAt t 1 =
                 Some (src, String q (rest +:+ ">"),
                       1 + 5 + String.length src + 1
                         + String.length rest + 1)).
  { unfold matchSrcAt.
    change (drop 1 t) with ("src=" +:+ String q (X +:+ String ">" after)).
    change (startsWithFold ("src=" +:+ String q (X +:+ String ">" after))
              "src=") with true.
    cbv iota.
    change (drop 4 ("src=" +:+ String q (X +:+ String ">" after)))
      with (String q (X +:+ String ">" after)).
    cbv iota. rewrite Hq. unfold X.
    rewrite !append_assoc, !append_cons.
    rewrite (takeWhile_until notQuote src q _ Hnq Hqq).
    rewrite (isEmpty_false src Hsrc), ExtractFacts.drop_length.
    rewrite (takeWhile_until notGt rest ">" after Hngt eq_refl).
    rewrite ExtractFacts.drop_length. reflexivity. }
  assert (Hnone : forall j, 2 <= j <= countWhile notGt t ->
                    matchSrcAt t j = None).
  { intros j Hj. apply matchSrcAt_not_src.
    destruct j as [|[|[|[|[|[|j]]]]]]; try lia; try reflexivity.
    - change (drop 5 t) with (String q (X +:+ String ">" after)).
      destruct q as [[] [] [] [] [] [] [] []]; try discriminate Hq;
        reflexivity.
    - change (drop (S (S (S (S (S (S j)))))) t)
        with (drop j (X +:+ String ">" after)).
      apply no_src_before_gt; [exact Hno|]. lia. }
  rewrite (lastSrc_first t _ _ Hnone Hone) by lia.
  reflexivity.
Qed.

(** *** Single-file mode *)

Section Routes.
Variable conv : Convention.
Variable cwd : string.
Variable root : Fs.Entry.
Variable hljs : Highlighter.
Variable lexer : string -> list Token.
Variable context : AppContext.

Lemma handler_file_mode f st :
  mode context = FileMode ->
  f <> EmptyString ->
  rejectedByValidation (normalize conv f) = false ->
  let target := resolve conv cwd
                  [resolve conv cwd [basePath context; targetPath context]] in
  handler conv cwd root hljs lexer context (Some f) st =
  if negb (JsString.startsWith target (resolve conv cwd [basePath context]))
  then {| reply := Error 403 "Access denied"; calls := []; store := st |}
  else if negb (FileTree.fileExists conv cwd root target)
  then {| reply := Error 404 "File not found";
          calls := [CallStat target]; store := st |}
  else
    match Fs.readFile conv cwd root target with
    | None =>
        {| reply := Rejected;
           calls := [CallStat target; CallReadFile target];
           store := st |}
    | Some raw =>
        let '((html, copy), st') := parseMarkdown hljs lexer raw st in
        {| reply :=
             Content 200
               {| file := normalize conv f;
                  html := rewriteAssetPaths html EmptyString;
                  headings := readArray st' copy; raw := raw |};
           calls := [CallStat target; CallReadFile target];
           store := st' |}
    end.
Proof.
  intros Hmode Hf Hrej target.
  rewrite handler_valid by assumption.
  unfold underRoot, fileDirOf, resolvedPathOf. rewrite Hmode. reflexivity.
Qed.

End Routes.

(** *** Paths under the root *)

Lemma includes_occurs s p : occursIn p s -> JsString.includes s p = true.
Proof.
  intros (before & after & ->).
  induction before as [|c before IH].
  - rewrite append_nil_l.
    assert (H : JsString.startsWith (p +:+ after) p = true)
      by (apply startsWith_spec; now exists after).
    destruct (p +:+ after); simpl; now rewrite H.
  - rewrite append_cons. simpl. rewrite IH. apply orb_true_r.
Qed.

Lemma splitOn_head isSep s w ws :
  JsString.splitOn isSep s = w :: ws -> exists rest, s = w +:+ rest.
Proof.
  revert w ws. induction s as [|c s IH]; intros w ws; simpl.
  - intros [= <- _]. now exists EmptyString.
  - destruct (isSep c).
    + intros [= <- _]. now exists (String c s).
    + destruct (JsString.splitOn isSep s) as [|w' ws'] eqn:Hs.
      * intros [= <- _]. exists s. reflexivity.
      * intros [= <- _]. destruct (IH w' ws' eq_refl) as [rest ->].
        now exists rest.
Qed.

Lemma splitOn_occurs isSep s seg :
  In seg (JsString.splitOn isSep s) -> occursIn seg s.
Proof.
  revert seg. induction s as [|c s IH]; intros seg; simpl.
  - intros [<-|[]]. apply occursIn_refl.
  - assert (Hlater : occursIn seg s -> occursIn seg (String c s)).
    { intros (before & after & ->). exists (String c before), after.
      reflexivity. }
    destruct (isSep c).
    + intros [<-|Hin]; [|auto].
      exists EmptyString, (String c s). reflexivity.
    + destruct (JsString.splitOn isSep s) as [|w ws] eqn:Hs.
      * intros [<-|[]]. exists EmptyString, s. reflexivity.
      * intros [<-|Hin].
        -- destruct (splitOn_head isSep s w ws Hs) as [rest ->].
           exists EmptyString, rest. reflexivity.
        -- apply Hlater, IH. now right.
Qed.

Lemma no_dots_segments conv s :
  JsString.includes s ".." = false ->
  Forall (fun seg => String.eqb seg ".." = false) (segments conv s).
Proof.
  intros H. apply List.Forall_forall. intros seg Hin.
  destruct (String.eqb_spec seg "..") as [->|]; [|reflexivity].
  apply splitOn_occurs, includes_occurs in Hin. congruence.
Qed.

(** Without [..] the names kept so far stay. *)
Lemma state_no_up allow segs :
  Forall (fun s => String.eqb s ".." = false) segs ->
  forall acc, exists more, state allow acc segs = more ++ acc.
Proof.
  induction 1 as [|s segs Hs _ IH]; intros acc.
  - now exists [].
  - change (state allow acc (s :: segs))
      with (state allow (normalizeStep allow acc s) segs).
    unfold normalizeStep. rewrite Hs.
    destruct (String.eqb s "" || String.eqb s "."); [apply IH|].
    destruct (IH (s :: acc)) as [more ->].
    exists (more ++ [s]). now rewrite <- List.app_assoc.
Qed.

Lemma normalize_nonempty conv p : normalize conv p <> EmptyString.
Proof.
  unfold normalize. destruct (JsString.isEmpty p); [discriminate|].
  cbv zeta.
  destruct (JsString.isEmpty (normalizeString conv p (negb (isAbsolute conv p))))
    eqn:Hbody.
  - destruct (isAbsolute conv p); [discriminate|].
    destruct (hasTrailingSep conv p); discriminate.
  - destruct (isAbsolute conv p); [discriminate|].
    rewrite append_nil_l.
    destruct (normalizeString conv p (negb false)); [discriminate Hbody|].
    discriminate.
Qed.

Lemma joinSegments_prefix conv xs ys :
  exists t, joinSegments conv (xs ++ ys) = joinSegments conv xs +:+ t.
Proof.
  induction xs as [|x xs IH].
  - now exists (joinSegments conv ys).
  - destruct xs as [|x' xs].
    + destruct ys as [|y ys].
      * exists EmptyString. simpl. now rewrite append_nil_r.
      * simpl List.app. rewrite joinSegments_cons. eexists. reflexivity.
    + destruct IH as [t Ht]. exists t.
      simpl List.app in *. rewrite !joinSegments_cons, Ht.
      now rewrite !append_assoc.
Qed.

Section Under.
Variable conv : Convention.
Hypothesis convOk : conventionOk conv.
Variable cwd : string.
Hypothesis cwdAbsolute : isAbsolute conv cwd = true.

(** What is joined to a base without [..] resolves under the base. *)
Lemma absState_join_under base np :
  base <> EmptyString -> np <> EmptyString ->
  Forall (fun s => String.eqb s ".." = false) (segments conv np) ->
  exists more,
    absState conv cwd (join conv [base; np]) = more ++ absState conv cwd base.
Proof.
  intros Hbase Hnp Hsegs. unfold join. simpl List.filter.
  rewrite (isEmpty_false base Hbase), (isEmpty_false np Hnp). simpl negb.
  cbv iota. rewrite joinSegments_cons.
  change (joinSegments conv [np]) with np.
  rewrite (absState_normalize conv convOk cwd)
    by (destruct base; [congruence|discriminate]).
  unfold absState. rewrite isAbsolute_append by exact Hbase.
  rewrite (segments_append_sep conv convOk), state_app.
  apply state_no_up, Hsegs.
Qed.

Lemma resolve_under base full more :
  absState conv cwd full = more ++ absState conv cwd base ->
  JsString.startsWith (resolve conv cwd [full]) (resolve conv cwd [base])
  = true.
Proof.
  intros H.
  rewrite !(resolve_single conv convOk cwd cwdAbsolute), H.
  rewrite List.rev_app_distr.
  destruct (joinSegments_prefix conv (List.rev (absState conv cwd base))
              (List.rev more)) as [t ->].
  apply startsWith_spec. exists t. now rewrite append_assoc.
Qed.

Lemma directory_mode_under context f :
  mode context = DirectoryMode ->
  basePath context <> EmptyString ->
  rejectedByValidation (normalize conv f) = false ->
  underRoot conv cwd context (normalize conv f) = true.
Proof.
  intros Hmode Hbase Hrej. unfold underRoot, resolvedPathOf. rewrite Hmode.
  unfold rejectedByValidation in Hrej.
  apply orb_false_iff in Hrej as [Hdots _].
  destruct (absState_join_under (basePath context) (normalize conv f) Hbase
              (normalize_nonempty conv f) (no_dots_segments conv _ Hdots))
    as [more Hmore].
  now apply (resolve_under _ _ more).
Qed.

End Under.

(** *** The path written for a reference *)

(** The normal form of an absolute path: the separator, the names kept,
    and a separator after them at most. *)
Lemma normalize_absolute conv p :
  isAbsolute conv p = true ->
  exists tail,
    normalize conv p =
      sepString conv
        +:+ joinSegments conv (List.rev (state false [] (segments conv p)))
        +:+ tail /\
    (tail = EmptyString \/ tail = sepString conv).
Proof.
  intros Habs. unfold normalize.
  destruct (JsString.isEmpty p) eqn:Hp.
  { destruct p; [discriminate Habs|discriminate Hp]. }
  cbv zeta. rewrite Habs. simpl negb. unfold normalizeString.
  rewrite normalizeSegments_state.
  destruct (JsString.isEmpty
              (joinSegments conv (List.rev (state false [] (segments conv p)))))
    eqn:Hbody.
  - exists EmptyString. split; [|now left].
    destruct (joinSegments conv (List.rev (state false [] (segments conv p))));
      [|discriminate Hbody].
    now rewrite append_nil_r.
  - exists (if hasTrailingSep conv p then sepString conv else EmptyString).
    split; [reflexivity|]. destruct (hasTrailingSep conv p); auto.
Qed.

Lemma asset_names fileDir src :
  exists J,
    Path.join posix ["/assets"; fileDir; src] = normalize posix J /\
    isAbsolute posix J = true /\
    state false [] (segments posix J) =
    state false ["assets"] (segments posix fileDir ++ segments posix src).
Proof.
  unfold Path.join. simpl List.filter.
  destruct fileDir as [|c fileDir]; destruct src as [|d src];
    simpl JsString.isEmpty; simpl negb; cbv iota.
  - exists "/assets". repeat split.
  - exists ("/assets" +:+ sepString posix +:+ String d src).
    split; [reflexivity|]. split; [reflexivity|].
    rewrite (segments_append_sep posix posix_ok), state_app. reflexivity.
  - exists ("/assets" +:+ sepString posix +:+ String c fileDir).
    split; [reflexivity|]. split; [reflexivity|].
    rewrite (segments_append_sep posix posix_ok), !state_app. reflexivity.
  - exists ("/assets" +:+ sepString posix
              +:+ (String c fileDir +:+ sepString posix +:+ String d src)).
    split; [reflexivity|]. split; [reflexivity|].
    rewrite !(segments_append_sep posix posix_ok), !state_app. reflexivity.
Qed.

Lemma assetPath_form fileDir src :
  exists tail,
    assetPath fileDir src =
      "/" +:+ joinSegments posix
                (List.rev (state false ["assets"]
                             (segments posix fileDir ++ segments posix src)))
          +:+ tail /\
    (tail = EmptyString \/ tail = "/").
Proof.
  unfold assetPath.
  destruct (asset_names fileDir src) as (J & -> & HJ & Hstate).
  destruct (normalize_absolute posix J HJ) as (tailJ & HnJ & _).
  assert (Hq : isAbsolute posix (normalize posix J) = true)
    by (rewrite HnJ; apply (isAbsolute_sepString posix posix_ok)).
  destruct (normalize_absolute posix _ Hq) as (tail & Hn & Htail).
  exists tail. split; [|exact Htail]. rewrite Hn. f_equal. f_equal. f_equal.
  pose proof (absState_normalize posix posix_ok "/" J) as Habs.
  unfold absState in Habs. rewrite Hq, HJ in Habs.
  rewrite Habs by (destruct J; [discriminate HJ|discriminate]).
  now rewrite Hstate.
Qed.

Lemma no_up_segments p :
  hasUpSegment posix p = false ->
  Forall (fun s => String.eqb s ".." = false) (segments posix p).
Proof.
  unfold hasUpSegment. intros H. apply List.Forall_forall. intros s Hs.
  destruct (String.eqb_spec s "..") as [->|]; [|reflexivity].
  assert (Hex : existsb (String.eqb "..") (segments posix p) = true)
    by (apply existsb_exists; exists ".."; split; [exact Hs|reflexivity]).
  congruence.
Qed.

(** *** A request that is served *)

Lemma handler_content conv cwd root hljs lexer context f st raw :
  f <> EmptyString ->
  rejectedByValidation (normalize conv f) = false ->
  underRoot conv cwd context (normalize conv f) = true ->
  Fs.readFile conv cwd root
    (resolvedPathOf conv cwd context (normalize conv f)) = Some raw ->
  reply (handler conv cwd root hljs lexer context (Some f) st) =
  Content 200
    {| file := normalize conv f;
       html :=
         rewriteAssetPaths (fst (fst (parseMarkdown hljs lexer raw st)))
           (fileDirOf conv context (normalize conv f));
       headings := documentHeadings (lexer raw);
       raw := raw |}.
Proof.
  intros Hf Hrej Hunder Hraw. rewrite handler_valid by assumption.
  cbv zeta. rewrite Hunder. simpl negb. cbv iota.
  rewrite (readFile_exists conv cwd root _ raw Hraw). simpl negb. cbv iota.
  rewrite Hraw.
  pose proof (parseMarkdown_result hljs lexer raw st) as Hp.
  destruct (parseMarkdown hljs lexer raw st) as [[html copy] st'].
  destruct Hp as (_ & _ & Hheadings & _). simpl.
  now rewrite Hheadings.
Qed.

(** X14.  Markup in which no image tag opens is returned as it is by
    [rewriteAssetPaths], whatever the directory of the file. *)
Theorem markup_without_image_is_unchanged html fileDir :
  mentionsImg html = false -> rewriteAssetPaths html fileDir = html.
Proof. apply replaceAll_no_img. Qed.

Lemma markup_without_image_is_unchanged_witness :
  let html := "<h1 id=" +:+ quote +:+ "imgs" +:+ quote +:+ ">Imgs</h1>" in
  mentionsImg html = false /\ rewriteAssetPaths html "docs" = html.
Proof.
  intros html.
  assert (H : mentionsImg html = false) by reflexivity.
  split; [exact H|].
  exact (markup_without_image_is_unchanged html "docs" H).
Defined.

(** X15.  In single-file mode the route serves the target whatever name is
    asked for: two requests that pass the first validation make the same
    calls to the file system and get the same answer, up to the name the
    answer repeats. *)
Theorem file_mode_serves_the_target
    conv cwd root hljs lexer context f1 f2 st :
  mode context = FileMode ->
  f1 <> EmptyString -> f2 <> EmptyString ->
  rejectedByValidation (normalize conv f1) = false ->
  rejectedByValidation (normalize conv f2) = false ->
  let out1 := handler conv cwd root hljs lexer context (Some f1) st in
  let out2 := handler conv cwd root hljs lexer context (Some f2) st in
  calls out1 = calls out2 /\ store out1 = store out2 /\
  sameDocument (reply out1) (reply out2).
Proof.
  intros Hmode Hf1 Hf2 Hrej1 Hrej2 out1 out2. subst out1 out2.
  rewrite !handler_file_mode by assumption. cbv zeta.
  set (target := resolve conv cwd
                   [resolve conv cwd [basePath context; targetPath context]]).
  destruct (negb (JsString.startsWith target
                    (resolve conv cwd [basePath context])));
    [repeat split|].
  destruct (negb (FileTree.fileExists conv cwd root target));
    [repeat split|].
  destruct (Fs.readFile conv cwd root target) as [raw|]; [|repeat split].
  destruct (parseMarkdown hljs lexer raw st) as [[html copy] st'].
  repeat split.
Qed.

Lemma file_mode_serves_the_target_witness :
  let context :=
    {| mode := FileMode; targetPath := "readme.md";
       basePath := "/srv/docs" |} in
  let serve f :=
    contentHandler posix "/home" sampleDisk Sample.hljs Sample.lexer
      context (Some f) initialStore in
  rejectedByValidation (normalize posix "readme.md") = false /\
  rejectedByValidation (normalize posix "guide/other.md") = false /\
  calls (serve "readme.md") = calls (serve "guide/other.md") /\
  sameDocument (reply (serve "readme.md")) (reply (serve "guide/other.md")).
Proof.
  intros context serve.
  destruct (file_mode_serves_the_target posix "/home" sampleDisk Sample.hljs
              Sample.lexer context "readme.md" "guide/other.md" initialStore
              eq_refl ltac:(discriminate) ltac:(discriminate) eq_refl eq_refl)
    as (Hcalls & _ & Hsame).
  split; [reflexivity|]. split; [reflexivity|].
  split; [exact Hcalls|exact Hsame].
Defined.

(** X16.  In directory mode, with a base directory that is given, the
    second validation never fails: the path resolved for a request that
    passed the first one begins with the resolved root, so that no request
    at all is answered [Access denied]. *)
Theorem directory_mode_never_denies_access
    conv cwd root hljs lexer context file st :
  conventionOk conv ->
  isAbsolute conv cwd = true ->
  mode context = DirectoryMode ->
  basePath context <> EmptyString ->
  (forall f,
     rejectedByValidation (normalize conv f) = false ->
     underRoot conv cwd context (normalize conv f) = true) /\
  reply (handler conv cwd root hljs lexer context file st)
  <> Error 403 "Access denied".
Proof.
  intros Hconv Hcwd Hmode Hbase.
  assert (Hunder : forall f,
            rejectedByValidation (normalize conv f) = false ->
            underRoot conv cwd context (normalize conv f) = true).
  { intros f. now apply directory_mode_under. }
  split; [exact Hunder|].
  destruct file as [f|]; [|discriminate].
  destruct (string_dec f EmptyString) as [->|Hf]; [discriminate|].
  destruct (rejectedByValidation (normalize conv f)) eqn:Hrej.
  - rewrite handler_invalid by assumption. discriminate.
  - rewrite handler_valid by assumption. cbv zeta.
    rewrite (Hunder f Hrej). simpl negb. cbv iota.
    destruct (negb (FileTree.fileExists conv cwd root _)); [discriminate|].
    destruct (Fs.readFile conv cwd root _) as [raw|]; [|discriminate].
    destruct (parseMarkdown hljs lexer raw st) as [[html copy] st'].
    discriminate.
Qed.

Lemma directory_mode_never_denies_access_witness :
  conventionOk posix /\
  isAbsolute posix "/home" = true /\
  mode sampleContext = DirectoryMode /\
  underRoot posix "/home" sampleContext (normalize posix "a/./b//c.md") = true /\
  reply (sampleHandler (Some "a/./b//c.md")) <> Error 403 "Access denied".
Proof.
  assert (Hcwd : isAbsolute posix "/home" = true) by reflexivity.
  assert (Hbase : basePath sampleContext <> EmptyString) by discriminate.
  destruct (directory_mode_never_denies_access posix "/home" sampleDisk
              Sample.hljs Sample.lexer sampleContext (Some "a/./b//c.md")
              initialStore posix_ok Hcwd eq_refl Hbase) as [Hunder Hreply].
  split; [exact posix_ok|]. split; [exact Hcwd|]. split; [reflexivity|].
  split; [exact (Hunder "a/./b//c.md" eq_refl)|exact Hreply].
Defined.

(** X17.  The callback of [rewriteAssetPaths] leaves an external reference
    as it is, and writes for any other a path that begins with a slash.
    When no name of the directory of the file and none of the reference is
    [..], that path is [/assets] or lies under it; a reference with [..]
    can leave it, as [../../logo.png] does for a file at the root. *)
Theorem rewritten_reference_is_rooted fileDir prefix src suffix :
  (isExternal src = true ->
   rewriteMatch fileDir prefix src suffix = prefix +:+ src +:+ suffix) /\
  (isExternal src = false ->
   rewriteMatch fileDir prefix src suffix =
     prefix +:+ assetPath fileDir src +:+ suffix) /\
  JsString.startsWith (assetPath fileDir src) "/" = true /\
  (hasUpSegment posix fileDir = false -> hasUpSegment posix src = false ->
   exists rest,
     assetPath fileDir src = "/assets" +:+ rest /\
     (rest = EmptyString \/ JsString.startsWith rest "/" = true)) /\
  assetPath "." "../../logo.png" = "/logo.png".
Proof.
  split; [|split; [|split; [|split]]].
  - unfold rewriteMatch, isExternal. now intros ->.
  - unfold rewriteMatch, isExternal, assetPath. now intros ->.
  - destruct (assetPath_form fileDir src) as (tail & -> & _). reflexivity.
  - intros Hdir Hsrc.
    destruct (assetPath_form fileDir src) as (tail & -> & Htail).
    destruct (state_no_up false
                (segments posix fileDir ++ segments posix src)
                ltac:(apply Forall_app; split; now apply no_up_segments)
                ["assets"]) as [more ->].
    rewrite List.rev_app_distr. simpl List.rev. simpl List.app.
    destruct (List.rev more) as [|x l].
    + exists tail. split; [reflexivity|].
      destruct Htail as [->| ->]; [now left|now right].
    + rewrite joinSegments_cons. eexists. split.
      * rewrite !append_assoc. reflexivity.
      * right. reflexivity.
  - reflexivity.
Qed.

(** X24.  An image tag of the form [<img src=Q src Q rest >] -- [Q] a
    quote, the reference without a quote, the rest without [>] and no other
    [src=] in the tag -- is rewritten as meant: the reference is replaced
    by what the callback gives for it, the rest of the tag is kept, and the
    markup after the tag is rewritten in its turn. *)
Theorem image_with_one_src_is_rewritten q src rest after fileDir :
  isQuote q = true ->
  src <> EmptyString ->
  SlugFacts.allChars notQuote src = true ->
  SlugFacts.allChars notGt rest = true ->
  mentionsSrc (src +:+ String q rest) = false ->
  rewriteAssetPaths (srcTag q src rest +:+ after) fileDir =
  srcTag q (if isExternal src then src else assetPath fileDir src) rest
    +:+ rewriteAssetPaths after fileDir.
Proof.
  intros Hq Hsrc Hnq Hngt Hno.
  pose proof (matchImgAt_srcTag q src rest after Hq Hsrc Hnq Hngt Hno) as Hm.
  unfold rewriteAssetPaths.
  assert (Hs : srcTag q src rest +:+ after =
               String "<"
                 (("img src=" +:+ String q (src +:+ String q (rest +:+ ">")))
                    +:+ after)) by reflexivity.
  rewrite Hs in Hm |- *. cbn [replaceAll]. rewrite Hm.
  replace (String.length ("<img src=" +:+ String q EmptyString)
             + String.length src + String.length (String q (rest +:+ ">")) - 1)
    with (String.length
            ("img src=" +:+ String q (src +:+ String q (rest +:+ ">")))).
  2:{ rewrite !append_cons, append_nil_l. simpl String.length.
      rewrite ?length_append. simpl String.length.
      rewrite ?length_append. simpl String.length. lia. }
  rewrite replaceAll_skip. f_equal.
  unfold rewriteMatch, srcTag.
  fold (isExternal src). fold (assetPath fileDir src).
  destruct (isExternal src); rewrite !append_assoc; reflexivity.
Qed.

Lemma image_with_one_src_is_rewritten_witness :
  let q := "034"%char in
  isQuote q = true /\
  SlugFacts.allChars notQuote "../assets/photo.jpg" = true /\
  mentionsSrc ("../assets/photo.jpg" +:+ String q (" alt=" +:+ quote
                 +:+ "photo" +:+ quote)) = false /\
  rewriteAssetPaths
    ("<img src=" +:+ quote +:+ "../assets/photo.jpg" +:+ quote +:+ " alt="
       +:+ quote +:+ "photo" +:+ quote +:+ ">" +:+ "<p>text</p>") "docs" =
  "<img src=" +:+ quote +:+ "/assets/assets/photo.jpg" +:+ quote +:+ " alt="
    +:+ quote +:+ "photo" +:+ quote +:+ ">" +:+ "<p>text</p>".
Proof.
  intros q.
  assert (Hsrc : "../assets/photo.jpg" <> EmptyString) by discriminate.
  split; [reflexivity|]. split; [reflexivity|]. split; [reflexivity|].
  exact (image_with_one_src_is_rewritten q "../assets/photo.jpg"
           (" alt=" +:+ quote +:+ "photo" +:+ quote) "<p>text</p>" "docs"
           eq_refl Hsrc eq_refl eq_refl eq_refl).
Defined.

End RouteFacts.

(** ** The watcher ([src/watcher.ts]) *)

Module WatcherFacts.
Import Watcher StringFacts SlugFacts Path PathFacts TreePathFacts.

(** *** The Markdown test on a path and on a name *)

Lemma startsWith_stop x c y p :
  allChars (fun d => negb (Ascii.eqb d c)) p = true ->
  JsString.startsWith (x +:+ String c y) p = JsString.startsWith x p.
Proof.
  revert x. induction p as [|b p IH]; intros x Hp; [reflexivity|].
  simpl in Hp. apply andb_true_iff in Hp as [Hb Hp].
  destruct x as [|a x].
  - rewrite append_nil_l. simpl.
    apply negb_true_iff in Hb. rewrite Ascii.eqb_sym in Hb. now rewrite Hb.
  - rewrite append_cons. simpl. now rewrite IH.
Qed.

Lemma endsWith_after x c y p :
  allChars (fun d => negb (Ascii.eqb d c)) (JsString.rev p) = true ->
  JsString.endsWith (x +:+ String c y) p = JsString.endsWith y p.
Proof.
  intros Hp. unfold JsString.endsWith.
  rewrite rev_append, rev_cons, append_assoc, append_cons, append_nil_l.
  now apply startsWith_stop.
Qed.

Lemma isMarkdownFile_after dir c name :
  JsString.toLowerChar c = c ->
  allChars (fun d => negb (Ascii.eqb d c)) ".markdown" = true ->
  isMarkdownFile (dir +:+ String c name) = FileTree.isMarkdownFile name.
Proof.
  intros Hlow Hc. unfold isMarkdownFile, FileTree.isMarkdownFile.
  rewrite toLowerCase_append. simpl JsString.toLowerCase. rewrite Hlow.
  rewrite !endsWith_after; [reflexivity| |].
  - destruct c as [[] [] [] [] [] [] [] []]; try discriminate Hc; reflexivity.
  - destruct c as [[] [] [] [] [] [] [] []]; try discriminate Hc; reflexivity.
Qed.

(** *** The pattern of the watch *)

Lemma dotAtBoundary_after dir c rest :
  Ascii.eqb c "/" || Ascii.eqb c "\" = true ->
  forall atBoundary,
    WatchOptions.dotAtBoundary atBoundary
      (dir +:+ String c (String "." rest)) = true.
Proof.
  intros Hc. induction dir as [|d dir IH]; intros atBoundary.
  - rewrite append_nil_l. simpl. rewrite Hc. simpl. apply orb_true_r.
  - rewrite append_cons. simpl. rewrite IH. apply orb_true_r.
Qed.

Lemma watch_ignores_names c name :
  Ascii.eqb c "/" || Ascii.eqb c "\" = true ->
  FileTree.ignored name = true ->
  forall dir rest,
    WatchOptions.ignored (name +:+ rest) = true /\
    WatchOptions.ignored (dir +:+ String c (name +:+ rest)) = true.
Proof.
  intros Hc Hname dir rest.
  apply FileTreeFacts.ignored_spec in Hname.
  assert (Hword : forall word,
            name = word ->
            JsString.includes (name +:+ rest) word = true /\
            JsString.includes (dir +:+ String c (name +:+ rest)) word = true).
  { intros word ->. split; apply RouteFacts.includes_occurs.
    - exists EmptyString, rest. reflexivity.
    - exists (dir +:+ String c EmptyString), rest.
      rewrite !append_assoc. reflexivity. }
  assert (Hdot : forall tail,
            name = String "." tail ->
            WatchOptions.dotAtBoundary true (name +:+ rest) = true /\
            WatchOptions.dotAtBoundary true
              (dir +:+ String c (name +:+ rest)) = true).
  { intros tail ->. split; [reflexivity|].
    rewrite append_cons. now apply dotAtBoundary_after. }
  unfold WatchOptions.ignored.
  destruct Hname as [H|[H|[H|[H|[H|[H|[]]]]]]]; symmetry in H.
  - destruct (Hword _ H) as [-> ->]. split; now rewrite !orb_true_r.
  - destruct (Hdot _ H) as [-> ->]. split; reflexivity.
  - destruct (Hdot _ H) as [-> ->]. split; reflexivity.
  - destruct (Hword _ H) as [-> ->]. split; now rewrite !orb_true_r.
  - destruct (Hdot _ H) as [-> ->]. split; reflexivity.
  - destruct (Hdot _ H) as [-> ->]. split; reflexivity.
Qed.

(** *** The file an event names *)

Section Events.
Variable conv : Convention.
Hypothesis convOk : conventionOk conv.
Variable cwd : string.
Hypothesis cwdAbsolute : isAbsolute conv cwd = true.

(** Two paths with the same resolved form have the same names. *)
Lemma absState_resolve a b :
  resolve conv cwd [a] = resolve conv cwd [b] ->
  absState conv cwd a = absState conv cwd b.
Proof.
  intros H. apply (f_equal (names conv)) in H.
  rewrite !(resolve_single conv convOk cwd cwdAbsolute) in H.
  rewrite !(names_resolved conv convOk) in H;
    try (apply List.Forall_rev;
         apply absState_regular || apply (absState_sepFree conv convOk)).
  apply (f_equal (@List.rev _)) in H. now rewrite !List.rev_involutive in H.
Qed.

Lemma handleEvent_under basePath type filePath l :
  l <> [] ->
  Forall (fun x => validName conv x = true) l ->
  resolve conv cwd [filePath] =
    resolve conv cwd [entryPath conv basePath l] ->
  isMarkdownFile filePath = true ->
  handleEvent conv cwd basePath type filePath =
  Some {| type := type; file := joinSegments conv l |}.
Proof.
  intros Hne Hl Hres Hmd. unfold handleEvent. rewrite Hmd. simpl.
  f_equal. f_equal.
  apply (relative_under conv convOk cwd cwdAbsolute basePath filePath l Hne Hl).
  rewrite (absState_resolve _ _ Hres).
  now apply absState_entryPath.
Qed.

End Events.

(** X18.  The watcher and the tree builder decide alike which files are
    Markdown: the test of the watcher on a path that ends in a separator
    and a name gives what the test of the builder gives on the name. *)
Theorem watcher_tests_the_name dir name :
  isMarkdownFile (dir +:+ "/" +:+ name) = FileTree.isMarkdownFile name /\
  isMarkdownFile (dir +:+ "\" +:+ name) = FileTree.isMarkdownFile name.
Proof. split; now apply isMarkdownFile_after. Qed.

(** X19.  What the tree builder leaves out by its name, the watch leaves
    out too: a path with one of the six ignored names as a name, at its
    start or after a separator, with anything after it, matches the
    pattern given to the watch. *)
Theorem ignored_names_are_not_watched name dir rest :
  FileTree.ignored name = true ->
  WatchOptions.ignored (name +:+ rest) = true /\
  WatchOptions.ignored (dir +:+ "/" +:+ name +:+ rest) = true /\
  WatchOptions.ignored (dir +:+ "\" +:+ name +:+ rest) = true.
Proof.
  intros H.
  destruct (watch_ignores_names "/" name eq_refl H dir rest) as [H1 H2].
  destruct (watch_ignores_names "\" name eq_refl H dir rest) as [_ H3].
  auto.
Qed.

Lemma ignored_names_are_not_watched_witness :
  FileTree.ignored ".git" = true /\
  WatchOptions.ignored ".git/config" = true /\
  WatchOptions.ignored "/srv/docs/.git/config" = true /\
  WatchOptions.ignored "C:\docs\.git/config" = true.
Proof.
  split; [reflexivity|].
  destruct (ignored_names_are_not_watched ".git" "/srv/docs" "/config"
              eq_refl) as (H1 & H2 & _).
  destruct (ignored_names_are_not_watched ".git" "C:\docs" "/config"
              eq_refl) as (_ & _ & H3).
  split; [exact H1|]. split; [exact H2|exact H3].
Defined.

(** X20.  The event for a Markdown file under the base directory names the
    file as the tree does: when the path reported resolves to the entry
    reached from the base by the names [l], the event carries those names
    joined by the separator of the host, which is the relative path the
    tree builder computes for the entry. *)
Theorem event_names_the_file_as_the_tree_does
    conv cwd basePath type filePath l :
  conventionOk conv ->
  isAbsolute conv cwd = true ->
  l <> [] ->
  Forall (fun x => validName conv x = true) l ->
  resolve conv cwd [filePath] =
    resolve conv cwd [entryPath conv basePath l] ->
  isMarkdownFile filePath = true ->
  handleEvent conv cwd basePath type filePath =
    Some {| type := type; file := joinSegments conv l |} /\
  relative conv cwd basePath (entryPath conv basePath l) =
    joinSegments conv l.
Proof.
  intros Hconv Hcwd Hne Hl Hres Hmd. split.
  - now apply handleEvent_under.
  - apply (relative_under conv Hconv cwd Hcwd basePath _ l Hne Hl).
    now apply absState_entryPath.
Qed.

Lemma event_names_the_file_as_the_tree_does_witness :
  let l := ["guide"; "nested"; "deep.MD"] in
  conventionOk posix /\
  isAbsolute posix "/home" = true /\
  Forall (fun x => validName posix x = true) l /\
  resolve posix "/home" ["/srv/docs/guide/./nested/deep.MD"] =
    resolve posix "/home" [entryPath posix "/srv/docs" l] /\
  isMarkdownFile "/srv/docs/guide/./nested/deep.MD" = true /\
  handleEvent posix "/home" "/srv/docs" change
    "/srv/docs/guide/./nested/deep.MD" =
    Some {| type := change; file := "guide/nested/deep.MD" |}.
Proof.
  intros l.
  assert (Hcwd : isAbsolute posix "/home" = true) by reflexivity.
  assert (Hne : l <> []) by discriminate.
  assert (Hl : Forall (fun x => validName posix x = true) l)
    by (repeat constructor).
  assert (Hres : resolve posix "/home" ["/srv/docs/guide/./nested/deep.MD"] =
                 resolve posix "/home" [entryPath posix "/srv/docs" l])
    by reflexivity.
  split; [exact posix_ok|]. split; [exact Hcwd|]. split; [exact Hl|].
  split; [exact Hres|]. split; [reflexivity|].
  exact (proj1 (event_names_the_file_as_the_tree_does posix "/home"
                  "/srv/docs" change "/srv/docs/guide/./nested/deep.MD" l
                  posix_ok Hcwd Hne Hl Hres eq_refl)).
Defined.

End WatcherFacts.

(** ** The command and the server ([src/cli.ts], [src/server.ts]) *)

Module CliFacts.
Import Markdown Api Cli TreeRoute StringFacts MarkdownFacts ApiFacts.
Import Path PathFacts ExtractFacts RouteFacts.

Section WithConvention.
Variable conv : Convention.
Hypothesis convOk : conventionOk conv.

(** *** Names and separators *)

Lemma sepFree_append a b :
  sepFree conv (a +:+ b) = sepFree conv a && sepFree conv b.
Proof.
  induction a as [|c a IH]; [reflexivity|].
  rewrite append_cons. simpl. now rewrite IH, andb_assoc.
Qed.

Lemma sepFree_rev s : sepFree conv (JsString.rev s) = sepFree conv s.
Proof.
  induction s as [|c s IH]; [reflexivity|].
  rewrite rev_cons, sepFree_append, IH. simpl.
  now rewrite andb_true_r, andb_comm.
Qed.

Lemma rev_nonempty s : s <> EmptyString -> JsString.rev s <> EmptyString.
Proof.
  intros Hs H. apply (f_equal JsString.rev) in H.
  rewrite rev_involutive in H. now apply Hs.
Qed.

Lemma rev_sepString : JsString.rev (sepString conv) = sepString conv.
Proof. reflexivity. Qed.

Lemma joinSegments_snoc l nm :
  l <> [] ->
  joinSegments conv (l ++ [nm]) =
  joinSegments conv l +:+ sepString conv +:+ nm.
Proof.
  intros Hne. induction l as [|x l IH]; [congruence|].
  destruct l as [|y l].
  - reflexivity.
  - simpl List.app in *. rewrite !joinSegments_cons, IH by discriminate.
    now rewrite !append_assoc.
Qed.

Lemma joinSegments_nonempty l :
  l <> [] -> Forall (fun s => kept s = true) l ->
  joinSegments conv l <> EmptyString.
Proof.
  intros Hne Hk H. apply Hne, (joinSegments_empty conv l Hk).
  now rewrite H.
Qed.

(** The path made of the separator and the names [l ++ [nm]], read from
    its end. *)
Lemma rev_rooted l nm :
  exists Z,
    sepString conv +:+ joinSegments conv (l ++ [nm]) =
      String (sep conv) (joinSegments conv (l ++ [nm])) /\
    JsString.rev (joinSegments conv (l ++ [nm])) =
      JsString.rev nm +:+ Z /\
    match l with
    | [] => Z = EmptyString
    | _ :: _ =>
        Z = String (sep conv) (JsString.rev (joinSegments conv l))
    end.
Proof.
  destruct l as [|x l].
  - exists EmptyString. repeat split. simpl List.app.
    change (joinSegments conv [nm]) with nm. now rewrite append_nil_r.
  - eexists. split; [reflexivity|]. split; [|reflexivity].
    rewrite joinSegments_snoc by discriminate.
    rewrite !rev_append, rev_sepString, append_assoc. reflexivity.
Qed.

(** *** The scans of [dirname] and [basename] *)

Lemma dirnameScan_name y c X :
  sepFree conv y = true -> isSep conv c = true ->
  dirnameScan conv false (y +:+ String c X) = Some X.
Proof.
  intros Hy Hc. induction y as [|d y IH].
  - rewrite append_nil_l. simpl. now rewrite Hc.
  - simpl in Hy. apply andb_true_iff in Hy as [Hd Hy].
    apply negb_true_iff in Hd. rewrite append_cons. simpl. rewrite Hd. auto.
Qed.

Lemma dirnameScan_none y :
  sepFree conv y = true ->
  forall matchedSlash, dirnameScan conv matchedSlash y = None.
Proof.
  induction y as [|d y IH]; intros Hy matchedSlash; [reflexivity|].
  simpl in Hy. apply andb_true_iff in Hy as [Hd Hy].
  apply negb_true_iff in Hd. simpl. rewrite Hd. auto.
Qed.

Lemma basenameScan_name y c X :
  sepFree conv y = true -> isSep conv c = true ->
  basenameScan conv false (y +:+ String c X) = y.
Proof.
  intros Hy Hc. induction y as [|d y IH].
  - rewrite append_nil_l. simpl. now rewrite Hc.
  - simpl in Hy. apply andb_true_iff in Hy as [Hd Hy].
    apply negb_true_iff in Hd. rewrite append_cons. simpl. rewrite Hd.
    now rewrite IH.
Qed.

Lemma first_not_sep y :
  y <> EmptyString -> sepFree conv y = true ->
  exists d y', y = String d y' /\ isSep conv d = false /\
               sepFree conv y' = true.
Proof.
  destruct y as [|d y]; [congruence|]. intros _ H. simpl in H.
  apply andb_true_iff in H as [Hd Hy]. apply negb_true_iff in Hd. eauto.
Qed.

Lemma dirname_rooted l nm :
  Forall (fun s => kept s = true) l ->
  nm <> EmptyString -> sepFree conv nm = true ->
  dirname conv (sepString conv +:+ joinSegments conv (l ++ [nm])) =
  sepString conv +:+ joinSegments conv l.
Proof.
  intros Hk Hnm Hfree.
  destruct (rev_rooted l nm) as (Z & -> & Hrev & HZ).
  unfold dirname. rewrite Hrev.
  destruct convOk as [Hsep _]. rewrite Hsep.
  destruct (first_not_sep (JsString.rev nm) (rev_nonempty nm Hnm)
              ltac:(now rewrite sepFree_rev)) as (d & y & Hy & Hd & Hfy).
  destruct l as [|x l].
  - rewrite HZ, append_nil_r.
    rewrite dirnameScan_none by (now rewrite sepFree_rev).
    simpl. now rewrite append_nil_r.
  - rewrite HZ, Hy, append_cons.
    cbn [dirnameScan]. rewrite Hd.
    rewrite (dirnameScan_name y (sep conv) _ Hfy Hsep).
    assert (Hne : JsString.isEmpty (JsString.rev (joinSegments conv (x :: l)))
                  = false).
    { apply isEmpty_false, rev_nonempty, joinSegments_nonempty;
        [discriminate|exact Hk]. }
    rewrite Hne, andb_false_r, rev_involutive. reflexivity.
Qed.

Lemma basename_rooted l nm :
  nm <> EmptyString -> sepFree conv nm = true ->
  basename conv (sepString conv +:+ joinSegments conv (l ++ [nm])) = nm.
Proof.
  intros Hnm Hfree.
  destruct (rev_rooted l nm) as (Z & -> & Hrev & HZ).
  unfold basename. rewrite rev_cons, Hrev, append_assoc.
  destruct convOk as [Hsep _].
  destruct (first_not_sep (JsString.rev nm) (rev_nonempty nm Hnm)
              ltac:(now rewrite sepFree_rev)) as (d & y & Hy & Hd & Hfy).
  assert (Hscan : forall W c,
            isSep conv c = true ->
            basenameScan conv true (JsString.rev nm +:+ String c W) =
            JsString.rev nm).
  { intros W c Hc. rewrite Hy, append_cons. cbn [basenameScan]. rewrite Hd.
    now rewrite (basenameScan_name y c W Hfy Hc). }
  destruct l as [|x l]; rewrite HZ.
  - rewrite append_nil_l, Hscan by exact Hsep. apply rev_involutive.
  - rewrite append_cons, Hscan by exact Hsep. apply rev_involutive.
Qed.

(** *** Resolved paths *)

Section Resolved.
Variable cwd : string.
Hypothesis cwdAbsolute : isAbsolute conv cwd = true.

Lemma absState_rooted l :
  Forall (fun x => regular x = true) l ->
  Forall (fun x => sepFree conv x = true) l ->
  absState conv cwd (sepString conv +:+ joinSegments conv l) = List.rev l.
Proof.
  intros Hr Hf. unfold absState.
  rewrite (isAbsolute_sepString conv convOk).
  rewrite <- (append_nil_l (sepString conv +:+ joinSegments conv l)).
  rewrite (segments_append_sep conv convOk).
  destruct l as [|x l]; [reflexivity|].
  rewrite (segments_joinSegments conv convOk) by (discriminate || assumption).
  change (segments conv EmptyString ++ x :: l)
    with (EmptyString :: x :: l).
  rewrite state_empty_l, state_regular by exact Hr.
  apply List.app_nil_r.
Qed.

(** The names of the resolved form of [p], first name first. *)
Definition resolvedNames (p : string) : list string :=
  List.rev (absState conv cwd p).

Lemma resolvedNames_regular p :
  Forall (fun x => regular x = true) (resolvedNames p).
Proof. apply List.Forall_rev, absState_regular. Qed.

Lemma resolvedNames_sepFree p :
  Forall (fun x => sepFree conv x = true) (resolvedNames p).
Proof. apply List.Forall_rev, (absState_sepFree conv convOk). Qed.

Lemma resolvedNames_kept p :
  Forall (fun x => kept x = true) (resolvedNames p).
Proof.
  eapply List.Forall_impl; [|apply resolvedNames_regular].
  apply regular_kept.
Qed.

Lemma resolve_names p :
  resolve conv cwd [p] = sepString conv +:+ joinSegments conv (resolvedNames p).
Proof. apply (resolve_single conv convOk cwd cwdAbsolute). Qed.

Lemma resolve_rooted l :
  Forall (fun x => regular x = true) l ->
  Forall (fun x => sepFree conv x = true) l ->
  resolve conv cwd [sepString conv +:+ joinSegments conv l] =
  sepString conv +:+ joinSegments conv l.
Proof.
  intros Hr Hf. rewrite resolve_names. unfold resolvedNames.
  rewrite absState_rooted by assumption. now rewrite List.rev_involutive.
Qed.

Lemma resolve_resolved p :
  resolve conv cwd [resolve conv cwd [p]] = resolve conv cwd [p].
Proof.
  rewrite (resolve_names p).
  apply resolve_rooted; [apply resolvedNames_regular|apply resolvedNames_sepFree].
Qed.

Lemma resolve_pair_name a nm :
  isAbsolute conv a = true ->
  validName conv nm = true ->
  resolve conv cwd [a; nm] =
  sepString conv +:+ joinSegments conv (resolvedNames a ++ [nm]).
Proof.
  intros Ha Hnm.
  pose proof (validName_regular conv nm Hnm) as Hreg.
  pose proof (validName_sepFree conv nm Hnm) as Hfree.
  assert (Hrel : isAbsolute conv nm = false)
    by (apply isAbsolute_name; [apply regular_kept|]; assumption).
  assert (Hne : JsString.isEmpty nm = false)
    by (destruct nm; [discriminate Hreg|reflexivity]).
  assert (Hae : JsString.isEmpty a = false)
    by (destruct a; [discriminate Ha|reflexivity]).
  unfold resolve. simpl List.app.
  assert (Hloop : resolveLoop conv [nm; a; cwd] EmptyString =
                  (a +:+ sepString conv
                     +:+ (nm +:+ sepString conv +:+ EmptyString), true)).
  { simpl. now rewrite Hne, Hrel, Hae, Ha. }
  rewrite Hloop. unfold normalizeString.
  rewrite normalizeSegments_state, !(segments_append_sep conv convOk),
    !state_app.
  rewrite (segments_name conv nm Hfree).
  unfold resolvedNames, absState. rewrite Ha. simpl negb.
  set (A := state false [] (segments conv a)).
  change (state false A [nm]) with (normalizeStep false A nm).
  rewrite (step_regular false A nm Hreg). reflexivity.
Qed.

(** A relative path made of names is its own normal form. *)
Lemma hasTrailingSep_names l :
  l <> [] ->
  Forall (fun x => validName conv x = true) l ->
  hasTrailingSep conv (joinSegments conv l) = false.
Proof.
  intros Hne Hl.
  destruct (exists_last Hne) as (l' & nm & ->).
  apply Forall_app in Hl as [_ Hnm].
  apply Forall_cons_1 in Hnm as [Hnm _].
  destruct (rev_rooted l' nm) as (Z & _ & Hrev & _).
  unfold hasTrailingSep, JsString.last. rewrite Hrev.
  destruct (first_not_sep (JsString.rev nm)) as (d & y & -> & Hd & _).
  - apply rev_nonempty. pose proof (validName_regular conv nm Hnm) as H.
    intros ->. discriminate H.
  - rewrite sepFree_rev. now apply validName_sepFree.
  - exact Hd.
Qed.

Lemma normalize_names l :
  l <> [] ->
  Forall (fun x => validName conv x = true) l ->
  normalize conv (joinSegments conv l) = joinSegments conv l.
Proof.
  intros Hne Hl.
  pose proof (validNames_regular conv l Hl) as Hreg.
  pose proof (validNames_sepFree conv l Hl) as Hfree.
  pose proof (validNames_kept conv l Hl) as Hkept.
  pose proof (joinSegments_nonempty l Hne Hkept) as Hp.
  unfold normalize. rewrite (isEmpty_false _ Hp). cbv zeta.
  assert (Habs : isAbsolute conv (joinSegments conv l) = false).
  { rewrite <- (append_nil_r (joinSegments conv l)).
    now apply isAbsolute_joinSegments. }
  rewrite Habs, (hasTrailingSep_names l Hne Hl). simpl negb.
  unfold normalizeString.
  rewrite normalizeSegments_state,
    (segments_joinSegments conv convOk l Hne Hfree),
    (state_regular true [] l Hreg).
  rewrite List.app_nil_r, List.rev_involutive, (isEmpty_false _ Hp).
  now rewrite append_nil_l, append_nil_r.
Qed.

Lemma rooted_under l l' :
  JsString.startsWith (sepString conv +:+ joinSegments conv (l ++ l'))
    (sepString conv +:+ joinSegments conv l) = true.
Proof.
  destruct (joinSegments_prefix conv l l') as [t ->].
  apply startsWith_spec. exists t. now rewrite append_assoc.
Qed.

(** What is at a resolved path is what its names lead to. *)
Lemma entryAt_rooted root l :
  Forall (fun x => regular x = true) l ->
  Forall (fun x => sepFree conv x = true) l ->
  Fs.entryAt conv cwd root (sepString conv +:+ joinSegments conv l) =
  Fs.lookup root l.
Proof.
  intros Hr Hf. unfold Fs.entryAt.
  now rewrite resolve_rooted, (names_resolved conv convOk) by assumption.
Qed.

(** *** The context of the command *)

(** The context made for a regular file: the directory above the file is
    the base, its name is the target. *)
Lemma contextOf_file root inputPath context :
  Fs.isDirectory root = true ->
  contextOf conv cwd root inputPath = Some context ->
  mode context = FileMode ->
  exists l nm name content,
    resolvedNames inputPath = l ++ [nm] /\
    validName conv nm = true /\
    Fs.lookup root (l ++ [nm]) = Some (Fs.File name content) /\
    basePath context = sepString conv +:+ joinSegments conv l /\
    targetPath context = nm.
Proof.
  intros Hroot Hctx Hmode. unfold contextOf, Fs.stat in Hctx.
  rewrite resolve_names in Hctx.
  rewrite entryAt_rooted in Hctx
    by (apply resolvedNames_regular || apply resolvedNames_sepFree).
  destruct (Fs.lookup root (resolvedNames inputPath)) as [stats|] eqn:Hlook;
    [|discriminate Hctx].
  simpl in Hctx. injection Hctx as <-. simpl in Hmode.
  destruct stats as [name content|name readable es|name];
    try discriminate Hmode.
  cbn [basePath targetPath Fs.isFile].
  destruct (resolvedNames inputPath) as [|x L] eqn:HL.
  { destruct root; simpl in Hlook; try discriminate Hroot.
    discriminate Hlook. }
  destruct (@exists_last _ (x :: L) ltac:(discriminate)) as (l & nm & Heq).
  pose proof (resolvedNames_regular inputPath) as Hreg.
  pose proof (resolvedNames_sepFree inputPath) as Hfree.
  pose proof (resolvedNames_kept inputPath) as Hkept.
  rewrite HL, Heq in Hreg, Hfree, Hkept. rewrite Heq in Hlook. rewrite Heq.
  apply Forall_app in Hreg as [_ Hreg].
  apply Forall_cons_1 in Hreg as [Hreg _].
  apply Forall_app in Hfree as [_ Hfree].
  apply Forall_cons_1 in Hfree as [Hfree _].
  apply Forall_app in Hkept as [Hkept _].
  assert (Hnm : nm <> EmptyString) by (intros ->; discriminate Hreg).
  exists l, nm, name, content. split; [reflexivity|]. split.
  { unfold validName. now rewrite Hreg, Hfree. }
  split; [exact Hlook|]. split.
  - now apply dirname_rooted.
  - now apply basename_rooted.
Qed.

Lemma contextOf_directory root inputPath context :
  contextOf conv cwd root inputPath = Some context ->
  mode context = DirectoryMode ->
  basePath context = resolve conv cwd [inputPath] /\
  targetPath context = ".".
Proof.
  unfold contextOf.
  destruct (Fs.stat conv cwd root (resolve conv cwd [inputPath]))
    as [stats|]; [|discriminate].
  simpl. intros [= <-]. simpl.
  destruct (Fs.isFile stats); [discriminate|]. now split.
Qed.

Lemma contextOf_leads_back root inputPath context :
  Fs.isDirectory root = true ->
  contextOf conv cwd root inputPath = Some context ->
  let fullPath := resolve conv cwd [inputPath] in
  resolve conv cwd [watchPathOf conv context] = fullPath /\
  match mode context with
  | FileMode =>
      resolve conv cwd [basePath context; targetPath context] = fullPath /\
      forall normalizedPath,
        resolvedPathOf conv cwd context normalizedPath = fullPath /\
        underRoot conv cwd context normalizedPath = true
  | DirectoryMode =>
      basePath context = fullPath /\ targetPath context = "."
  end.
Proof.
  intros Hroot Hctx fullPath.
  destruct (mode context) eqn:Hmode.
  - destruct (contextOf_file root inputPath context Hroot Hctx Hmode)
      as (l & nm & name & content & HL & Hnm & _ & Hbase & Htarget).
    pose proof (resolvedNames_regular inputPath) as Hreg.
    pose proof (resolvedNames_sepFree inputPath) as Hfree.
    rewrite HL in Hreg, Hfree.
    apply Forall_app in Hreg as [Hreg _].
    apply Forall_app in Hfree as [Hfree _].
    assert (Hfull : fullPath = sepString conv +:+ joinSegments conv (l ++ [nm])).
    { unfold fullPath. now rewrite resolve_names, HL. }
    assert (Hnames : resolvedNames (basePath context) = l).
    { unfold resolvedNames. rewrite Hbase.
      rewrite (absState_rooted l Hreg Hfree).
      apply List.rev_involutive. }
    assert (Hpair : resolve conv cwd [basePath context; targetPath context]
                    = fullPath).
    { rewrite Htarget, resolve_pair_name.
      - now rewrite Hnames, Hfull.
      - rewrite Hbase. apply (isAbsolute_sepString conv convOk).
      - exact Hnm. }
    split; [|split; [exact Hpair|]].
    + unfold watchPathOf. rewrite Hmode, Htarget.
      rewrite resolve_names. unfold resolvedNames.
      rewrite (absState_join conv convOk cwd _ nm Hnm).
      simpl List.rev.
      change (List.rev (absState conv cwd (basePath context)))
        with (resolvedNames (basePath context)).
      now rewrite Hnames, Hfull.
    + intros normalizedPath.
      assert (Hres : resolvedPathOf conv cwd context normalizedPath
                     = fullPath).
      { unfold resolvedPathOf. rewrite Hmode, Hpair. unfold fullPath.
        apply resolve_resolved. }
      split; [exact Hres|]. unfold underRoot. rewrite Hres, Hfull, Hbase.
      rewrite (resolve_rooted l Hreg Hfree).
      apply rooted_under.
  - destruct (contextOf_directory root inputPath context Hctx Hmode)
      as [Hbase Htarget].
    split; [|now split].
    unfold watchPathOf. rewrite Hmode, Hbase.
    apply resolve_resolved.
Qed.

(** *** The file the command is given *)

Lemma sepFree_slash nm :
  isSep conv "/" = true -> sepFree conv nm = true -> sepFree posix nm = true.
Proof.
  intros Hslash. induction nm as [|c nm IH]; simpl; [reflexivity|].
  intros H. apply andb_true_iff in H as [Hc Hnm].
  rewrite (IH Hnm), andb_true_r. apply negb_true_iff in Hc.
  apply negb_true_iff. destruct (Ascii.eqb_spec c "/") as [->|]; congruence.
Qed.

Lemma filenameOf_name nm :
  isSep conv "/" = true -> validName conv nm = true -> filenameOf nm = nm.
Proof.
  intros Hslash Hnm. unfold filenameOf.
  change (JsString.splitOn (fun c => Ascii.eqb c "/") nm)
    with (segments posix nm).
  rewrite (segments_name posix nm)
    by (apply sepFree_slash; [exact Hslash|now apply validName_sepFree]).
  simpl List.last.
  pose proof (validName_regular conv nm Hnm) as Hreg.
  destruct nm; [discriminate Hreg|reflexivity].
Qed.

Lemma name_passes_validation nm :
  isSep conv "/" = true -> validName conv nm = true ->
  JsString.includes nm ".." = false ->
  normalize conv nm = nm /\ rejectedByValidation (normalize conv nm) = false.
Proof.
  intros Hslash Hnm Hdots.
  assert (Hnorm : normalize conv nm = nm).
  { change nm with (joinSegments conv [nm]) at 1 2.
    apply normalize_names; [discriminate|now constructor]. }
  split; [exact Hnorm|]. rewrite Hnorm. unfold rejectedByValidation.
  rewrite Hdots. simpl.
  pose proof (validName_regular conv nm Hnm) as Hreg.
  pose proof (validName_sepFree conv nm Hnm) as Hfree.
  destruct nm as [|d nm]; [discriminate Hreg|]. simpl in Hfree |- *.
  apply andb_true_iff in Hfree as [Hd _]. apply negb_true_iff in Hd.
  destruct (Ascii.eqb_spec d "/") as [->|]; [congruence|reflexivity].
Qed.

Lemma contextOf_serves root hljs lexer localeCompare inputPath context
    name content st :
  isSep conv "/" = true ->
  Fs.isDirectory root = true ->
  contextOf conv cwd root inputPath = Some context ->
  Fs.stat conv cwd root (resolve conv cwd [inputPath]) =
    Some (Fs.File name content) ->
  let target := targetPath context in
  mode context = FileMode /\
  treeHandler conv cwd root localeCompare context =
    Some [FileTree.Node target target FileTree.file None] /\
  (JsString.includes target ".." = false ->
   reply (handler conv cwd root hljs lexer context (Some target) st) =
   Content 200
     {| file := target;
        html :=
          rewriteAssetPaths (fst (fst (parseMarkdown hljs lexer content st)))
            EmptyString;
        headings := documentHeadings (lexer content);
        raw := content |}).
Proof.
  intros Hslash Hroot Hctx Hstat target.
  assert (Hmode : mode context = FileMode).
  { unfold contextOf in Hctx. rewrite Hstat in Hctx. simpl in Hctx.
    now injection Hctx as <-. }
  destruct (contextOf_file root inputPath context Hroot Hctx Hmode)
    as (l & nm & name' & content' & HL & Hnm & _ & Hbase & Htarget).
  destruct (contextOf_leads_back root inputPath context Hroot Hctx)
    as [_ Hback].
  rewrite Hmode in Hback. destruct Hback as [_ Hback].
  subst target. rewrite Htarget.
  split; [exact Hmode|]. split.
  - unfold treeHandler. rewrite Hmode, Htarget. cbv zeta.
    now rewrite (filenameOf_name nm Hslash Hnm).
  - intros Hdots.
    destruct (name_passes_validation nm Hslash Hnm Hdots) as [Hnorm Hrej].
    destruct (Hback (normalize conv nm)) as [Hres Hunder].
    assert (Hne : nm <> EmptyString).
    { pose proof (validName_regular conv nm Hnm) as Hreg.
      intros ->. discriminate Hreg. }
    assert (Hraw : Fs.readFile conv cwd root
                     (resolvedPathOf conv cwd context (normalize conv nm))
                   = Some content).
    { rewrite Hres. unfold Fs.readFile. unfold Fs.stat in Hstat.
      now rewrite Hstat. }
    rewrite (handler_content conv cwd root hljs lexer context nm st content
               Hne Hrej Hunder Hraw).
    unfold fileDirOf. now rewrite Hmode, Hnorm.
Qed.

End Resolved.

End WithConvention.

(** The disk of the samples, seen from the file [readme.md]. *)
Definition sampleFileContext : AppContext :=
  {| mode := FileMode; targetPath := "readme.md"; basePath := "/srv/docs" |}.



(** The disk of the samples, with the command given the file [readme.md]
    in the working directory [/srv/docs]. *)
Definition sampleCommand : option AppContext :=
  contextOf posix "/srv/docs" sampleDisk "readme.md".

(** X21.  The context the command makes of its argument leads back to the
    argument.  For a regular file the base directory and the target
    resolve to the file, so that in single-file mode every request reads
    that file, under the root; for anything else the base directory is
    the resolved argument.  In both modes the path given to the watcher
    resolves to the argument. *)
Theorem command_serves_what_it_is_given conv cwd root inputPath context :
  conventionOk conv ->
  isAbsolute conv cwd = true ->
  Fs.isDirectory root = true ->
  contextOf conv cwd root inputPath = Some context ->
  let fullPath := resolve conv cwd [inputPath] in
  resolve conv cwd [watchPathOf conv context] = fullPath /\
  match mode context with
  | FileMode =>
      resolve conv cwd [basePath context; targetPath context] = fullPath /\
      forall normalizedPath,
        resolvedPathOf conv cwd context normalizedPath = fullPath /\
        underRoot conv cwd context normalizedPath = true
  | DirectoryMode =>
      basePath context = fullPath /\ targetPath context = "."
  end.
Proof.
  intros Hconv Hcwd Hroot Hctx.
  eapply contextOf_leads_back; eassumption.
Qed.

Lemma command_serves_what_it_is_given_witness :
  conventionOk posix /\
  isAbsolute posix "/srv/docs" = true /\
  Fs.isDirectory sampleDisk = true /\
  sampleCommand = Some sampleFileContext /\
  resolve posix "/srv/docs" [watchPathOf posix sampleFileContext] =
    "/srv/docs/readme.md" /\
  resolve posix "/srv/docs" ["/srv/docs"; "readme.md"] =
    "/srv/docs/readme.md".
Proof.
  assert (Hcwd : isAbsolute posix "/srv/docs" = true) by reflexivity.
  assert (Hctx : sampleCommand = Some sampleFileContext) by reflexivity.
  destruct (command_serves_what_it_is_given posix "/srv/docs" sampleDisk
              "readme.md" sampleFileContext posix_ok Hcwd eq_refl Hctx)
    as (Hwatch & Hpair & _).
  split; [exact posix_ok|]. split; [exact Hcwd|]. split; [reflexivity|].
  split; [exact Hctx|]. split; [exact Hwatch|exact Hpair].
Defined.

(** X22.  The command given a regular file serves that file: the mode is
    single-file, the tree has one node, a file whose name and path are the
    name of the file, and asking the content route for that name -- when it
    holds no two dots in a row -- is answered 200 with the text of the file
    and the headings of the document. *)
Theorem named_file_is_served
    conv cwd root hljs lexer localeCompare inputPath context name content st :
  conventionOk conv ->
  isSep conv "/" = true ->
  isAbsolute conv cwd = true ->
  Fs.isDirectory root = true ->
  contextOf conv cwd root inputPath = Some context ->
  Fs.stat conv cwd root (resolve conv cwd [inputPath]) =
    Some (Fs.File name content) ->
  let target := targetPath context in
  mode context = FileMode /\
  treeHandler conv cwd root localeCompare context =
    Some [FileTree.Node target target FileTree.file None] /\
  (JsString.includes target ".." = false ->
   reply (handler conv cwd root hljs lexer context (Some target) st) =
   Content 200
     {| file := target;
        html :=
          rewriteAssetPaths (fst (fst (parseMarkdown hljs lexer content st)))
            EmptyString;
        headings := documentHeadings (lexer content);
        raw := content |}).
Proof.
  intros Hconv Hslash Hcwd Hroot Hctx Hstat.
  eapply contextOf_serves; eassumption.
Qed.

Lemma named_file_is_served_witness :
  sampleCommand = Some sampleFileContext /\
  Fs.stat posix "/srv/docs" sampleDisk
    (resolve posix "/srv/docs" ["readme.md"]) =
    Some (Fs.File "readme.md" "# Hello World") /\
  treeHandler posix "/srv/docs" sampleDisk Sample.localeCompare
    sampleFileContext =
    Some [FileTree.Node "readme.md" "readme.md" FileTree.file None] /\
  reply (handler posix "/srv/docs" sampleDisk Sample.hljs Sample.lexer
           sampleFileContext (Some "readme.md") initialStore) =
  Content 200
    {| file := "readme.md";
       html := "<h1 id=" +:+ quote +:+ "hello-world" +:+ quote
                 +:+ ">Hello World</h1>";
       headings :=
         [{| level := 1; text := "Hello World"; id := "hello-world" |}];
       raw := "# Hello World" |}.
Proof.
  assert (Hctx : sampleCommand = Some sampleFileContext) by reflexivity.
  assert (Hstat : Fs.stat posix "/srv/docs" sampleDisk
                    (resolve posix "/srv/docs" ["readme.md"]) =
                  Some (Fs.File "readme.md" "# Hello World")) by reflexivity.
  destruct (named_file_is_served posix "/srv/docs" sampleDisk Sample.hljs
              Sample.lexer Sample.localeCompare "readme.md" sampleFileContext
              "readme.md" "# Hello World" initialStore posix_ok eq_refl
              eq_refl eq_refl Hctx Hstat) as (_ & Htree & Hserve).
  split; [exact Hctx|]. split; [exact Hstat|]. split; [exact Htree|].
  etransitivity; [exact (Hserve eq_refl)|].
  vm_compute. reflexivity.
Defined.

End CliFacts.

(** ** From the tree to the content ([src/routes/api.ts]) *)

Module FetchFacts.
Import Markdown Api TreeRoute StringFacts MarkdownFacts ApiFacts.
Import Path PathFacts Fs FileTree FileTreeFacts TreePathFacts TreeCoverage.
Import RouteFacts CliFacts.

(** No name is twice in [l]. *)
Fixpoint noRepeat (l : list string) : bool :=
  match l with
  | [] => true
  | x :: l' => negb (existsb (String.eqb x) l') && noRepeat l'
  end.

(** No directory, from [e] down, lists a name twice. *)
Fixpoint distinctNames (e : Entry) : bool :=
  match e with
  | Dir _ _ entries =>
      noRepeat (List.map entryName entries) && forallb distinctNames entries
  | _ => true
  end.

(** The first entry of a listing with a given name. *)
Fixpoint findEntry (es : list Entry) (nm : string) : option Entry :=
  match es with
  | [] => None
  | e :: es' => if String.eqb (entryName e) nm then Some e else findEntry es' nm
  end.

(** *** Looking names up *)

Lemma lookup_nil e : lookup e [] = Some e.
Proof. now destruct e. Qed.

Lemma lookup_step n readable es nm rest :
  lookup (Dir n readable es) (nm :: rest) =
  e ← findEntry es nm; lookup e rest.
Proof.
  simpl. induction es as [|e es IH]; [reflexivity|].
  simpl. destruct (String.eqb (entryName e) nm); [reflexivity|exact IH].
Qed.

Lemma lookup_app xs :
  forall e ys, lookup e (xs ++ ys) = d ← lookup e xs; lookup d ys.
Proof.
  induction xs as [|x xs IH]; intros e ys.
  - now rewrite lookup_nil.
  - destruct e as [n content|n readable es|n]; try reflexivity.
    simpl List.app. rewrite !lookup_step.
    destruct (findEntry es x) as [e|]; [|reflexivity]. simpl. apply IH.
Qed.

Lemma findEntry_In e es :
  In e es -> noRepeat (List.map entryName es) = true ->
  findEntry es (entryName e) = Some e.
Proof.
  induction es as [|e0 es IH]; intros Hin Hno; [destruct Hin|].
  simpl in Hno. apply andb_true_iff in Hno as [Hfirst Hno].
  apply negb_true_iff in Hfirst. simpl.
  destruct Hin as [->|Hin]; [now rewrite String.eqb_refl|].
  destruct (String.eqb_spec (entryName e0) (entryName e)) as [Heq|];
    [|auto].
  exfalso.
  assert (Hex : existsb (String.eqb (entryName e0)) (List.map entryName es)
                = true).
  { apply existsb_exists. exists (entryName e). split.
    - now apply in_map.
    - now apply String.eqb_eq. }
  congruence.
Qed.

Lemma visible_lookup names :
  forall n readable es target,
    visible es names target ->
    distinctNames (Dir n readable es) = true ->
    lookup (Dir n readable es) names = Some target.
Proof.
  induction names as [|nm rest IH]; intros n readable es target Hvis Hdist;
    [destruct Hvis|].
  simpl in Hdist. apply andb_true_iff in Hdist as [Hno Hsub].
  destruct Hvis as [_ Hvis]. rewrite lookup_step.
  destruct rest as [|nm' rest].
  - destruct Hvis as [Hin <-].
    rewrite (findEntry_In target es Hin Hno). exact (lookup_nil target).
  - destruct Hvis as (readable' & sub & Hin & Hvis).
    pose proof (findEntry_In _ es Hin Hno) as Hfind. simpl in Hfind.
    rewrite Hfind. rewrite forallb_forall in Hsub.
    exact (IH nm readable' sub target Hvis (Hsub _ Hin)).
Qed.

Lemma visible_valid conv names :
  forall es target,
    visible es names target ->
    forallb (validEntry conv) es = true ->
    Forall (fun x => validName conv x = true) names.
Proof.
  induction names as [|nm rest IH]; intros es target Hvis Hvalid;
    [constructor|].
  destruct Hvis as [_ Hvis]. rewrite forallb_forall in Hvalid.
  destruct rest as [|nm' rest].
  - destruct Hvis as [Hin <-]. constructor; [|constructor].
    specialize (Hvalid target Hin).
    destruct target; simpl in Hvalid |- *;
      now apply andb_true_iff in Hvalid as [? _].
  - destruct Hvis as (readable & sub & Hin & Hvis).
    specialize (Hvalid _ Hin). simpl in Hvalid.
    apply andb_true_iff in Hvalid as [Hnm Hsub].
    constructor; [exact Hnm|]. now apply (IH sub target).
Qed.

Lemma visible_nonempty es names target : visible es names target -> names <> [].
Proof. destruct names; [intros []|discriminate]. Qed.

(** *** The path of a node *)

Lemma nodeAt_path conv cwd basePath names :
  forall ancestors nodes n,
    Forall (pathsOk conv cwd basePath ancestors) nodes ->
    nodeAt nodes names n ->
    path n = joinSegments conv (ancestors ++ names) /\
    resolve conv cwd [Path.join conv [basePath; path n]] =
      resolve conv cwd [entryPath conv basePath (ancestors ++ names)].
Proof.
  induction names as [|nm rest IH]; intros ancestors nodes n Hok Hat;
    [destruct Hat|].
  rewrite List.Forall_forall in Hok.
  destruct rest as [|nm' rest].
  - destruct Hat as [Hin <-]. specialize (Hok n Hin).
    destruct n as [nm0 pth ty ch]. simpl in Hok |- *. tauto.
  - destruct Hat as (pth & kids & Hin & Hat).
    specialize (Hok _ Hin). simpl in Hok.
    destruct Hok as (_ & _ & Hkids). apply fold_right_Forall in Hkids.
    destruct (IH (ancestors ++ [nm]) kids n Hkids Hat) as [H1 H2].
    now rewrite <- List.app_assoc in H1, H2.
Qed.

Section Fetch.
Variable conv : Convention.
Hypothesis convOk : conventionOk conv.
Hypothesis slashIsSep : isSep conv "/" = true.
Variable cwd : string.
Hypothesis cwdAbsolute : isAbsolute conv cwd = true.

Lemma names_pass_validation l :
  l <> [] ->
  Forall (fun x => validName conv x = true) l ->
  JsString.includes (joinSegments conv l) ".." = false ->
  normalize conv (joinSegments conv l) = joinSegments conv l /\
  rejectedByValidation (normalize conv (joinSegments conv l)) = false.
Proof.
  intros Hne Hl Hdots.
  pose proof (normalize_names conv convOk l Hne Hl) as Hnorm.
  split; [exact Hnorm|]. rewrite Hnorm. unfold rejectedByValidation.
  rewrite Hdots. simpl.
  assert (Habs : isAbsolute conv (joinSegments conv l) = false).
  { rewrite <- (append_nil_r (joinSegments conv l)).
    apply isAbsolute_joinSegments; [|now apply validNames_sepFree|exact Hne].
    exact (validNames_kept conv l Hl). }
  destruct (joinSegments conv l) as [|d s]; [reflexivity|].
  unfold isAbsolute in Habs. simpl in Habs |- *.
  destruct (Ascii.eqb_spec d "/") as [->|]; [congruence|reflexivity].
Qed.

Lemma entryAt_names root p :
  entryAt conv cwd root p = lookup root (resolvedNames conv cwd p).
Proof.
  unfold entryAt.
  rewrite (resolve_names conv convOk cwd cwdAbsolute).
  rewrite (names_resolved conv convOk)
    by (apply resolvedNames_regular || apply (resolvedNames_sepFree conv convOk)).
  reflexivity.
Qed.

Lemma tree_file_is_served root hljs lexer localeCompare context dir nodes
    names n st :
  mode context = DirectoryMode ->
  entryAt conv cwd root (basePath context) = Some dir ->
  validListing conv dir = true ->
  distinctNames dir = true ->
  treeHandler conv cwd root localeCompare context = Some nodes ->
  nodeAt nodes names n ->
  type n = FileTree.file ->
  JsString.includes (path n) ".." = false ->
  exists content,
    lookup dir names = Some (File (name n) content) /\
    reply (handler conv cwd root hljs lexer context (Some (path n)) st) =
    Content 200
      {| Api.file := path n;
         html :=
           rewriteAssetPaths (fst (fst (parseMarkdown hljs lexer content st)))
             (dirname conv (path n));
         headings := documentHeadings (lexer content);
         raw := content |}.
Proof.
  intros Hmode Hdir Hvalid Hdist Htree Hat Hty Hdots.
  set (base := basePath context) in *.
  unfold treeHandler in Htree. rewrite Hmode in Htree. fold base in Htree.
  rewrite Hdir in Htree. simpl in Htree.
  destruct (build_sorted conv cwd localeCompare base base dir nodes Htree)
    as (es & nodes0 & Hshape & _ & _).
  assert (Hread : readdir dir = Some es) by (now rewrite Hshape).
  destruct (file_node_has_visible_file conv cwd localeCompare base names base
              dir es nodes n Htree Hread Hat Hty) as (content & Hvis & _).
  assert (Hvalid' : forallb (validEntry conv) es = true)
    by (rewrite Hshape in Hvalid; exact Hvalid).
  pose proof (visible_valid conv names es _ Hvis Hvalid') as Hnames.
  pose proof (visible_nonempty es names _ Hvis) as Hne.
  assert (Hlook : lookup dir names = Some (File (name n) content)).
  { rewrite Hshape. apply visible_lookup; [exact Hvis|].
    now rewrite <- Hshape. }
  assert (Hok : Forall (pathsOk conv cwd base []) nodes).
  { apply (buildFileTree_paths conv cwd localeCompare base convOk
             cwdAbsolute dir [] nodes); [constructor|exact Hvalid|exact Htree]. }
  destruct (nodeAt_path conv cwd base names [] nodes n Hok Hat)
    as [Hpath Hround].
  simpl List.app in Hpath, Hround.
  rewrite Hpath in Hdots.
  destruct (names_pass_validation names Hne Hnames Hdots) as [Hnorm Hrej].
  exists content. split; [exact Hlook|].
  assert (Hres : resolvedPathOf conv cwd context (path n) =
                 sepString conv
                   +:+ joinSegments conv (resolvedNames conv cwd base ++ names)).
  { unfold resolvedPathOf. rewrite Hmode. fold base. rewrite Hround.
    rewrite (resolve_names conv convOk cwd cwdAbsolute). unfold resolvedNames.
    rewrite (absState_entryPath conv cwd base convOk names Hnames).
    now rewrite List.rev_app_distr, List.rev_involutive. }
  assert (Hne' : path n <> EmptyString).
  { rewrite Hpath. apply joinSegments_nonempty; [exact Hne|].
    exact (validNames_kept conv names Hnames). }
  assert (Hunder : underRoot conv cwd context (normalize conv (path n)) = true).
  { rewrite Hpath, Hnorm, <- Hpath. unfold underRoot. rewrite Hres.
    fold base. rewrite (resolve_names conv convOk cwd cwdAbsolute base).
    apply rooted_under. }
  assert (Hraw : readFile conv cwd root
                   (resolvedPathOf conv cwd context (normalize conv (path n)))
                 = Some content).
  { rewrite Hpath, Hnorm, <- Hpath, Hres. unfold readFile.
    rewrite (entryAt_rooted conv convOk cwd cwdAbsolute).
    - rewrite lookup_app. rewrite entryAt_names in Hdir. rewrite Hdir.
      simpl. now rewrite Hlook.
    - apply Forall_app. split; [apply resolvedNames_regular|].
      exact (validNames_regular conv names Hnames).
    - apply Forall_app. split; [apply (resolvedNames_sepFree conv convOk)|].
      now apply validNames_sepFree. }
  rewrite (handler_content conv cwd root hljs lexer context (path n) st
             content Hne' ltac:(now rewrite Hpath) Hunder Hraw).
  unfold fileDirOf. rewrite Hmode. now rewrite Hpath, Hnorm.
Qed.

End Fetch.

(** X23.  What the tree route lists, the content route serves.  In
    directory mode, on a disk whose directories hold proper names, each
    once: for every file node of the tree sent by [GET /api/tree], at any
    depth, whose path holds no two dots in a row, the request for that
    path is answered 200, with the path, the text of the file the node
    stands for and the headings of that document. *)
Theorem listed_files_can_be_fetched
    conv cwd root hljs lexer localeCompare context dir nodes names n st :
  conventionOk conv ->
  isSep conv "/" = true ->
  isAbsolute conv cwd = true ->
  mode context = DirectoryMode ->
  entryAt conv cwd root (basePath context) = Some dir ->
  validListing conv dir = true ->
  distinctNames dir = true ->
  treeHandler conv cwd root localeCompare context = Some nodes ->
  nodeAt nodes names n ->
  type n = FileTree.file ->
  JsString.includes (path n) ".." = false ->
  exists content,
    lookup dir names = Some (File (name n) content) /\
    reply (handler conv cwd root hljs lexer context (Some (path n)) st) =
    Content 200
      {| Api.file := path n;
         html :=
           rewriteAssetPaths (fst (fst (parseMarkdown hljs lexer content st)))
             (dirname conv (path n));
         headings := documentHeadings (lexer content);
         raw := content |}.
Proof.
  intros Hconv Hslash Hcwd. now apply tree_file_is_served.
Qed.

(** The served directory of the sample disk. *)
Definition servedDirectory : Entry :=
  default (Other EmptyString)
    (entryAt posix "/home" sampleDisk (basePath sampleContext)).

Lemma listed_files_can_be_fetched_witness :
  let n := Node "intro.md" "guide/intro.md" FileTree.file None in
  validListing posix servedDirectory = true /\
  distinctNames servedDirectory = true /\
  (exists nodes,
     treeHandler posix "/home" sampleDisk Sample.localeCompare sampleContext
       = Some nodes /\
     nodeAt nodes ["guide"; "intro.md"] n) /\
  JsString.includes (path n) ".." = false /\
  exists content,
    lookup servedDirectory ["guide"; "intro.md"] =
      Some (File "intro.md" content) /\
    reply (sampleHandler (Some "guide/intro.md")) =
    Content 200
      {| Api.file := "guide/intro.md";
         html :=
           rewriteAssetPaths
             (fst (fst (parseMarkdown Sample.hljs Sample.lexer content
                          initialStore))) "guide";
         headings := documentHeadings (Sample.lexer content);
         raw := content |}.
Proof.
  intros n.
  set (nodes :=
         [ Node "guide" "guide" directory
             (Some [ Node "intro.md" "guide/intro.md" FileTree.file None ]);
           Node "notes..md" "notes..md" FileTree.file None;
           Node "readme.md" "readme.md" FileTree.file None ]).
  assert (Htree : treeHandler posix "/home" sampleDisk Sample.localeCompare
                    sampleContext = Some nodes) by (vm_compute; reflexivity).
  assert (Hat : nodeAt nodes ["guide"; "intro.md"] n).
  { exists "guide", [n]. split; [left; reflexivity|].
    split; [left; reflexivity|reflexivity]. }
  assert (Hdir : entryAt posix "/home" sampleDisk (basePath sampleContext) =
                 Some servedDirectory) by reflexivity.
  split; [reflexivity|]. split; [reflexivity|].
  split; [exists nodes; split; [exact Htree|exact Hat]|].
  split; [reflexivity|].
  exact (listed_files_can_be_fetched posix "/home" sampleDisk Sample.hljs
           Sample.lexer Sample.localeCompare sampleContext servedDirectory
           nodes ["guide"; "intro.md"] n initialStore posix_ok eq_refl eq_refl
           eq_refl Hdir eq_refl eq_refl Htree Hat eq_refl eq_refl).
Defined.

(** X25.  The tree route in single-file mode always answers, without
    reading the disk; in directory mode it answers exactly when the base
    directory is there and every directory to read can be listed, and
    fails otherwise. *)
Theorem tree_route_fails_exactly_on_unlistable
    conv cwd root localeCompare context :
  succeeds (treeHandler conv cwd root localeCompare context) =
  match mode context with
  | FileMode => true
  | DirectoryMode =>
      match entryAt conv cwd root (basePath context) with
      | Some dir => listable dir
      | None => false
      end
  end.
Proof.
  unfold treeHandler. destruct (mode context); [reflexivity|].
  destruct (entryAt conv cwd root (basePath context)) as [dir|];
    [|reflexivity].
  simpl. apply build_succeeds.
Qed.

End FetchFacts.

(** ** [path.win32] on the cases of the library *)

(** Cases of the documentation and of the tests of the library, run on
    the model; the working directory is [C:\Users\me] and no drive has a
    working directory of its own. *)
Module Win32Cases.
Import Win32.

Definition cwd : string := "C:\Users\me".

Definition env : string -> option string := fun _ => None.

Example relative_cases :
  List.map (fun '(from, to) => relative cwd env from to)
    [ ("C:\orandea\test\aaa", "C:\orandea\impl\bbb");
      ("c:/blah\blah", "d:/games");
      ("c:/aaaa/bbbb", "c:/aaaa");
      ("c:/aaaa/bbbb", "c:/cccc");
      ("c:/aaaa/bbbb", "c:/aaaa/bbbb");
      ("c:/aaaa/bbbb", "c:/aaaa/cccc");
      ("c:/aaaa/", "c:/aaaa/cccc");
      ("c:/", "c:\aaaa\bbbb");
      ("c:/aaaa/bbbb", "d:\");
      ("c:/AaAa/bbbb", "c:/aaaa/bbbb");
      ("c:/aaaaa/", "c:/aaaa/cccc");
      ("C:\foo\bar\baz\quux", "C:\");
      ("C:\foo\test", "C:\foo\test\bar\package.json");
      ("C:\foo\bar\baz-quux", "C:\foo\bar\baz");
      ("C:\foo\bar\baz", "C:\foo\bar\baz-quux");
      ("\\foo\bar", "\\foo\bar\baz");
      ("\\foo\bar\baz", "\\foo\bar");
      ("\\foo\bar\baz-quux", "\\foo\bar\baz");
      ("C:\baz-quux", "C:\baz");
      ("C:\baz", "\\foo\bar\baz");
      ("\\foo\bar\baz", "C:\baz") ] =
    [ "..\..\impl\bbb"; "d:\games"; ".."; "..\..\cccc"; ""; "..\cccc";
      "cccc"; "aaaa\bbbb"; "d:\"; ""; "..\aaaa\cccc"; "..\..\..\..";
      "bar\package.json"; "..\baz"; "..\baz-quux"; "baz"; ".."; "..\baz";
      "..\baz"; "\\foo\bar\baz"; "C:\baz" ].
Proof. vm_compute. reflexivity. Qed.

Example resolve_cases :
  List.map (resolve cwd env)
    [ ["c:/blah\blah"; "d:/games"; "c:../a"];
      ["c:/ignore"; "d:\a/b\c/d"; "\e.exe"];
      ["c:/ignore"; "c:/some/file"];
      ["d:/ignore"; "d:some/dir//"];
      ["."];
      ["//server/share"; ".."; "relative\"];
      ["c:/"; "//"];
      ["c:/"; "//dir"];
      ["c:/"; "//server/share"];
      ["c:/"; "///some//dir"];
      ["C:\foo\tmp.3\"; "..\tmp.3\cycles\root.js"] ] =
    [ "c:\blah\a"; "d:\e.exe"; "c:\some\file"; "d:\ignore\some\dir";
      "C:\Users\me"; "\\server\share\relative"; "c:\"; "c:\dir";
      "\\server\share\"; "c:\some\dir"; "C:\foo\tmp.3\cycles\root.js" ].
Proof. vm_compute. reflexivity. Qed.

Example normalize_cases :
  List.map normalize
    [ "C:\temp\\foo\bar\..\"; "C:////temp\\/\/\/foo/bar";
      "./fixtures///b/../b/c.js"; "/foo/../../../bar"; "a//b//../b";
      "//server/share/dir/file.ext"; "C:"; "C:..\abc"; "C:\.";
      "bar\foo..\..\"; "..\foo..\..\..\bar"; "foo/bar\baz" ] =
    [ "C:\temp\foo\"; "C:\temp\foo\bar"; "fixtures\b\c.js"; "\bar"; "a\b";
      "\\server\share\dir\file.ext"; "C:."; "C:..\abc"; "C:\"; "bar\";
      "..\..\bar"; "foo\bar\baz" ].
Proof. vm_compute. reflexivity. Qed.

Example join_cases :
  List.map join
    [ ["C:\srv\docs"; "guide"]; ["//foo/bar"]; ["//foo"; "bar"];
      ["\"; "foo/bar"]; ["//"; "foo/bar"]; ["//"]; ["//foo"]; ["//foo/"];
      ["///foo/bar"]; ["c:"]; ["c:."; "file"]; ["c:"; "/"]; ["c:"; "file"] ] =
    [ "C:\srv\docs\guide"; "\\foo\bar\"; "\\foo\bar\"; "\foo\bar";
      "\foo\bar"; "\"; "\foo"; "\foo\"; "\foo\bar"; "c:."; "c:file"; "c:\";
      "c:\file" ].
Proof. vm_compute. reflexivity. Qed.

End Win32Cases.

(** ** The tests of the repository *)

(** The cases of [tests/] that do not depend on [marked], run on the
    embedding. *)
Module RepositoryTests.
Import Markdown Api Fs FileTree.

Definition lf : string := Sample.newline.

Example extracts_all_heading_levels :
  List.map level
    (extractHeadings
       ("# H1" +:+ lf +:+ "## H2" +:+ lf +:+ "### H3" +:+ lf +:+ "#### H4"
          +:+ lf +:+ "##### H5" +:+ lf +:+ "###### H6")) =
  [1; 2; 3; 4; 5; 6].
Proof. vm_compute. reflexivity. Qed.

Example handles_empty_content : extractHeadings EmptyString = [].
Proof. reflexivity. Qed.

Example handles_content_without_headings :
  extractHeadings ("Just some text" +:+ lf +:+ "No headings here") = [].
Proof. vm_compute. reflexivity. Qed.

Example ids_for_special_characters :
  List.map id (extractHeadings "# Hello, World! (2024)") = ["hello-world-2024"].
Proof. vm_compute. reflexivity. Qed.

Example ids_for_multiple_spaces :
  List.map id (extractHeadings "# Multiple   Spaces   Here") =
  ["multiple-spaces-here"].
Proof. vm_compute. reflexivity. Qed.

Example rewrites_image_in_root_file :
  rewriteAssetPaths
    (ApiFacts.imgTag (ApiFacts.attribute "src" "./images/test.png" +:+ " "
                        +:+ ApiFacts.attribute "alt" "image"))
    "." =
  ApiFacts.imgTag (ApiFacts.attribute "src" "/assets/images/test.png" +:+ " "
                     +:+ ApiFacts.attribute "alt" "image").
Proof. vm_compute. reflexivity. Qed.

Example empty_directory_gives_empty_tree :
  buildFileTree Path.posix "/home" Sample.localeCompare "/tmp/fx" "/tmp/fx"
    (Dir "fx" true []) = Some [].
Proof. reflexivity. Qed.

Example sets_correct_relative_paths :
  buildFileTree Path.posix "/home" Sample.localeCompare "/tmp/fx" "/tmp/fx"
    (Dir "fx" true
       [ Dir "docs" true [ Dir "nested" true [ File "deep.md" "# Deep" ] ] ]) =
  Some
    [ Node "docs" "docs" directory
        (Some
           [ Node "nested" "docs/nested" directory
               (Some [ Node "deep.md" "docs/nested/deep.md" file None ]) ]) ].
Proof. vm_compute. reflexivity. Qed.

Example sorts_directories_before_files :
  option_map (List.map type)
    (buildFileTree Path.posix "/home" Sample.localeCompare "/tmp/fx" "/tmp/fx"
       (Dir "fx" true
          [ File "zebra.md" "# Zebra";
            Dir "alpha" true [ File "doc.md" "# Alpha" ] ])) =
  Some [directory; file].
Proof. vm_compute. reflexivity. Qed.

Example existing_directory_exists :
  fileExists Path.posix "/home"
    (Dir "" true [ Dir "tmp" true [ Dir "fx" true [ Dir "subdir" true [] ] ] ])
    "/tmp/fx/subdir" = true.
Proof. reflexivity. Qed.

Example missing_file_does_not_exist :
  fileExists Path.posix "/home"
    (Dir "" true [ Dir "tmp" true [ Dir "fx" true [] ] ])
    "/tmp/fx/nonexistent.md" = false.
Proof. reflexivity. Qed.

End RepositoryTests.
